(** * Terminal completion service: provider registry, completion aggregation
      and path resolution

    A shallow embedding of
    [src/vs/workbench/contrib/terminalContrib/suggest/browser/terminalCompletionService.ts].

    Conventions of the embedding:
    - a JavaScript string is a [string]; its code units are the characters of
      the string, and [length] counts them;
    - a JavaScript number holding an offset or a length is a [Z];
    - an optional property is an [option]; an optional boolean that the code
      only tests for truthiness is a [bool] ([undefined] is [false]);
    - a promise that settles is an [outcome]: fulfilled with a value or
      rejected with an error; where the order in which promises settle
      decides a result, each comes with the instant at which it settles;
    - the collaborators that the service calls but does not define (URI
      handling, [basename], the shell types, the configuration and file
      services) are the members of two classes, [Platform] and [Services],
      which the service takes as it is given them;
    - the calls to providers and to the file service are recorded in a
      trace, so that a property can say that none was made. *)

From Stdlib Require Import ZArith Ascii String List Lia.
From stdpp Require Import base option list gmap strings.

Local Open Scope Z_scope.

(** ** JavaScript string primitives used by the service *)

Module JS.

Definition chr (n : nat) : ascii := Eval cbv in ascii_of_nat n.

(** The characters the service names in its literals and patterns. *)
Definition space : ascii := chr 32.
Definition slash : ascii := chr 47.
Definition backslash : ascii := chr 92.
Definition tilde : ascii := chr 126.
Definition dot : ascii := chr 46.
Definition colon : ascii := chr 58.
Definition semicolon : ascii := chr 59.
Definition tab : ascii := chr 9.

Definition str (c : ascii) : string := String c EmptyString.

(** [s.length] *)
Definition length (s : string) : Z := Z.of_nat (String.length s).

Fixpoint take (n : nat) (s : string) : string :=
  match n, s with
  | O, _ => EmptyString
  | S _, EmptyString => EmptyString
  | S n', String c s' => String c (take n' s')
  end.

Fixpoint drop (n : nat) (s : string) : string :=
  match n, s with
  | O, _ => s
  | S _, EmptyString => EmptyString
  | S n', String _ s' => drop n' s'
  end.

(** Both [substring] and [slice] clamp their arguments to the string. *)
Definition clamp (len i : Z) : Z := Z.max 0 (Z.min i len).

(** [s.substring(start, end)]: arguments clamped to [0, length], swapped
    when [start > end]. *)
Definition substring (s : string) (start end_ : Z) : string :=
  let a := clamp (length s) start in
  let b := clamp (length s) end_ in
  let from := Z.min a b in
  let to := Z.max a b in
  take (Z.to_nat (to - from)) (drop (Z.to_nat from) s).

(** A negative argument of [slice] counts from the end of the string. *)
Definition rel (len i : Z) : Z :=
  if i <? 0 then Z.max (len + i) 0 else Z.min i len.

(** [s.slice(start, end)] *)
Definition slice (s : string) (start end_ : Z) : string :=
  let from := rel (length s) start in
  let to := rel (length s) end_ in
  take (Z.to_nat (to - from)) (drop (Z.to_nat from) s).

(** [s.slice(start)] *)
Definition slice_from (s : string) (start : Z) : string :=
  slice s start (length s).

(** [s.startsWith(t)] *)
Fixpoint startsWith (s t : string) : bool :=
  match t, s with
  | EmptyString, _ => true
  | String _ _, EmptyString => false
  | String c t', String d s' => if Ascii.eqb c d then startsWith s' t' else false
  end.

(** [s.endsWith(t)]: [t] is no longer than [s] and the last [t.length]
    code units of [s] are those of [t]. *)
Definition endsWith (s t : string) : bool :=
  if (String.length t <=? String.length s)%nat then
    String.eqb (drop (String.length s - String.length t)%nat s) t
  else false.

(** [s.lastIndexOf(t)]: the greatest position at which [t] occurs in [s],
    or [-1]. The position of the first character of [s] is [i]. *)
Fixpoint lastIndexOf_from (i : Z) (s t : string) : Z :=
  let here := if startsWith s t then i else -1 in
  match s with
  | EmptyString => here
  | String _ s' =>
      let later := lastIndexOf_from (i + 1) s' t in
      if later =? -1 then here else later
  end.

Definition lastIndexOf (s t : string) : Z := lastIndexOf_from 0 s t.

(** [s.split(sep)] for a separator of one code unit. The result is never
    empty: the empty string splits into one empty string. *)
Fixpoint split (sep : ascii) (s : string) : list string :=
  match s with
  | EmptyString => [EmptyString]
  | String c s' =>
      if Ascii.eqb c sep then EmptyString :: split sep s'
      else match split sep s' with
           | [] => [str c]
           | w :: ws => String c w :: ws
           end
  end.

(** [xs.at(-1)] *)
Definition at_last {A} (xs : list A) : option A := last xs.

(** [s.replaceAll(p, r)] where [p] matches single code units (a character
    class, or a string of one code unit) and [r] is one code unit. *)
Fixpoint replaceAll (p : ascii → bool) (r : ascii) (s : string) : string :=
  match s with
  | EmptyString => EmptyString
  | String c s' => String (if p c then r else c) (replaceAll p r s')
  end.

(** The character class [[\\/]]. *)
Definition isSlash (c : ascii) : bool :=
  Ascii.eqb c backslash || Ascii.eqb c slash.

(** The character class [[a-zA-Z]]. *)
Definition isLetter (c : ascii) : bool :=
  let n := nat_of_ascii c in
  ((97 <=? n) && (n <=? 122) || (65 <=? n) && (n <=? 90))%nat.

(** [c.toUpperCase()] for one code unit. *)
Definition toUpperCase (c : ascii) : ascii :=
  let n := nat_of_ascii c in
  if ((97 <=? n) && (n <=? 122))%nat then ascii_of_nat (n - 32) else c.

(** [/^\.\.?[\\\/]/] *)
Definition matchDotPrefix (s : string) : bool :=
  match s with
  | String c1 (String c2 rest) =>
      Ascii.eqb c1 dot &&
      (isSlash c2 ||
       Ascii.eqb c2 dot &&
       match rest with String c3 _ => isSlash c3 | EmptyString => false end)
  | _ => false
  end.

(** [/^~[\\\/]/] *)
Definition matchTildePrefix (s : string) : bool :=
  match s with
  | String c1 (String c2 _) => Ascii.eqb c1 tilde && isSlash c2
  | _ => false
  end.

(** [/^[a-zA-Z]:[\\\/]/] *)
Definition matchDrivePrefix (s : string) : bool :=
  match s with
  | String c1 (String c2 (String c3 _)) =>
      isLetter c1 && Ascii.eqb c2 colon && isSlash c3
  | _ => false
  end.

(** [/^[a-zA-Z]:\\/] *)
Definition matchDriveBackslash (s : string) : bool :=
  match s with
  | String c1 (String c2 (String c3 _)) =>
      isLetter c1 && Ascii.eqb c2 colon && Ascii.eqb c3 backslash
  | _ => false
  end.

(** Truthiness of a string: the empty string is falsy. *)
Definition truthy (s : string) : bool :=
  match s with EmptyString => false | _ => true end.

(** The property names that a plain object inherits from
    [Object.prototype]. The operator [in] answers [true] for them on an
    object that holds none of them itself, and reading one of them gives a
    function (the prototype object for [__proto__]), not a boolean. *)
Definition Object_prototype : list string :=
  [ "constructor"; "__defineGetter__"; "__defineSetter__"; "hasOwnProperty";
    "__lookupGetter__"; "__lookupSetter__"; "isPrototypeOf";
    "propertyIsEnumerable"; "toString"; "valueOf"; "__proto__";
    "toLocaleString" ]%string.

(** [key in o], for a plain object [o] given by the properties it holds
    itself. *)
Definition has_in {V} (key : string) (o : gmap string V) : bool :=
  bool_decide (is_Some (o !! key)) || bool_decide (key ∈ Object_prototype).

End JS.

(** ** Insertion-ordered maps with string keys

    A JavaScript [Map] iterates in insertion order and holds each key once;
    it is an association list here. [set] on a key that is present replaces
    the value where it stands, as [Map.prototype.set] does. *)

Module OMap.

Definition t (V : Type) : Type := list (string * V).

Definition empty {V} : t V := [].

Fixpoint get {V} (k : string) (m : t V) : option V :=
  match m with
  | [] => None
  | (k', v) :: m' => if String.eqb k' k then Some v else get k m'
  end.

Fixpoint set {V} (k : string) (v : V) (m : t V) : t V :=
  match m with
  | [] => [(k, v)]
  | (k', v') :: m' =>
      if String.eqb k' k then (k, v) :: m' else (k', v') :: set k v m'
  end.

Fixpoint delete {V} (k : string) (m : t V) : t V :=
  match m with
  | [] => []
  | (k', v') :: m' =>
      if String.eqb k' k then delete k m' else (k', v') :: delete k m'
  end.

Definition size {V} (m : t V) : nat := List.length m.

Definition keys {V} (m : t V) : list string := List.map fst m.

Definition values {V} (m : t V) : list V := List.map snd m.

End OMap.

(** ** Completion items *)

(** [TerminalCompletionItemKind]: the members the service names, and the
    rest of the numeric enumeration. *)
Inductive TerminalCompletionItemKind : Type :=
| File
| Folder
| Method
| OtherKind (tag : Z).

Definition kind_eqb (a b : TerminalCompletionItemKind) : bool :=
  match a, b with
  | File, File | Folder, Folder | Method, Method => true
  | OtherKind m, OtherKind n => m =? n
  | _, _ => false
  end.

(** [ITerminalCompletion]: the properties the service reads or writes. *)
Record ITerminalCompletion : Type := mkCompletion {
  label : string;
  provider : string;
  kind : option TerminalCompletionItemKind;
  detail : option string;
  replacementIndex : Z;
  replacementLength : Z;
  isFileOverride : option bool
}.

(** [PathType]: the local [type] of [resolveResources]. *)
Inductive PathType : Type := tilde | absolute | relative.

Definition PathType_eqb (a b : PathType) : bool :=
  match a, b with
  | tilde, tilde | absolute, absolute | relative, relative => true
  | _, _ => false
  end.

(** The configuration service, read at two setting keys:
    [TerminalSuggestSettingId.Providers] and [TerminalSuggestSettingId.CdPath].
    The value of the first is a plain object, as parsed from the settings: it
    is given by the properties it holds itself, and it inherits those of
    [Object.prototype]. *)
Record IConfigurationService : Type := mkConfiguration {
  Providers : gmap string bool;
  CdPath : string
}.

(** The shell environment capability; [env] may be undefined. *)
Record IShellEnvDetectionCapability : Type := mkShellEnv {
  env : option (gmap string string)
}.

(** The capability store, read at [TerminalCapability.ShellEnvDetection]. *)
Record ITerminalCapabilityStore : Type := mkCapabilities {
  ShellEnvDetection : option IShellEnvDetectionCapability
}.

(** [capabilities.get(TerminalCapability.ShellEnvDetection)?.env] *)
Definition capabilities_env (capabilities : ITerminalCapabilityStore)
  : option (gmap string string) :=
  match ShellEnvDetection capabilities with
  | Some c => env c
  | None => None
  end.

(** [addPathRelativePrefix] *)
Definition addPathRelativePrefix (text pathSeparator : string)
    (lastWordFolderHasDotPrefix : bool) : string :=
  if negb lastWordFolderHasDotPrefix
  then JS.str JS.dot +:+ pathSeparator +:+ text
  else text.

(** The last word of the text before the cursor: the local [lastWord]. *)
Definition lastWordOf (cursorPrefix : string) : string :=
  if JS.endsWith cursorPrefix (JS.str JS.space) then EmptyString
  else default EmptyString (JS.at_last (JS.split JS.space cursorPrefix)).

(** The local [lastSlashIndex]. *)
Definition lastSlashIndexOf (useWindowsStylePath : bool)
    (pathSeparator lastWord : string) : Z :=
  if useWindowsStylePath
  then Z.max (JS.lastIndexOf lastWord (JS.str JS.backslash))
             (JS.lastIndexOf lastWord (JS.str JS.slash))
  else JS.lastIndexOf lastWord pathSeparator.

(** The local [lastWordFolder]. *)
Definition lastWordFolderOf (useWindowsStylePath : bool)
    (pathSeparator lastWord : string) : string :=
  let lastSlashIndex := lastSlashIndexOf useWindowsStylePath pathSeparator lastWord in
  let lastWordFolder :=
    if lastSlashIndex =? -1 then EmptyString
    else JS.slice lastWord 0 (lastSlashIndex + 1) in
  if useWindowsStylePath
  then JS.replaceAll (Ascii.eqb JS.slash) JS.backslash lastWordFolder
  else lastWordFolder.

(** The local [type]. *)
Definition pathTypeOf (useWindowsStylePath : bool)
    (pathSeparator lastWord lastWordFolder : string) : PathType :=
  let lastWordFolderHasTildePrefix := JS.matchTildePrefix lastWordFolder in
  let isAbsolutePath :=
    if useWindowsStylePath then JS.matchDrivePrefix lastWord
    else JS.startsWith lastWord pathSeparator in
  if lastWordFolderHasTildePrefix then tilde
  else if isAbsolutePath then absolute
  else relative.

(** ** The platform the service is written against *)

(** [URI] with the functions of [uri.ts] and [path.ts] that the service
    calls, [TerminalShellType] with its member [GeneralShellType.PowerShell],
    and what a rejected promise carries. The service defines none of them. *)
Class Platform : Type := {
  URI : Type;
  URI_file : string → URI;
  URI_joinPath : URI → string → URI;
  fsPath : URI → string;
  basename : string → string;
  TerminalShellType : Type;
  TerminalShellType_eq_dec :: EqDecision TerminalShellType;
  PowerShell : TerminalShellType;
  Error : Type
}.

Inductive outcome `{Platform} (A : Type) : Type :=
| Fulfilled (a : A)
| Rejected (e : Error).
Arguments Fulfilled {_ A} a.
Arguments Rejected {_ A} e.

(** [IFileStat]: what the service reads of a resolved resource. *)
#[warnings="-register-all"]
Inductive IFileStat `{Platform} : Type := mkFileStat {
  resource : URI;
  name : string;
  isFile : bool;
  isDirectory : bool;
  children : option (list IFileStat)
}.
Arguments mkFileStat {_} _ _ _ _ _.

(** [TerminalResourceRequestConfig]. [cwd] is held revived. *)
Record TerminalResourceRequestConfig `{Platform} : Type := mkResourceRequestConfig {
  filesRequested : option bool;
  foldersRequested : option bool;
  cwd : option URI;
  pathSeparator : string;
  config_env : option (gmap string (option string))
}.
Arguments mkResourceRequestConfig {_} _ _ _ _ _.

(** What a provider's promise is fulfilled with, when it is not
    [undefined]: an array of items or a [TerminalCompletionList]. *)
Inductive Completions `{Platform} : Type :=
| ItemArray (items : list ITerminalCompletion)
| CompletionList (items : option (list ITerminalCompletion))
                 (resourceRequestConfig : option TerminalResourceRequestConfig).
Arguments ItemArray {_} _.
Arguments CompletionList {_} _ _.

(** [ITerminalCompletionProvider]. The cancellation token is handed to the
    provider untouched and is left out. *)
Record ITerminalCompletionProvider `{Platform} : Type := mkProvider {
  id : string;
  shellTypes : option (list TerminalShellType);
  provider_provideCompletions : string → Z → outcome (option Completions);
  triggerCharacters : option (list string);
  isBuiltin : bool
}.
Arguments mkProvider {_} _ _ _ _ _.

(** The collaborators injected in the constructor. [_fileService_resolve]
    answers [resolve(resource, { resolveSingleChildDescendants: true })].

    When a promise settles is for the collaborators to decide, not for the
    service: [settledAt p] is the instant at which the promise of the
    callback that [_collectCompletions] runs for the provider [p] settles,
    once the provider and the file service have answered it. *)
Class Services `{Platform} : Type := {
  _configurationService : IConfigurationService;
  _fileService_resolve : URI → outcome (option IFileStat);
  settledAt : ITerminalCompletionProvider → nat
}.

(** ** The service *)

Section Service.

Context `{Platform} `{!Services}.

(** *** Effects: a trace of calls, and rejection *)

Inductive event : Type :=
| Invoke (providerId : string) (value : string) (cursorPosition : Z)
| Resolve (resource : URI).

Definition M (A : Type) : Type := list event → outcome A * list event.

Definition ret {A} (a : A) : M A := λ tr, (Fulfilled a, tr).

Definition throw {A} (e : Error) : M A := λ tr, (Rejected e, tr).

Definition bind {A B} (m : M A) (k : A → M B) : M B :=
  λ tr, match m tr with
        | (Fulfilled a, tr') => k a tr'
        | (Rejected e, tr') => (Rejected e, tr')
        end.

(** [try { m } catch { h }] *)
Definition try_catch {A} (m : M A) (h : M A) : M A :=
  λ tr, match m tr with
        | (Fulfilled a, tr') => (Fulfilled a, tr')
        | (Rejected _, tr') => h tr'
        end.

(** [await this._fileService.resolve(resource, ...)] *)
Definition fileService_resolve (resource : URI) : M (option IFileStat) :=
  λ tr, (_fileService_resolve resource, tr ++ [Resolve resource]).

(** [await provider.provideCompletions(value, cursorPosition, token)],
    split in the call and the settling of its promise. *)
Definition invoke (p : ITerminalCompletionProvider) (value : string)
    (cursorPosition : Z) : M (outcome (option Completions)) :=
  λ tr, (Fulfilled (provider_provideCompletions p value cursorPosition),
         tr ++ [Invoke (id p) value cursorPosition]).

Definition settle {A} (o : outcome A) : M A :=
  match o with
  | Fulfilled a => ret a
  | Rejected e => throw e
  end.

Notation "x <- m ;; k" := (bind m (λ x, k))
  (at level 100, m at next level, right associativity).

(** *** Path resolution *)

(** [getFriendlyPath] *)
Definition getFriendlyPath (uri : URI) (pathSeparator : string)
    (kind : TerminalCompletionItemKind) : string :=
  let path := fsPath uri in
  let path :=
    if kind_eqb kind Folder && negb (JS.endsWith path pathSeparator)
    then path +:+ pathSeparator else path in
  if String.eqb pathSeparator (JS.str JS.backslash) && JS.matchDriveBackslash path
  then match path with
       | String c _ =>
           JS.str (JS.toUpperCase c) +:+ JS.str JS.colon +:+ JS.slice_from path 2
       | EmptyString => path
       end
  else path.

Section ResolveResources.

Variable resourceRequestConfig : TerminalResourceRequestConfig.
Variable promptValue0 : string.
Variable cursorPosition : Z.
Variable provider : string.
Variable capabilities : ITerminalCapabilityStore.

Definition useWindowsStylePath : bool :=
  String.eqb (pathSeparator resourceRequestConfig) (JS.str JS.backslash).

(** The prompt after the separators are normalized on Windows. *)
Definition promptValue : string :=
  if useWindowsStylePath
  then JS.replaceAll JS.isSlash JS.backslash promptValue0
  else promptValue0.

Definition cursorPrefix : string := JS.substring promptValue 0 cursorPosition.

Definition lastWord : string := lastWordOf cursorPrefix.

Definition lastWordFolder : string :=
  lastWordFolderOf useWindowsStylePath (pathSeparator resourceRequestConfig) lastWord.

Definition lastWordFolderHasDotPrefix : bool := JS.matchDotPrefix lastWordFolder.

Definition type : PathType :=
  pathTypeOf useWindowsStylePath (pathSeparator resourceRequestConfig)
    lastWord lastWordFolder.

(** The home directory read in the [tilde] case, when it is set. *)
Definition homeResource : option URI :=
  match capabilities_env capabilities with
  | Some env =>
      match env !! (if useWindowsStylePath then "USERPROFILE" else "HOME") with
      | Some home =>
          if JS.truthy home
          then Some (URI_joinPath (URI_file home) (JS.slice_from lastWordFolder 1))
          else None
      | None => None
      end
  | None => None
  end.

(** The local [lastWordFolderResource]: a resource, or the text shown
    when the home directory is unknown. *)
Definition lastWordFolderResource (cwd : URI) : option (URI + string) :=
  match type with
  | tilde =>
      match homeResource with
      | Some r => Some (inl r)
      | None => Some (inr (if useWindowsStylePath then "Home directory" else "$HOME"))
      end
  | absolute => Some (inl (URI_file lastWordFolder))
  | relative => Some (inl cwd)
  end.

(** Every item the function pushes has this shape. *)
Definition resourceCompletion (label : string)
    (kind : TerminalCompletionItemKind) (detail : string) : ITerminalCompletion :=
  mkCompletion
    (* label *) label
    (* provider *) provider
    (* kind *) (Some kind)
    (* detail *) (Some detail)
    (* replacementIndex *) (cursorPosition - JS.length lastWord)
    (* replacementLength *) (JS.length lastWord)
    (* isFileOverride *) None.

(** The item pushed when the resource is not known. *)
Definition placeholderCompletion (detail : string) : ITerminalCompletion :=
  resourceCompletion lastWordFolder Folder detail.

(** The item for the folder of the last word itself. *)
Definition currentFolderCompletion (folder : URI) : ITerminalCompletion :=
  let label :=
    match type with
    | tilde => lastWordFolder
    | absolute => lastWordFolder
    | relative =>
        if 0 <? JS.length lastWordFolder
        then addPathRelativePrefix lastWordFolder
               (pathSeparator resourceRequestConfig) lastWordFolderHasDotPrefix
        else JS.str JS.dot
    end in
  resourceCompletion label Folder
    (getFriendlyPath folder (pathSeparator resourceRequestConfig) Folder).

(** The body of the loop over [stat.children]. *)
Definition childCompletion (foldersRequested filesRequested : bool)
    (child : IFileStat) : option ITerminalCompletion :=
  let kind :=
    if foldersRequested && isDirectory child then Some Folder
    else if filesRequested && isFile child then Some File
    else None in
  match kind with
  | None => None
  | Some kind =>
      let sep := pathSeparator resourceRequestConfig in
      let label := lastWordFolder in
      let label :=
        if (0 <? JS.length label) && negb (JS.endsWith label sep)
        then label +:+ sep else label in
      let label := label +:+ name child in
      let label :=
        if PathType_eqb type relative
        then addPathRelativePrefix label sep lastWordFolderHasDotPrefix
        else label in
      let label :=
        if isDirectory child && negb (JS.endsWith label sep)
        then label +:+ sep else label in
      Some (resourceCompletion label kind (getFriendlyPath (resource child) sep kind))
  end.

(** The body of the loop over the children of a CDPATH entry. *)
Definition cdPathChildCompletion (config : string) (child : IFileStat)
    : option ITerminalCompletion :=
  if negb (isDirectory child) then None
  else
    let sep := pathSeparator resourceRequestConfig in
    let useRelative := String.eqb config "relative" in
    let kind := Folder in
    let label :=
      if useRelative then basename (fsPath (resource child))
      else getFriendlyPath (resource child) sep kind in
    let detail :=
      if useRelative
      then "CDPATH " +:+ getFriendlyPath (resource child) sep kind
      else "CDPATH" in
    Some (resourceCompletion label kind detail).

(** What one CDPATH entry adds once its lookup has settled. *)
Definition cdPathEntryCompletions (config : string)
    (fileStat : option IFileStat) : list ITerminalCompletion :=
  match fileStat with
  | Some st =>
      match children st with
      | Some cs => omap (cdPathChildCompletion config) cs
      | None => []
      end
  | None => []
  end.

(** The loop over [cdPathEntries], each turn in its own try and catch. *)
Fixpoint cdPathLoop (config : string) (cdPathEntries : list string)
    (resourceCompletions : list ITerminalCompletion)
    : M (list ITerminalCompletion) :=
  match cdPathEntries with
  | [] => ret resourceCompletions
  | cdPathEntry :: rest =>
      resourceCompletions' <-
        try_catch
          (fileStat <- fileService_resolve (URI_file cdPathEntry) ;;
           ret (resourceCompletions ++ cdPathEntryCompletions config fileStat))
          (ret resourceCompletions) ;;
      cdPathLoop config rest resourceCompletions'
  end.

(** The CDPATH block as a whole. *)
Definition cdPathCompletions (foldersRequested : bool)
    (resourceCompletions : list ITerminalCompletion)
    : M (list ITerminalCompletion) :=
  if PathType_eqb type relative && foldersRequested then
    if JS.startsWith promptValue "cd " then
      let config := CdPath _configurationService in
      if String.eqb config "absolute" || String.eqb config "relative" then
        match capabilities_env capabilities ≫= (λ env, env !! "CDPATH") with
        | Some cdPath =>
            if JS.truthy cdPath then
              cdPathLoop config
                (JS.split (if useWindowsStylePath then JS.semicolon else JS.colon) cdPath)
                resourceCompletions
            else ret resourceCompletions
        | None => ret resourceCompletions
        end
      else ret resourceCompletions
    else ret resourceCompletions
  else ret resourceCompletions.

(** The item for the parent directory. *)
Definition parentCompletion (cwd : URI) : ITerminalCompletion :=
  let sep := pathSeparator resourceRequestConfig in
  let label := ".." +:+ sep in
  let label :=
    if 0 <? JS.length lastWordFolder
    then addPathRelativePrefix (lastWordFolder +:+ label) sep lastWordFolderHasDotPrefix
    else label in
  let parentDir := URI_joinPath cwd (".." +:+ sep) in
  resourceCompletion label Folder (getFriendlyPath parentDir sep Folder).

(** [resolveResources] *)
Definition resolveResources : M (option (list ITerminalCompletion)) :=
  let foldersRequested := default false (foldersRequested resourceRequestConfig) in
  let filesRequested := default false (filesRequested resourceRequestConfig) in
  match cwd resourceRequestConfig with
  | None => ret None
  | Some cwd =>
      if negb foldersRequested && negb filesRequested then ret None
      else
        match lastWordFolderResource cwd with
        | None => ret None
        | Some (inr text) => ret (Some [placeholderCompletion text])
        | Some (inl folder) =>
            stat <- fileService_resolve folder ;;
            match stat ≫= children with
            | None => ret None
            | Some cs =>
                let resourceCompletions :=
                  if foldersRequested then [currentFolderCompletion folder] else [] in
                let resourceCompletions :=
                  resourceCompletions
                    ++ omap (childCompletion foldersRequested filesRequested) cs in
                resourceCompletions <- cdPathCompletions foldersRequested resourceCompletions ;;
                let resourceCompletions :=
                  if PathType_eqb type relative && foldersRequested
                  then resourceCompletions ++ [parentCompletion cwd]
                  else resourceCompletions in
                ret (Some resourceCompletions)
            end
        end
  end.

End ResolveResources.

(** *** The provider registry *)

(** Providers are objects: the registry holds references to them, and
    registration writes to the object. [heap] holds the provider objects. *)
Definition loc : Type := positive.

Record TerminalCompletionService : Type := mkService {
  heap : gmap loc ITerminalCompletionProvider;
  _providers : OMap.t (OMap.t loc)
}.

(** The references the [providers] getter yields, in its order. *)
Definition provider_refs (this : TerminalCompletionService) : list loc :=
  flat_map (λ providerMap : OMap.t loc, OMap.values providerMap)
           (OMap.values (_providers this)).

(** The registered entries with their two keys, in the same order. *)
Definition provider_entries (this : TerminalCompletionService)
    : list (string * string * loc) :=
  flat_map (λ bucket : string * OMap.t loc,
              List.map (λ entry : string * loc, (bucket.1, entry.1, entry.2)) bucket.2)
           (_providers this).

(** [this.providers], read through the heap. *)
Definition providers (this : TerminalCompletionService)
    : list ITerminalCompletionProvider :=
  omap (λ r, heap this !! r) (provider_refs this).

(** The entry stored under a namespace and an id. *)
Definition registered (this : TerminalCompletionService)
    (extensionIdentifier id : string) : option loc :=
  OMap.get extensionIdentifier (_providers this) ≫= OMap.get id.

(** The two writes of registration to the provider object. *)
Definition stamp (id : string) (triggerCharacters : list string)
    (p : ITerminalCompletionProvider) : ITerminalCompletionProvider :=
  mkProvider id (shellTypes p) (provider_provideCompletions p)
    (Some triggerCharacters) (isBuiltin p).

(** The function handed to [toDisposable] closes over the two keys. *)
Record IDisposable : Type := toDisposable {
  disposable_extensionIdentifier : string;
  disposable_id : string
}.

(** [registerTerminalCompletionProvider] *)
Definition registerTerminalCompletionProvider (this : TerminalCompletionService)
    (extensionIdentifier id : string) (provider : loc)
    (triggerCharacters : list string)
    : TerminalCompletionService * IDisposable :=
  let extMap :=
    match OMap.get extensionIdentifier (_providers this) with
    | Some extMap => extMap
    | None => OMap.empty
    end in
  let heap' := alter (stamp id triggerCharacters) provider (heap this) in
  let extMap := OMap.set id provider extMap in
  (mkService heap' (OMap.set extensionIdentifier extMap (_providers this)),
   toDisposable extensionIdentifier id).

(** Running the function of the handle. (A handle of [toDisposable] runs
    its function on the first [dispose] only.) *)
Definition dispose (d : IDisposable) (this : TerminalCompletionService)
    : TerminalCompletionService :=
  let extensionIdentifier := disposable_extensionIdentifier d in
  let id := disposable_id d in
  match OMap.get extensionIdentifier (_providers this) with
  | Some extMap =>
      let extMap := OMap.delete id extMap in
      if (OMap.size extMap =? 0)%nat
      then mkService (heap this) (OMap.delete extensionIdentifier (_providers this))
      else mkService (heap this) (OMap.set extensionIdentifier extMap (_providers this))
  | None => this
  end.

(** *** Aggregation *)

Section ProvideCompletions.

Variable promptValue : string.
Variable cursorPosition : Z.
Variable shellType : TerminalShellType.
Variable capabilities : ITerminalCapabilityStore.

(** The loop over [provider.triggerCharacters]: [true] when the provider
    is pushed, at the first character the text before the cursor ends
    with. *)
Fixpoint triggerLoop (triggerCharacters : list string) : bool :=
  match triggerCharacters with
  | [] => false
  | char :: rest =>
      if JS.endsWith (JS.substring promptValue 0 cursorPosition) char
      then true
      else triggerLoop rest
  end.

(** The loop over [this.providers] of a trigger-character request. *)
Fixpoint providersToRequest (providers : list ITerminalCompletionProvider)
    : list ITerminalCompletionProvider :=
  match providers with
  | [] => []
  | provider :: rest =>
      match triggerCharacters provider with
      | None => providersToRequest rest
      | Some chars =>
          if triggerLoop chars
          then provider :: providersToRequest rest
          else providersToRequest rest
      end
  end.

(** The filter of the provider configuration:
    [providerId && providerId in providerConfig
     && providerConfig[providerId] !== false].
    [in] holds of the keys of the configuration object and of the names it
    inherits; what is read under an inherited name is not [false]. *)
Definition enabledInConfig (providerConfig : gmap string bool)
    (p : ITerminalCompletionProvider) : bool :=
  let providerId := id p in
  JS.truthy providerId
  && JS.has_in providerId providerConfig
  && negb (bool_decide (providerConfig !! providerId = Some false)).

(** [provider.shellTypes && !provider.shellTypes.includes(shellType)] *)
Definition shellTypeExcluded (p : ITerminalCompletionProvider) : bool :=
  match shellTypes p with
  | Some ts => negb (bool_decide (shellType ∈ ts))
  | None => false
  end.

(** [completion.isFileOverride ??= ...] *)
Definition markFileOverride (completion : ITerminalCompletion)
    : ITerminalCompletion :=
  match isFileOverride completion with
  | Some _ => completion
  | None =>
      mkCompletion (label completion) (provider completion)
        (kind completion) (detail completion)
        (replacementIndex completion) (replacementLength completion)
        (Some (match kind completion with
               | Some k => kind_eqb k Method
               | None => false
               end && (replacementIndex completion =? 0)))
  end.

(** [item.provider = provider.id] *)
Definition setProvider (providerId : string) (item : ITerminalCompletion)
    : ITerminalCompletion :=
  mkCompletion (label item) providerId (kind item) (detail item)
    (replacementIndex item) (replacementLength item) (isFileOverride item).

(** The items of a provider after the two loops that write to them. The
    items are values here: the writes are those made to the items of this
    answer, as they read when no other answer holds the same item objects. *)
Definition ownItems (p : ITerminalCompletionProvider)
    (completions : Completions) : list ITerminalCompletion :=
  let completionItems :=
    match completions with
    | ItemArray items => items
    | CompletionList items _ => default [] items
    end in
  let completionItems :=
    if bool_decide (shellType = PowerShell)
    then List.map markFileOverride completionItems
    else completionItems in
  if isBuiltin p
  then List.map (setProvider (id p)) completionItems
  else completionItems.

(** A callback of [providers.map] runs up to its first [await] when it
    is called: it has returned, or it has called the provider. *)
Inductive started : Type :=
| Returned
| Awaiting (completions : outcome (option Completions)).

Definition start (p : ITerminalCompletionProvider) : M started :=
  if shellTypeExcluded p then ret Returned
  else
    completions <- invoke p promptValue cursorPosition ;;
    ret (Awaiting completions).

(** The rest of the callback, from the settling of the provider's
    promise. *)
Definition resume (p : ITerminalCompletionProvider) (s : started)
    : M (option (list ITerminalCompletion)) :=
  match s with
  | Returned => ret None
  | Awaiting completions =>
      completions <- settle completions ;;
      match completions with
      | None => ret None
      | Some completions =>
          let completionItems := ownItems p completions in
          match completions with
          | ItemArray _ => ret (Some completionItems)
          | CompletionList _ (Some resourceRequestConfig) =>
              resourceCompletions <-
                resolveResources resourceRequestConfig promptValue
                  cursorPosition (id p) capabilities ;;
              ret (Some (completionItems ++ default [] resourceCompletions))
          | CompletionList _ None => ret None
          end
      end
  end.

(** Calling every callback in turn; none of them throws before its
    first [await]. *)
Fixpoint startAll (providers : list ITerminalCompletionProvider)
    : M (list (ITerminalCompletionProvider * started)) :=
  match providers with
  | [] => ret []
  | p :: rest =>
      s <- start p ;;
      ss <- startAll rest ;;
      ret ((p, s) :: ss)
  end.

(** Letting every promise settle. A promise comes with the instant at
    which it settles. A rejection does not stop the other callbacks: each
    one runs to its end. The trace lists what each callback does as one
    run, the callbacks in the order of the array. *)
Fixpoint settleAll {A} (promises : list (nat * M A)) (tr : list event)
    : list (nat * outcome A) * list event :=
  match promises with
  | [] => ([], tr)
  | (instant, m) :: rest =>
      let '(o, tr') := m tr in
      let '(os, tr'') := settleAll rest tr' in
      ((instant, o) :: os, tr'')
  end.

(** The rejection that comes first among settled promises: the one at the
    earliest instant and, of those rejected at that instant, the one that
    stands first in the array. *)
Fixpoint firstRejection {A} (settled : list (nat * outcome A))
    : option (nat * Error) :=
  match settled with
  | [] => None
  | (_, Fulfilled _) :: rest => firstRejection rest
  | (instant, Rejected e) :: rest =>
      match firstRejection rest with
      | Some (instant', e') =>
          if (instant' <? instant)%nat then Some (instant', e')
          else Some (instant, e)
      | None => Some (instant, e)
      end
  end.

(** The values of the fulfilled promises, in the order of the array. *)
Definition fulfilledValues {A} (settled : list (nat * outcome A)) : list A :=
  omap (λ s : nat * outcome A,
          match s.2 with
          | Fulfilled a => Some a
          | Rejected _ => None
          end) settled.

(** What [Promise.all] settles with: the error of the first promise to be
    rejected, when one is; the values in the order of the array
    otherwise. *)
Definition allSettled {A} (settled : list (nat * outcome A)) : outcome (list A) :=
  match firstRejection settled with
  | Some (_, e) => Rejected e
  | None => Fulfilled (fulfilledValues settled)
  end.

Definition Promise_all {A} (promises : list (nat * M A)) : M (list A) :=
  λ tr, let '(os, tr') := settleAll promises tr in (allSettled os, tr').

(** [_collectCompletions] *)
Definition _collectCompletions (providers : list ITerminalCompletionProvider)
    : M (option (list ITerminalCompletion)) :=
  completionPromises <- startAll providers ;;
  results <- Promise_all
               (List.map (λ ps, (settledAt ps.1, resume ps.1 ps.2))
                  completionPromises) ;;
  ret (Some (concat (omap (λ result, result) results))).

(** The providers a request starts from. *)
Definition requestedProviders (this : TerminalCompletionService)
    (triggerCharacter : bool) : list ITerminalCompletionProvider :=
  if triggerCharacter then providersToRequest (providers this)
  else providers this.

(** [provideCompletions] *)
Definition provideCompletions (this : TerminalCompletionService)
    (triggerCharacter skipExtensionCompletions : bool)
    : M (option (list ITerminalCompletion)) :=
  if cursorPosition <? 0 then ret None
  else
    let providers := requestedProviders this triggerCharacter in
    if skipExtensionCompletions then
      let providers := List.filter isBuiltin providers in
      _collectCompletions providers
    else
      let providerConfig := Providers _configurationService in
      let providers := List.filter (enabledInConfig providerConfig) providers in
      if (List.length providers =? 0)%nat then ret None
      else _collectCompletions providers.

End ProvideCompletions.

End Service.

(** ** Vocabulary of the properties *)

(** A string holds a character when it splits around it. *)
Definition holds (c : ascii) (s : string) : Prop :=
  ∃ before after, s = before +:+ String c after.

(** The current word as the specification words it, with the whitespace
    characters of [Ascii.is_space] (tab, line feed, vertical tab, form feed,
    carriage return, space): [word] holds no whitespace, [text] is [word] or
    ends with a whitespace character followed by [word], and [word] is
    empty when [text] ends with a whitespace character. *)
Definition isWordAfterLastWhitespace (text word : string) : Prop :=
  (∀ c, Ascii.is_space c = true → ¬ holds c word)
  ∧ (text = word
     ∨ ∃ before c, Ascii.is_space c = true ∧ text = before +:+ String c word)
  ∧ ((∃ before c, Ascii.is_space c = true ∧ text = before +:+ JS.str c) →
     word = EmptyString).

Section Vocabulary.

Context `{Platform} `{!Services}.

Implicit Types (cfg : TerminalResourceRequestConfig) (prompt pid : string)
  (cursor : Z) (caps : ITerminalCapabilityStore) (tr : list event)
  (shell : TerminalShellType)
  (p : ITerminalCompletionProvider) (ps : list ITerminalCompletionProvider)
  (this : TerminalCompletionService).

(** The replacement span that path resolution gives to its items. *)
Definition hasWordSpan cfg prompt cursor (it : ITerminalCompletion) : Prop :=
  replacementIndex it = cursor - JS.length (lastWord cfg prompt cursor)
  ∧ replacementLength it = JS.length (lastWord cfg prompt cursor).

(** What a CDPATH entry adds: the folders below it, and nothing when its
    lookup is rejected. *)
Definition cdPathEntryContribution cfg prompt cursor pid (config cdPathEntry : string)
    : list ITerminalCompletion :=
  match _fileService_resolve (URI_file cdPathEntry) with
  | Fulfilled fileStat => cdPathEntryCompletions cfg prompt cursor pid config fileStat
  | Rejected _ => []
  end.

(** The guard of [resolveResources]: a working directory, and files or
    folders asked for. *)
Definition resourcesRequested cfg : bool :=
  default false (foldersRequested cfg) || default false (filesRequested cfg).

(** The environment variable that names the home directory. *)
Definition homeVariable (useWindowsStylePath : bool) : string :=
  if useWindowsStylePath then "USERPROFILE" else "HOME".

(** The home directory cannot be read: there is no environment, or the
    variable is not set in it, or it is set to the empty string. *)
Definition homeUnreadable caps (useWindowsStylePath : bool) : Prop :=
  match capabilities_env caps with
  | None => True
  | Some env =>
      env !! homeVariable useWindowsStylePath = None
      ∨ env !! homeVariable useWindowsStylePath = Some EmptyString
  end.

(** Where a callback stands after it has been called. *)
Definition startedOf prompt cursor shell p : started :=
  if shellTypeExcluded shell p then Returned
  else Awaiting (provider_provideCompletions p prompt cursor).

(** The calls to providers that [_collectCompletions] makes. *)
Definition invocations prompt cursor shell ps : list event :=
  flat_map (λ p, if shellTypeExcluded shell p then []
                 else [Invoke (id p) prompt cursor]) ps.

(** A callback of [_collectCompletions] as a whole. *)
Definition callback prompt cursor shell caps p : M (option (list ITerminalCompletion)) :=
  resume prompt cursor shell caps p (startedOf prompt cursor shell p).

(** The providers handed to [_collectCompletions]. *)
Definition selectedProviders prompt cursor this (triggerCharacter skipExtensionCompletions : bool)
    : list ITerminalCompletionProvider :=
  if skipExtensionCompletions
  then List.filter isBuiltin (requestedProviders prompt cursor this triggerCharacter)
  else List.filter (enabledInConfig (Providers _configurationService))
         (requestedProviders prompt cursor this triggerCharacter).

(** The invariant of a JavaScript [Map] at both levels of the registry:
    each key is held once. *)
Definition wellFormed this : Prop :=
  List.NoDup (OMap.keys (_providers this))
  ∧ ∀ ext bucket, In (ext, bucket) (_providers this) → List.NoDup (OMap.keys bucket).

(** The CDPATH entries that [resolveResources] looks up: those of the
    CDPATH variable when the last word is relative, folders are asked for,
    the prompt starts with [cd ] and the setting is [absolute] or
    [relative]; none otherwise. *)
Definition cdPathEntriesOf cfg prompt cursor caps : list string :=
  if PathType_eqb (type cfg prompt cursor) relative
     && default false (foldersRequested cfg)
     && JS.startsWith (promptValue cfg prompt) "cd "
     && (String.eqb (CdPath _configurationService) "absolute"
         || String.eqb (CdPath _configurationService) "relative")
  then match capabilities_env caps ≫= (λ env, env !! "CDPATH") with
       | Some cdPath =>
           if JS.truthy cdPath
           then JS.split (if useWindowsStylePath cfg then JS.semicolon else JS.colon)
                  cdPath
           else []
       | None => []
       end
  else [].

(** What [resolveResources] returns once the folder of the last word has
    been listed: the folder itself, its children, the folders of the
    CDPATH entries, the parent directory. *)
Definition listing cfg prompt cursor pid caps (workingDirectory folder : URI)
    (cs : list IFileStat) : list ITerminalCompletion :=
  (if default false (foldersRequested cfg)
   then [currentFolderCompletion cfg prompt cursor pid folder] else [])
  ++ omap (childCompletion cfg prompt cursor pid
             (default false (foldersRequested cfg))
             (default false (filesRequested cfg))) cs
  ++ flat_map (cdPathEntryContribution cfg prompt cursor pid
                 (CdPath _configurationService))
       (cdPathEntriesOf cfg prompt cursor caps)
  ++ (if PathType_eqb (type cfg prompt cursor) relative
         && default false (foldersRequested cfg)
      then [parentCompletion cfg prompt cursor pid workingDirectory] else []).

(** The lookups of such a listing. *)
Definition listingLookups cfg prompt cursor caps (folder : URI) : list event :=
  Resolve folder
  :: List.map (λ cdPathEntry, Resolve (URI_file cdPathEntry))
       (cdPathEntriesOf cfg prompt cursor caps).

(** An event of the file service. *)
Definition isLookup (ev : event) : Prop :=
  match ev with
  | Resolve _ => True
  | Invoke _ _ _ => False
  end.

(** What the callback of a provider settles with, and the lookups it
    makes, read on a run from the empty trace. *)
Definition contribution prompt cursor shell caps p
    : outcome (option (list ITerminalCompletion)) :=
  (callback prompt cursor shell caps p []).1.

Definition lookupsOf prompt cursor shell caps p : list event :=
  (callback prompt cursor shell caps p []).2.

(** The items of a settled callback: none when it is rejected or fulfilled
    with [undefined]. *)
Definition itemsOf (o : outcome (option (list ITerminalCompletion)))
    : list ITerminalCompletion :=
  match o with
  | Fulfilled (Some completionItems) => completionItems
  | _ => []
  end.

(** A callback with the instant at which it settles. *)
Definition settledCallback prompt cursor shell caps p
    : nat * outcome (option (list ITerminalCompletion)) :=
  (settledAt p, contribution prompt cursor shell caps p).

(** The callback of [q] is rejected with [e], and is the first to be
    rejected among the callbacks of [ps]: none is rejected at an earlier
    instant. *)
Definition rejectedFirst prompt cursor shell caps ps q (e : Error) : Prop :=
  In q ps
  ∧ contribution prompt cursor shell caps q = Rejected e
  ∧ ∀ q' e', In q' ps →
             contribution prompt cursor shell caps q' = Rejected e' →
             (settledAt q ≤ settledAt q')%nat.

(** What [_collectCompletions] makes of the settled callbacks. *)
Definition gathered (os : list (nat * outcome (option (list ITerminalCompletion))))
    : outcome (option (list ITerminalCompletion)) :=
  match allSettled os with
  | Fulfilled results => Fulfilled (Some (concat (omap (λ result, result) results)))
  | Rejected e => Rejected e
  end.

(** No namespace of the registry holds an empty bucket. *)
Definition noEmptyBucket this : Prop :=
  ∀ ext bucket, In (ext, bucket) (_providers this) → bucket ≠ [].

(** The registries that come from an empty one by registrations, by runs
    of handles, and by whatever else is done to the provider objects. *)
Inductive reachable : TerminalCompletionService → Prop :=
| reachable_new (objects : gmap loc ITerminalCompletionProvider) :
    reachable (mkService objects OMap.empty)
| reachable_register this ext providerId r chars :
    reachable this →
    reachable (registerTerminalCompletionProvider this ext providerId r chars).1
| reachable_dispose this d :
    reachable this → reachable (dispose d this)
| reachable_objects this (objects : gmap loc ITerminalCompletionProvider) :
    reachable this → reachable (mkService objects (_providers this)).

End Vocabulary.

(** ** A concrete platform, file system and registry

    Resources are their paths, errors are messages, and the file system is a
    fixed tree:
    [/home/u] holds the folder [src] and the file [a.txt],
    [/opt] holds the folder [tools], [/locked] cannot be read, and nothing
    else exists. *)

Module Example.

Inductive shell : Type := bash | pwsh.

#[local] Instance shell_eq_dec : EqDecision shell.
Proof. solve_decision. Defined.

Definition joinPath (uri path : string) : string :=
  if JS.endsWith uri "/" || JS.startsWith path "/" then uri +:+ path
  else uri +:+ "/" +:+ path.

Definition platform : Platform := {|
  URI := string;
  URI_file := λ path, path;
  URI_joinPath := joinPath;
  fsPath := λ uri, uri;
  basename := λ path, JS.slice_from path (JS.lastIndexOf path "/" + 1);
  TerminalShellType := shell;
  PowerShell := pwsh;
  Error := string
|}.

#[local] Existing Instance platform.

Definition folder (path name : string) : IFileStat :=
  mkFileStat path name false true None.

Definition file (path name : string) : IFileStat :=
  mkFileStat path name true false None.

Definition resolve (uri : string) : outcome (option IFileStat) :=
  if String.eqb uri "/home/u" then
    Fulfilled (Some (mkFileStat uri "u" false true
      (Some [folder "/home/u/src" "src"; file "/home/u/a.txt" "a.txt"])))
  else if String.eqb uri "/opt" then
    Fulfilled (Some (mkFileStat uri "opt" false true
      (Some [folder "/opt/tools" "tools"])))
  else if String.eqb uri "/locked" then Rejected "EACCES"
  else Rejected "ENOENT".

(** The callback of a provider with the id [c] settles after those of the
    other providers. *)
Definition slowC (p : ITerminalCompletionProvider) : nat :=
  if String.eqb (id p) "c" then 2%nat else 1%nat.

(** Providers [a] and [c] are enabled, [b] is disabled, and CDPATH items
    are labelled with their paths. *)
Definition services : Services := {|
  _configurationService :=
    mkConfiguration {[ "a" := true; "b" := false; "c" := true ]} "absolute";
  _fileService_resolve := resolve;
  settledAt := slowC
|}.

#[local] Existing Instance services.

(** A request for folders, on the slash as separator. *)
Definition foldersIn (cwd : option string) : TerminalResourceRequestConfig :=
  mkResourceRequestConfig None (Some true) cwd "/" None.

(** Capabilities with no environment, and with a CDPATH of three entries,
    the second of which cannot be read. *)
Definition noEnv : ITerminalCapabilityStore := mkCapabilities None.

Definition withCdPath : ITerminalCapabilityStore :=
  mkCapabilities (Some (mkShellEnv (Some {[ "CDPATH" := "/opt:/locked:/home/u" ]}))).

Definition item (label : string) : ITerminalCompletion :=
  mkCompletion label "" (Some Method) None 0 0 None.

(** A provider object that settles with [answer] whatever it is asked. *)
Definition answering (providerId : string) (builtin : bool) (chars : list string)
    (answer : outcome (option Completions)) : ITerminalCompletionProvider :=
  mkProvider providerId None (λ _ _, answer) (Some chars) builtin.

Definition ls : ITerminalCompletionProvider :=
  answering "a" true ["/"] (Fulfilled (Some (ItemArray [item "ls"]))).

Definition failing : ITerminalCompletionProvider :=
  answering "c" false [] (Rejected "boom").

(** [hasty] is rejected as [failing] is, with an error of its own. *)
Definition hasty : ITerminalCompletionProvider :=
  answering "a" false [] (Rejected "early").

(** A provider whose id is a name that every object inherits, and which
    is no key of the provider configuration. *)
Definition inheritedName : ITerminalCompletionProvider :=
  answering "constructor" false [] (Fulfilled (Some (ItemArray [item "ls"]))).

Definition disabled : ITerminalCompletionProvider :=
  answering "b" false [] (Fulfilled (Some (ItemArray [item "no"]))).

Definition unlisted : ITerminalCompletionProvider :=
  answering "d" false [] (Fulfilled (Some (ItemArray [item "no"]))).

(** [gitIn cwd] answers with one item and a request for the folders of
    [cwd]. *)
Definition gitIn (cwd : option string) : ITerminalCompletionProvider :=
  answering "c" false []
    (Fulfilled (Some (CompletionList (Some [item "git"]) (Some (foldersIn cwd))))).

(** A heap of two provider objects, none of them registered. *)
Definition twoObjects (p q : ITerminalCompletionProvider) : TerminalCompletionService :=
  mkService {[ 1%positive := p; 2%positive := q ]} OMap.empty.

(** The two objects registered in the namespace [ext], under the ids and
    trigger characters they carry. *)
Definition registryOf (p q : ITerminalCompletionProvider) : TerminalCompletionService :=
  let this := twoObjects p q in
  let this :=
    (registerTerminalCompletionProvider this "ext" (id p) 1%positive
       (default [] (triggerCharacters p))).1 in
  (registerTerminalCompletionProvider this "ext" (id q) 2%positive
     (default [] (triggerCharacters q))).1.

(** One object registered under two ids. *)
Definition registeredTwice : TerminalCompletionService :=
  let this := twoObjects ls failing in
  let this := (registerTerminalCompletionProvider this "ext" "a" 1%positive []).1 in
  (registerTerminalCompletionProvider this "ext" "b" 1%positive []).1.

(** A prompt that ends with a tab. *)
Definition promptWithTab : string := "cd" +:+ JS.str JS.tab.

(** A request for folders on the backslash as separator. *)
Definition windowsFoldersIn (cwd : option string) : TerminalResourceRequestConfig :=
  mkResourceRequestConfig None (Some true) cwd (JS.str JS.backslash) None.

(** A request for files only. *)
Definition filesIn (cwd : option string) : TerminalResourceRequestConfig :=
  mkResourceRequestConfig (Some true) None cwd "/" None.

(** Capabilities whose environment sets the home directory. *)
Definition withHome : ITerminalCapabilityStore :=
  mkCapabilities (Some (mkShellEnv (Some {[ "HOME" := "/home/u" ]}))).

(** A file service that takes the path of a folder with or without a slash
    at its end. *)
Definition resolveFolder (uri : string) : outcome (option IFileStat) :=
  resolve (if JS.endsWith uri "/" then JS.slice uri 0 (-1) else uri).

Definition lenient : Services := {|
  _configurationService :=
    mkConfiguration {[ "a" := true; "b" := false; "c" := true ]} "absolute";
  _fileService_resolve := resolveFolder;
  settledAt := slowC
|}.

(** [bare] answers with a list that carries an item and no resource
    request. *)
Definition bare : ITerminalCompletionProvider :=
  answering "c" false [] (Fulfilled (Some (CompletionList (Some [item "git"]) None))).

End Example.

(** * Properties *)

(** ** Strings *)

Lemma JS_app_cons (c : ascii) (s t : string) :
  String c s +:+ t = String c (s +:+ t).
Proof. reflexivity. Qed.

Lemma JS_app_nil (t : string) : EmptyString +:+ t = t.
Proof. reflexivity. Qed.

Lemma JS_take_drop (n : nat) (s : string) : JS.take n s +:+ JS.drop n s = s.
Proof.
  revert s; induction n as [|n IH]; intros [|c s]; simpl; try reflexivity.
  rewrite JS_app_cons. f_equal; apply IH.
Qed.

Lemma JS_length_app (s t : string) :
  String.length (s +:+ t) = (String.length s + String.length t)%nat.
Proof.
  induction s as [|c s IH]; [reflexivity|].
  rewrite JS_app_cons. simpl. now rewrite IH.
Qed.

Lemma JS_drop_app (s t : string) : JS.drop (String.length s) (s +:+ t) = t.
Proof.
  induction s as [|c s IH]; [now destruct t|].
  rewrite JS_app_cons. exact IH.
Qed.

Lemma JS_take_all (n m : nat) (t : string) :
  (String.length t ≤ n)%nat → (String.length t ≤ m)%nat → JS.take n t = JS.take m t.
Proof.
  revert n m; induction t as [|a t IH]; intros [|n] [|m] Hn Hm;
    simpl in *; try reflexivity; try lia.
  f_equal; apply IH; lia.
Qed.

(** [endsWith] holds exactly of the suffixes. *)
Lemma JS_endsWith_iff (s t : string) :
  JS.endsWith s t = true ↔ ∃ pre, s = pre +:+ t.
Proof.
  unfold JS.endsWith. split.
  - destruct (Nat.leb_spec (String.length t) (String.length s)) as [Hle|Hlt];
      [|discriminate].
    intros Heq%String.eqb_eq.
    exists (JS.take (String.length s - String.length t) s).
    rewrite <- (JS_take_drop (String.length s - String.length t) s) at 1.
    now rewrite Heq.
  - intros [pre ->]. rewrite JS_length_app.
    destruct (Nat.leb_spec (String.length t) (String.length pre + String.length t))
      as [_|Hlt]; [|lia].
    replace (String.length pre + String.length t - String.length t)%nat
      with (String.length pre) by lia.
    rewrite JS_drop_app. apply String.eqb_refl.
Qed.

(** [substring(0, cursor)] keeps the first [cursor] code units, none when
    the cursor is negative and all when it is past the end. *)
Lemma JS_substring_0 (s : string) (c : Z) :
  JS.substring s 0 c = JS.take (Z.to_nat c) s.
Proof.
  unfold JS.substring, JS.clamp, JS.length.
  set (len := Z.of_nat (String.length s)).
  assert (Hlen : 0 ≤ len) by (unfold len; lia).
  replace (Z.max 0 (Z.min 0 len)) with 0 by lia.
  replace (Z.min 0 (Z.max 0 (Z.min c len))) with 0 by lia.
  replace (Z.max 0 (Z.max 0 (Z.min c len)) - 0) with (Z.max 0 (Z.min c len)) by lia.
  simpl Z.to_nat. change (JS.drop 0 s) with s.
  destruct (Z.le_gt_cases c len) as [Hle|Hgt].
  - f_equal. lia.
  - apply JS_take_all; unfold len in *; lia.
Qed.

Lemma holds_cons (c a : ascii) (s : string) :
  holds c (String a s) ↔ a = c ∨ holds c s.
Proof.
  split.
  - intros (before & after & Heq). destruct before as [|b before].
    + left. rewrite JS_app_nil in Heq. now inversion Heq.
    + right. rewrite JS_app_cons in Heq. inversion Heq; subst.
      now exists before, after.
  - intros [->|(before & after & ->)].
    + now exists EmptyString, s.
    + now exists (String a before), after.
Qed.

Lemma holds_empty (c : ascii) : ¬ holds c EmptyString.
Proof. intros (before & after & Heq). destruct before; discriminate. Qed.

(** The pieces of a split: the last one holds no separator; the string is
    that piece when there is one piece, and ends with a separator followed
    by that piece when there are more. *)
Lemma JS_split_shape (sep : ascii) (s : string) :
  ∃ x xs w, JS.split sep s = x :: xs
            ∧ last (x :: xs) = Some w
            ∧ ¬ holds sep w
            ∧ ((xs = [] ∧ s = w) ∨ (xs ≠ [] ∧ ∃ before, s = before +:+ String sep w)).
Proof.
  induction s as [|a s (x & xs & w & Hsplit & Hlast & Hfree & Hshape)]; simpl.
  - exists EmptyString, [], EmptyString. repeat split; auto using holds_empty.
  - rewrite Hsplit. destruct (Ascii.eqb_spec a sep) as [->|Hne].
    + exists EmptyString, (x :: xs), w. repeat split; auto.
      right. split; [discriminate|].
      destruct Hshape as [[_ ->]|[_ (before & ->)]].
      * now exists EmptyString.
      * now exists (String sep before).
    + destruct Hshape as [[-> ->]|[Hxs (before & ->)]].
      * simpl in Hlast. injection Hlast as ->.
        exists (String a w), [], (String a w). repeat split; auto.
        rewrite holds_cons. intros [Heq|Hin]; [now apply Hne | now apply Hfree].
      * exists (String a x), xs, w. repeat split; auto.
        -- destruct xs; [congruence | exact Hlast].
        -- right. split; [exact Hxs|]. now exists (String a before).
Qed.

(** The last word of a text holds no space; the text is that word, or ends
    with a space followed by that word. *)
Lemma lastWordOf_shape (cursorPrefix : string) :
  ¬ holds JS.space (lastWordOf cursorPrefix)
  ∧ (cursorPrefix = lastWordOf cursorPrefix
     ∨ ∃ before, cursorPrefix = before +:+ String JS.space (lastWordOf cursorPrefix)).
Proof.
  unfold lastWordOf.
  destruct (JS.endsWith cursorPrefix (JS.str JS.space)) eqn:Hends.
  - split; [apply holds_empty|]. right.
    apply JS_endsWith_iff in Hends as [pre ->]. now exists pre.
  - destruct (JS_split_shape JS.space cursorPrefix)
      as (x & xs & w & Hsplit & Hlast & Hfree & Hshape).
    unfold JS.at_last. rewrite Hsplit, Hlast. simpl.
    split; [exact Hfree|].
    destruct Hshape as [[_ ->]|[_ Hbefore]]; [now left | now right].
Qed.

(** A text has one end of this kind. *)
Lemma space_free_tail_unique (text w w' : string) :
  ¬ holds JS.space w → ¬ holds JS.space w' →
  (text = w ∨ ∃ before, text = before +:+ String JS.space w) →
  (text = w' ∨ ∃ before, text = before +:+ String JS.space w') →
  w = w'.
Proof.
  intros Hw Hw' [->|[b ->]] [Heq|[b' Heq]].
  - exact Heq.
  - exfalso. apply Hw. now exists b', w'.
  - exfalso. apply Hw'. rewrite <- Heq. now exists b, w.
  - revert b' Heq. induction b as [|c b IH]; intros [|c' b'] Heq.
    + rewrite !JS_app_nil in Heq. now injection Heq.
    + rewrite JS_app_nil, JS_app_cons in Heq. injection Heq as _ Heq.
      exfalso. apply Hw. now exists b', w'.
    + rewrite JS_app_nil, JS_app_cons in Heq. injection Heq as _ Heq.
      exfalso. apply Hw'. rewrite <- Heq. now exists b, w.
    + rewrite !JS_app_cons in Heq. injection Heq as _ Heq. now apply (IH b').
Qed.

(** ** Path resolution *)

Section PathResolutionProperties.

Context `{Platform} `{!Services}.

Implicit Types (cfg : TerminalResourceRequestConfig) (prompt pid : string)
  (cursor : Z) (caps : ITerminalCapabilityStore) (tr : list event).

Lemma resourceCompletion_span cfg prompt cursor pid label kind detail :
  hasWordSpan cfg prompt cursor
    (resourceCompletion cfg prompt cursor pid label kind detail).
Proof. split; reflexivity. Qed.

Lemma childCompletion_span cfg prompt cursor pid folders files child it :
  childCompletion cfg prompt cursor pid folders files child = Some it →
  hasWordSpan cfg prompt cursor it.
Proof.
  unfold childCompletion.
  destruct (if folders && isDirectory child then Some Folder
            else if files && isFile child then Some File else None);
    [|discriminate].
  intros [= <-]. apply resourceCompletion_span.
Qed.

Lemma cdPathChildCompletion_span cfg prompt cursor pid config child it :
  cdPathChildCompletion cfg prompt cursor pid config child = Some it →
  hasWordSpan cfg prompt cursor it.
Proof.
  unfold cdPathChildCompletion. destruct (negb (isDirectory child)); [discriminate|].
  intros [= <-]. apply resourceCompletion_span.
Qed.

Lemma Forall_omap_span {A} (f : A → option ITerminalCompletion) (P : ITerminalCompletion → Prop)
    (l : list A) :
  (∀ a it, f a = Some it → P it) → Forall P (omap f l).
Proof.
  intros Hf. induction l as [|a l IH]; simpl; [constructor|].
  destruct (f a) eqn:Hfa; simpl; [constructor; eauto | exact IH].
Qed.

Lemma cdPathEntryCompletions_span cfg prompt cursor pid config fileStat :
  Forall (hasWordSpan cfg prompt cursor)
    (cdPathEntryCompletions cfg prompt cursor pid config fileStat).
Proof.
  unfold cdPathEntryCompletions. destruct fileStat as [st|]; [|constructor].
  destruct (children st); [|constructor].
  apply Forall_omap_span. intros a it. apply cdPathChildCompletion_span.
Qed.

(** The CDPATH loop never rejects: it looks every entry up, in order, and
    appends what each one adds. *)
Lemma cdPathLoop_total cfg prompt cursor pid config cdPathEntries acc tr :
  cdPathLoop cfg prompt cursor pid config cdPathEntries acc tr
  = (Fulfilled
       (acc ++ flat_map (cdPathEntryContribution cfg prompt cursor pid config) cdPathEntries),
     tr ++ List.map (λ cdPathEntry, Resolve (URI_file cdPathEntry)) cdPathEntries).
Proof.
  revert acc tr. induction cdPathEntries as [|e rest IH]; intros acc tr; simpl.
  - now rewrite !app_nil_r.
  - unfold bind at 1, try_catch, bind, fileService_resolve, cdPathEntryContribution.
    destruct (_fileService_resolve (URI_file e)) as [fileStat|err]; simpl;
      rewrite IH; simpl; now rewrite <- !app_assoc.
Qed.

Lemma cdPathCompletions_total cfg prompt cursor pid caps folders acc tr :
  ∃ added tr',
    cdPathCompletions cfg prompt cursor pid caps folders acc tr
    = (Fulfilled (acc ++ added), tr')
    ∧ Forall (hasWordSpan cfg prompt cursor) added.
Proof.
  unfold cdPathCompletions.
  assert (Hsame : ∃ added tr',
             ret acc tr = (Fulfilled (acc ++ added), tr')
             ∧ Forall (hasWordSpan cfg prompt cursor) added).
  { exists [], tr. rewrite app_nil_r. split; [reflexivity | constructor]. }
  repeat match goal with
         | |- context [if ?b then _ else _] => destruct b; try exact Hsame
         | |- context [match ?o with Some _ => _ | None => _ end] =>
             destruct o; try exact Hsame
         end.
  all: rewrite cdPathLoop_total; eexists _, _; (split; [reflexivity|]).
  all: apply Forall_flat_map, Forall_forall; intros e _.
  all: unfold cdPathEntryContribution.
  all: destruct (_fileService_resolve (URI_file e)); [|constructor].
  all: apply cdPathEntryCompletions_span.
Qed.

(** Without a working directory, or with neither files nor folders asked
    for, [resolveResources] returns [undefined] and looks nothing up. *)
Lemma resolveResources_guard cfg prompt cursor pid caps tr :
  cwd cfg = None ∨ resourcesRequested cfg = false →
  resolveResources cfg prompt cursor pid caps tr = (Fulfilled None, tr).
Proof.
  unfold resolveResources, resourcesRequested. intros [->|Hnone]; [reflexivity|].
  destruct (cwd cfg); [|reflexivity].
  apply orb_false_elim in Hnone as [-> ->]. reflexivity.
Qed.

(** Past the guard, a rejected lookup of the folder of the last word
    rejects [resolveResources]. *)
Lemma resolveResources_lookup_rejected cfg prompt cursor pid caps tr workingDirectory folder e :
  cwd cfg = Some workingDirectory →
  resourcesRequested cfg = true →
  lastWordFolderResource cfg prompt cursor caps workingDirectory = Some (inl folder) →
  _fileService_resolve folder = Rejected e →
  resolveResources cfg prompt cursor pid caps tr = (Rejected e, tr ++ [Resolve folder]).
Proof.
  unfold resolveResources, resourcesRequested. intros -> Hreq -> Hrej.
  apply orb_true_iff in Hreq.
  destruct (default false (foldersRequested cfg)), (default false (filesRequested cfg));
    simpl; try (destruct Hreq; discriminate);
    unfold bind, fileService_resolve; now rewrite Hrej.
Qed.

(** Past the guard, a fulfilled lookup of the folder of the last word
    fulfils [resolveResources], whatever the lookups of the CDPATH entries
    settle with. *)
Lemma resolveResources_lookup_fulfilled cfg prompt cursor pid caps tr workingDirectory folder stat :
  cwd cfg = Some workingDirectory →
  lastWordFolderResource cfg prompt cursor caps workingDirectory = Some (inl folder) →
  _fileService_resolve folder = Fulfilled stat →
  ∃ result tr', resolveResources cfg prompt cursor pid caps tr = (Fulfilled result, tr').
Proof.
  unfold resolveResources. intros -> -> Hstat.
  destruct (negb (default false (foldersRequested cfg))
            && negb (default false (filesRequested cfg))); [now eauto|].
  unfold bind at 1, fileService_resolve. rewrite Hstat.
  destruct (stat ≫= children) as [cs|]; [|now eauto].
  match goal with
  | |- context [cdPathCompletions cfg prompt cursor pid caps ?f ?acc] =>
      destruct (cdPathCompletions_total cfg prompt cursor pid caps f acc
                  (tr ++ [Resolve folder])) as (added & tr'' & Hcd & _)
  end.
  unfold bind. rewrite Hcd. now eauto.
Qed.

(** The local [type] is [tilde] exactly when the folder of the last word
    starts with a tilde and a slash or backslash. *)
Lemma type_tilde_iff cfg prompt cursor :
  type cfg prompt cursor = tilde
  ↔ JS.matchTildePrefix (lastWordFolder cfg prompt cursor) = true.
Proof.
  unfold type, pathTypeOf. fold (lastWordFolder cfg prompt cursor).
  destruct (JS.matchTildePrefix (lastWordFolder cfg prompt cursor)).
  - split; reflexivity.
  - split; [|discriminate].
    now destruct (if useWindowsStylePath cfg then _ else _).
Qed.

Lemma homeResource_unreadable cfg prompt cursor caps :
  homeUnreadable caps (useWindowsStylePath cfg) →
  homeResource cfg prompt cursor caps = None.
Proof.
  unfold homeUnreadable, homeResource, homeVariable.
  destruct (capabilities_env caps) as [env|]; [|reflexivity].
  intros [->| ->]; reflexivity.
Qed.

(** Every item that [resolveResources] returns is built with the span of
    the last word: the placeholder of the tilde case, or the item of the
    folder itself, the items of the children, the CDPATH items and the item
    of the parent directory. *)
Lemma resolveResources_spans cfg prompt cursor pid caps tr items tr' :
  resolveResources cfg prompt cursor pid caps tr = (Fulfilled (Some items), tr') →
  Forall (hasWordSpan cfg prompt cursor) items.
Proof.
  unfold resolveResources.
  destruct (cwd cfg) as [workingDirectory|]; [|discriminate].
  destruct (negb (default false (foldersRequested cfg))
            && negb (default false (filesRequested cfg))); [discriminate|].
  destruct (lastWordFolderResource cfg prompt cursor caps workingDirectory)
    as [[folder|text]|]; [| |discriminate].
  - unfold bind at 1, fileService_resolve.
    destruct (_fileService_resolve folder) as [stat|e]; [|discriminate].
    destruct (stat ≫= children) as [cs|]; [|discriminate].
    set (before := (if default false (foldersRequested cfg)
                    then [currentFolderCompletion cfg prompt cursor pid folder]
                    else []) ++ _).
    assert (Hbefore : Forall (hasWordSpan cfg prompt cursor) before).
    { apply Forall_app. split.
      - destruct (default false (foldersRequested cfg)); repeat constructor.
      - apply Forall_omap_span. intros a it. apply childCompletion_span. }
    clearbody before.
    destruct (cdPathCompletions_total cfg prompt cursor pid caps
                (default false (foldersRequested cfg)) before (tr ++ [Resolve folder]))
      as (added & tr'' & Hcd & Hadded).
    unfold bind. rewrite Hcd.
    destruct (PathType_eqb (type cfg prompt cursor) relative
              && default false (foldersRequested cfg));
      intros [= <- _]; repeat (apply Forall_app; split); auto.
    repeat constructor.
  - intros [= <- _]. repeat constructor.
Qed.

(** C6, on a request that passes the guard. When the folder of the last
    word is classified as [tilde] and the home directory cannot be read
    from the environment, [resolveResources] returns exactly one item, of
    kind folder, labelled with the folder of the last word, with the fixed
    detail of the configuration, and the file service is not called. *)
Theorem tilde_without_home_is_placeholder cfg prompt cursor pid caps tr workingDirectory :
  cwd cfg = Some workingDirectory →
  resourcesRequested cfg = true →
  type cfg prompt cursor = tilde →
  homeUnreadable caps (useWindowsStylePath cfg) →
  ∃ placeholder,
    resolveResources cfg prompt cursor pid caps tr = (Fulfilled (Some [placeholder]), tr)
    ∧ kind placeholder = Some Folder
    ∧ label placeholder = lastWordFolder cfg prompt cursor
    ∧ detail placeholder
      = Some (if useWindowsStylePath cfg then "Home directory" else "$HOME").
Proof.
  intros Hcwd Hreq Htype Hhome.
  exists (placeholderCompletion cfg prompt cursor pid
            (if useWindowsStylePath cfg then "Home directory" else "$HOME")).
  split; [|repeat split].
  unfold resolveResources, resourcesRequested in *. rewrite Hcwd.
  apply orb_true_iff in Hreq.
  assert (Hguard : negb (default false (foldersRequested cfg))
                   && negb (default false (filesRequested cfg)) = false).
  { destruct Hreq as [-> | ->]; [reflexivity | apply andb_false_r]. }
  rewrite Hguard. unfold lastWordFolderResource.
  rewrite Htype, (homeResource_unreadable _ _ _ _ Hhome). reflexivity.
Qed.

(** C7, for the space character. The last word of path resolution holds no
    space; the text before the cursor is that word, or ends with a space
    followed by that word; and the word is empty when the text before the
    cursor ends with a space. The text before the cursor is taken from the
    prompt, after its separators are normalized on a configuration whose
    separator is the backslash. *)
Theorem lastWord_follows_last_space cfg prompt cursor :
  cursorPrefix cfg prompt cursor = JS.substring (promptValue cfg prompt) 0 cursor
  ∧ (useWindowsStylePath cfg = false → promptValue cfg prompt = prompt)
  ∧ ¬ holds JS.space (lastWord cfg prompt cursor)
  ∧ (cursorPrefix cfg prompt cursor = lastWord cfg prompt cursor
     ∨ ∃ before,
         cursorPrefix cfg prompt cursor
         = before +:+ String JS.space (lastWord cfg prompt cursor))
  ∧ ((∃ before, cursorPrefix cfg prompt cursor = before +:+ JS.str JS.space) →
     lastWord cfg prompt cursor = EmptyString).
Proof.
  split; [reflexivity|]. split.
  { unfold promptValue. now intros ->. }
  unfold lastWord.
  destruct (lastWordOf_shape (cursorPrefix cfg prompt cursor)) as [Hfree Hshape].
  split; [exact Hfree|]. split; [exact Hshape|].
  intros Hends%JS_endsWith_iff. unfold lastWordOf. now rewrite Hends.
Qed.

End PathResolutionProperties.

(** ** Aggregation *)

Section AggregationProperties.

Context `{Platform} `{!Services}.

Implicit Types (prompt : string) (cursor : Z) (shell : TerminalShellType)
  (caps : ITerminalCapabilityStore) (tr : list event)
  (p : ITerminalCompletionProvider) (ps : list ITerminalCompletionProvider)
  (this : TerminalCompletionService).

Lemma startAll_total prompt cursor shell ps tr :
  startAll prompt cursor shell ps tr
  = (Fulfilled (List.map (λ p, (p, startedOf prompt cursor shell p)) ps),
     tr ++ invocations prompt cursor shell ps).
Proof.
  revert tr. induction ps as [|p ps IH]; intros tr; simpl.
  - now rewrite app_nil_r.
  - unfold bind at 1, start, startedOf.
    destruct (shellTypeExcluded shell p); simpl.
    + unfold bind. now rewrite IH.
    + unfold bind. rewrite IH. simpl. now rewrite <- app_assoc.
Qed.

(** Every promise is run, whatever the others settle with, and keeps its
    instant. *)
Lemma settleAll_outcomes {A} (promises : list (nat * M A)) tr :
  Forall2 (λ m o, o.1 = m.1 ∧ ∃ tr_m, (m.2 tr_m).1 = o.2) promises
    (settleAll promises tr).1.
Proof.
  revert tr. induction promises as [|[instant m] rest IH]; intros tr; simpl;
    [constructor|].
  destruct (m tr) as [o tr1] eqn:Hm.
  specialize (IH tr1). destruct (settleAll rest tr1) as [os tr2]. simpl in *.
  constructor; [|exact IH]. split; [reflexivity|]. exists tr. simpl. now rewrite Hm.
Qed.

(** No promise is rejected first exactly when every promise is
    fulfilled. *)
Lemma firstRejection_None {A} (settled : list (nat * outcome A)) :
  firstRejection settled = None ↔ ∀ s, In s settled → ∃ a, s.2 = Fulfilled a.
Proof.
  induction settled as [|[instant [a|e]] rest IH]; simpl.
  - split; [intros _ s [] | reflexivity].
  - rewrite IH. split.
    + intros Hrest s [<-|Hin]; [now exists a | now apply Hrest].
    + intros Hall s Hin. apply Hall. now right.
  - split.
    + now destruct (firstRejection rest) as [[instant' e']|];
        [destruct (instant' <? instant)%nat|].
    + intros Hall. destruct (Hall (instant, Rejected e)) as [a Ha];
        [now left | discriminate].
Qed.

(** The promise that is rejected first is one of the promises, and none
    is rejected at an earlier instant. *)
Lemma firstRejection_least {A} (settled : list (nat * outcome A)) instant e :
  firstRejection settled = Some (instant, e) →
  In (instant, Rejected e) settled
  ∧ ∀ i e0, In (i, Rejected e0) settled → (instant ≤ i)%nat.
Proof.
  revert instant e.
  induction settled as [|[i0 [a|e0]] rest IH]; intros instant e; simpl.
  - discriminate.
  - intros Hrest. destruct (IH _ _ Hrest) as [Hin Hleast].
    split; [now right|]. intros i e1 [[=]|Hi]. now apply (Hleast i e1).
  - destruct (firstRejection rest) as [[i1 e1]|] eqn:Hrest.
    + destruct (IH _ _ eq_refl) as [Hin Hleast].
      destruct (Nat.ltb_spec i1 i0) as [Hlt|Hge]; intros [= <- <-].
      * split; [now right|].
        intros i e2 [[= <- <-]|Hi]; [lia | now apply (Hleast i e2)].
      * split; [now left|].
        intros i e2 [[= <- <-]|Hi]; [lia|]. pose proof (Hleast i e2 Hi). lia.
    + intros [= <- <-]. split; [now left|].
      intros i e2 [[= <- <-]|Hi]; [lia|].
      destruct (proj1 (firstRejection_None rest) Hrest _ Hi) as [a [=]].
Qed.

(** When a promise is rejected, one is rejected first. *)
Lemma firstRejection_Some {A} (settled : list (nat * outcome A)) instant e :
  In (instant, Rejected e) settled →
  ∃ instant' e',
    firstRejection settled = Some (instant', e')
    ∧ In (instant', Rejected e') settled
    ∧ ∀ i e0, In (i, Rejected e0) settled → (instant' ≤ i)%nat.
Proof.
  intros Hin. destruct (firstRejection settled) as [[instant' e']|] eqn:Hfirst.
  - exists instant', e'. split; [reflexivity|]. now apply firstRejection_least.
  - destruct (proj1 (firstRejection_None settled) Hfirst _ Hin) as [a [=]].
Qed.

(** Which promise is rejected first, of one promise and others, follows
    from which is among the others. *)
Lemma firstRejection_cons {A} (s : nat * outcome A) (rest rest' : list (nat * outcome A)) :
  firstRejection rest = firstRejection rest' →
  firstRejection (s :: rest) = firstRejection (s :: rest').
Proof. destruct s as [instant [a|e]]; simpl; now intros ->. Qed.

(** A promise that is fulfilled does not change which one is rejected
    first. *)
Lemma firstRejection_without {A} (settled1 settled2 : list (nat * outcome A)) instant a :
  firstRejection (settled1 ++ (instant, Fulfilled a) :: settled2)
  = firstRejection (settled1 ++ settled2).
Proof.
  induction settled1 as [|[i [a0|e]] settled1 IH]; simpl; [reflexivity|exact IH|].
  now rewrite IH.
Qed.

(** The items that are gathered from the fulfilled callbacks. *)
Lemma fulfilledValues_items (os : list (nat * outcome (option (list ITerminalCompletion)))) :
  concat (omap (λ result, result) (fulfilledValues os))
  = flat_map (λ s, itemsOf s.2) os.
Proof.
  unfold fulfilledValues.
  induction os as [|[instant [[completionItems|]|e]] os IH]; simpl; [reflexivity|..];
    first [exact IH | f_equal; exact IH].
Qed.

(** What is gathered: the error of the callback that is rejected first,
    or the items of the callbacks in the order of the array. *)
Lemma gathered_items (os : list (nat * outcome (option (list ITerminalCompletion)))) :
  gathered os
  = match firstRejection os with
    | Some (_, e) => Rejected e
    | None => Fulfilled (Some (flat_map (λ s, itemsOf s.2) os))
    end.
Proof.
  unfold gathered, allSettled.
  destruct (firstRejection os) as [[instant e]|]; [reflexivity|].
  now rewrite fulfilledValues_items.
Qed.

Lemma _collectCompletions_unfold prompt cursor shell caps ps tr :
  _collectCompletions prompt cursor shell caps ps tr
  = let settled :=
      settleAll (List.map (λ p, (settledAt p, callback prompt cursor shell caps p)) ps)
        (tr ++ invocations prompt cursor shell ps) in
    (gathered settled.1, settled.2).
Proof.
  unfold _collectCompletions, bind at 1. rewrite startAll_total.
  unfold bind, Promise_all. rewrite List.map_map. simpl.
  change (λ x, (settledAt x,
                resume prompt cursor shell caps x (startedOf prompt cursor shell x)))
    with (λ p, (settledAt p, callback prompt cursor shell caps p)).
  destruct (settleAll _ _) as [os tr']. simpl. unfold gathered.
  now destruct (allSettled os).
Qed.

(** With no provider to ask, the result is the empty array. *)
Lemma _collectCompletions_nil prompt cursor shell caps tr :
  _collectCompletions prompt cursor shell caps [] tr = (Fulfilled (Some []), tr).
Proof. rewrite _collectCompletions_unfold. simpl. now rewrite app_nil_r. Qed.

Lemma Forall2_In_l {A B} (R : A → B → Prop) (l : list A) (k : list B) (a : A) :
  Forall2 R l k → In a l → ∃ b, In b k ∧ R a b.
Proof.
  induction 1 as [|x y l k Hxy _ IH]; simpl; [contradiction|].
  intros [<-|Hin]; [now eauto|].
  destruct (IH Hin) as (b & Hb & HR). eauto.
Qed.

Lemma Forall2_In_r {A B} (R : A → B → Prop) (l : list A) (k : list B) (b : B) :
  Forall2 R l k → In b k → ∃ a, In a l ∧ R a b.
Proof.
  induction 1 as [|x y l k Hxy _ IH]; simpl; [contradiction|].
  intros [<-|Hin]; [now eauto|].
  destruct (IH Hin) as (a & Ha & HR). eauto.
Qed.

(** The outcomes that [_collectCompletions] gathers are those of the
    callbacks of its providers, in order. *)
Lemma callbacks_settled prompt cursor shell caps ps tr :
  Forall2 (λ p o, o.1 = settledAt p
                  ∧ ∃ tr_p, (callback prompt cursor shell caps p tr_p).1 = o.2) ps
    (settleAll (List.map (λ p, (settledAt p, callback prompt cursor shell caps p)) ps)
       tr).1.
Proof.
  pose proof (settleAll_outcomes
                (List.map (λ p, (settledAt p, callback prompt cursor shell caps p)) ps) tr)
    as Hall.
  now apply Forall2_fmap_l in Hall.
Qed.

(** When the aggregation is fulfilled, the result holds the items of each
    fulfilled callback as one run of neighbours. *)
Lemma _collectCompletions_holds prompt cursor shell caps ps p own tr l tr' :
  In p ps →
  (∀ tr_p, (callback prompt cursor shell caps p tr_p).1 = Fulfilled (Some own)) →
  _collectCompletions prompt cursor shell caps ps tr = (Fulfilled (Some l), tr') →
  ∃ l1 l2, l = l1 ++ own ++ l2.
Proof.
  intros Hin Hown. rewrite _collectCompletions_unfold. simpl.
  pose proof (callbacks_settled prompt cursor shell caps ps
                (tr ++ invocations prompt cursor shell ps)) as Hall.
  destruct (settleAll _ _) as [os tr'']. simpl in *.
  rewrite gathered_items.
  destruct (firstRejection os) as [[instant e]|]; [discriminate|].
  intros [= <- _].
  apply in_split in Hin as (ps1 & ps2 & ->).
  apply Forall2_app_inv_l in Hall as (os1 & os2 & _ & Hall & ->).
  apply Forall2_cons_inv_l in Hall as (o & os2' & (_ & tr_p & Hp) & _ & ->).
  rewrite Hown in Hp.
  rewrite flat_map_app. simpl. rewrite <- Hp. simpl. eauto.
Qed.

(** A provider that is asked and rejects: its callback is rejected. *)
Lemma callback_provider_rejected prompt cursor shell caps p e tr :
  shellTypeExcluded shell p = false →
  provider_provideCompletions p prompt cursor = Rejected e →
  callback prompt cursor shell caps p tr = (Rejected e, tr).
Proof.
  intros Hshell Hrej. unfold callback, startedOf. rewrite Hshell, Hrej. reflexivity.
Qed.

(** A provider that is asked and answers with a resource request: its
    callback settles as [resolveResources] does, with the provider's own
    items before the resolved ones. *)
Lemma callback_resource_request prompt cursor shell caps p items cfg tr :
  shellTypeExcluded shell p = false →
  provider_provideCompletions p prompt cursor
  = Fulfilled (Some (CompletionList items (Some cfg))) →
  callback prompt cursor shell caps p tr
  = match resolveResources cfg prompt cursor (id p) caps tr with
    | (Fulfilled resourceCompletions, tr') =>
        (Fulfilled (Some (ownItems shell p (CompletionList items (Some cfg))
                          ++ default [] resourceCompletions)), tr')
    | (Rejected e, tr') => (Rejected e, tr')
    end.
Proof.
  intros Hshell Hans. unfold callback, startedOf. rewrite Hshell, Hans. simpl.
  unfold bind at 1. simpl. unfold bind.
  now destruct (resolveResources cfg prompt cursor (id p) caps tr) as [[r|e] tr'].
Qed.

(** Past the two early returns, [provideCompletions] is
    [_collectCompletions] on the selected providers. *)
Lemma provideCompletions_selected prompt cursor shell caps this trigger skip tr :
  0 ≤ cursor →
  skip = true ∨ selectedProviders prompt cursor this trigger skip ≠ [] →
  provideCompletions prompt cursor shell caps this trigger skip tr
  = _collectCompletions prompt cursor shell caps
      (selectedProviders prompt cursor this trigger skip) tr.
Proof.
  intros Hcursor Hsel. unfold provideCompletions, selectedProviders in *.
  destruct (Z.ltb_spec cursor 0) as [Hneg|_]; [lia|].
  destruct skip; [reflexivity|].
  destruct Hsel as [Hskip|Hne]; [discriminate|].
  destruct (List.filter _ _) as [|q qs]; [contradiction|reflexivity].
Qed.

(** C2. With a negative cursor position [provideCompletions] returns
    [undefined] whatever the prompt, the shell type, the two flags and the
    registered providers are; the trace of calls is left as it was, so no
    provider is invoked. *)
Theorem negative_cursor_gives_no_result prompt cursor shell caps this trigger skip tr :
  cursor < 0 →
  provideCompletions prompt cursor shell caps this trigger skip tr = (Fulfilled None, tr).
Proof.
  intros Hneg. unfold provideCompletions.
  destruct (Z.ltb_spec cursor 0) as [_|Hge]; [reflexivity | lia].
Qed.

(** The loop over the trigger characters answers [true] exactly when one
    of them is a suffix of the text before the cursor. *)
Lemma triggerLoop_iff prompt cursor (chars : list string) :
  triggerLoop prompt cursor chars = true
  ↔ ∃ char, In char chars ∧ ∃ before, JS.substring prompt 0 cursor = before +:+ char.
Proof.
  induction chars as [|c chars IH]; simpl.
  - split; [discriminate | intros (? & [] & _)].
  - destruct (JS.endsWith (JS.substring prompt 0 cursor) c) eqn:Hends.
    + split; [|reflexivity]. intros _. exists c. split; [now left|].
      now apply JS_endsWith_iff.
    + rewrite IH. split.
      * intros (char & Hin & Hsuf). exists char. split; [now right | exact Hsuf].
      * intros (char & [<-|Hin] & Hsuf); [|now eauto].
        apply JS_endsWith_iff in Hsuf. congruence.
Qed.

Lemma providersToRequest_iff prompt cursor ps p :
  In p (providersToRequest prompt cursor ps)
  ↔ In p ps ∧ ∃ chars, triggerCharacters p = Some chars
                       ∧ triggerLoop prompt cursor chars = true.
Proof.
  induction ps as [|q ps IH]; simpl.
  - split; [contradiction | intros [[] _]].
  - destruct (triggerCharacters q) as [chars|] eqn:Hq.
    + destruct (triggerLoop prompt cursor chars) eqn:Hloop; simpl; rewrite IH.
      * split.
        -- intros [<-|[Hin Hp]]; [now eauto | now auto].
        -- intros [[<-|Hin] Hp]; [now left | now right].
      * split.
        -- intros [Hin Hp]; now auto.
        -- intros [[<-|Hin] (cs & Hcs & Hl)]; [congruence | now eauto].
    + rewrite IH. split.
      * intros [Hin Hp]; now auto.
      * intros [[<-|Hin] (cs & Hcs & Hl)]; [congruence | now eauto].
Qed.

(** C3. On a request started by a trigger character, a provider is among
    the requested ones if and only if it is registered and one of its
    trigger characters is a suffix of the prompt cut at the cursor (the
    whole prompt when the cursor is past its end). A provider without
    trigger characters, or with an empty list of them, is not among them. *)
Theorem trigger_request_selects_by_suffix prompt cursor this p :
  (In p (requestedProviders prompt cursor this true)
   ↔ In p (providers this)
     ∧ ∃ chars char,
         triggerCharacters p = Some chars ∧ In char chars
         ∧ ∃ before, JS.take (Z.to_nat cursor) prompt = before +:+ char)
  ∧ (triggerCharacters p = None ∨ triggerCharacters p = Some [] →
     ¬ In p (requestedProviders prompt cursor this true)).
Proof.
  unfold requestedProviders.
  assert (Hiff : In p (providersToRequest prompt cursor (providers this))
                 ↔ In p (providers this)
                   ∧ ∃ chars char,
                       triggerCharacters p = Some chars ∧ In char chars
                       ∧ ∃ before, JS.take (Z.to_nat cursor) prompt = before +:+ char).
  { rewrite providersToRequest_iff, <- (JS_substring_0 prompt cursor).
    split.
    - intros [Hin (chars & Hchars & Hloop)]. split; [exact Hin|].
      apply triggerLoop_iff in Hloop as (char & Hchar & Hsuf). now eauto.
    - intros [Hin (chars & char & Hchars & Hchar & Hsuf)]. split; [exact Hin|].
      exists chars. split; [exact Hchars|]. apply triggerLoop_iff. now eauto. }
  split; [exact Hiff|].
  intros Hnone Hin. apply Hiff in Hin as [_ (chars & char & Hchars & Hchar & _)].
  destruct Hnone as [Hnone|Hnone]; rewrite Hnone in Hchars; [discriminate|].
  injection Hchars as <-. contradiction.
Qed.

(** What the filter of the provider configuration keeps: an id that is not
    empty, that is a key of the configuration object or a name it inherits,
    and that the object does not map to [false]. *)
Lemma enabledInConfig_iff (providerConfig : gmap string bool) p :
  enabledInConfig providerConfig p = true
  ↔ id p ≠ EmptyString
    ∧ (is_Some (providerConfig !! id p) ∨ In (id p) JS.Object_prototype)
    ∧ providerConfig !! id p ≠ Some false.
Proof.
  unfold enabledInConfig, JS.has_in.
  rewrite !andb_true_iff, orb_true_iff, negb_true_iff.
  rewrite !bool_decide_eq_true, bool_decide_eq_false, list_elem_of_In.
  assert (Htruthy : JS.truthy (id p) = true ↔ id p ≠ EmptyString).
  { destruct (id p); simpl; split; intros; try discriminate; try reflexivity;
      congruence. }
  rewrite Htruthy. tauto.
Qed.

(** X21. Without [skipExtensionCompletions], the providers that pass the
    filter are the requested ones whose id is not empty, is a key of the
    provider configuration or a name that the configuration object
    inherits, and is not mapped to [false]. When no provider passes,
    [provideCompletions] returns [undefined] and leaves the trace of calls
    as it was: no provider is invoked. [undefined] is not the empty array.
    When some pass, they are the providers handed to
    [_collectCompletions]. *)
Theorem config_filter_and_no_result prompt cursor shell caps this trigger tr :
  let providerConfig := Providers _configurationService in
  let survivors :=
    List.filter (enabledInConfig providerConfig)
      (requestedProviders prompt cursor this trigger) in
  (∀ p, In p survivors
        ↔ In p (requestedProviders prompt cursor this trigger)
          ∧ id p ≠ EmptyString
          ∧ (is_Some (providerConfig !! id p) ∨ In (id p) JS.Object_prototype)
          ∧ providerConfig !! id p ≠ Some false)
  ∧ (survivors = [] →
     provideCompletions prompt cursor shell caps this trigger false tr
     = (Fulfilled None, tr))
  ∧ (0 ≤ cursor → survivors ≠ [] →
     provideCompletions prompt cursor shell caps this trigger false tr
     = _collectCompletions prompt cursor shell caps survivors tr)
  ∧ (Fulfilled None : outcome (option (list ITerminalCompletion)))
    ≠ Fulfilled (Some []).
Proof.
  intros providerConfig survivors. split; [|split; [|split; [|discriminate]]].
  - intros p. unfold survivors. now rewrite filter_In, enabledInConfig_iff.
  - intros Hnone. unfold provideCompletions.
    destruct (cursor <? 0); [reflexivity|].
    fold providerConfig. fold survivors. now rewrite Hnone.
  - intros Hcursor Hsome.
    now apply (provideCompletions_selected prompt cursor shell caps this trigger false tr);
      [|right].
Qed.

(** C9. With [skipExtensionCompletions], a cursor position that is not
    negative and no builtin provider among the requested ones,
    [provideCompletions] returns the empty array, which is not [undefined],
    and invokes no provider. *)
Theorem builtin_only_without_builtins_is_empty prompt cursor shell caps this trigger tr :
  0 ≤ cursor →
  List.filter isBuiltin (requestedProviders prompt cursor this trigger) = [] →
  provideCompletions prompt cursor shell caps this trigger true tr
  = (Fulfilled (Some []), tr)
  ∧ (Fulfilled (Some []) : outcome (option (list ITerminalCompletion)))
    ≠ Fulfilled None.
Proof.
  intros Hcursor Hnone. split; [|discriminate].
  rewrite provideCompletions_selected by auto.
  unfold selectedProviders. rewrite Hnone. apply _collectCompletions_nil.
Qed.

Lemma ownItems_labels shell p (items : option (list ITerminalCompletion))
    (cfg : option TerminalResourceRequestConfig) :
  List.map label (ownItems shell p (CompletionList items cfg))
  = List.map label (default [] items).
Proof.
  unfold ownItems.
  destruct (bool_decide (shell = PowerShell)), (isBuiltin p);
    rewrite ?List.map_map; try reflexivity;
    apply List.map_ext; intros it; unfold markFileOverride;
    now destruct (isFileOverride it).
Qed.

(** C10. Without a working directory in the resource request, or with
    neither files nor folders asked for, [resolveResources] returns
    [undefined] and does not call the file service. The callback of a
    provider that answered with such a request is fulfilled with the
    provider's own items, no lookup made, and when the aggregation is
    fulfilled its result holds these items. *)
Theorem unanswerable_resource_request_keeps_own_items :
  (∀ cfg prompt cursor pid caps tr,
     cwd cfg = None
     ∨ (default false (foldersRequested cfg) = false
        ∧ default false (filesRequested cfg) = false) →
     resolveResources cfg prompt cursor pid caps tr = (Fulfilled None, tr))
  ∧ (∀ prompt cursor shell caps p items cfg,
       cwd cfg = None
       ∨ (default false (foldersRequested cfg) = false
          ∧ default false (filesRequested cfg) = false) →
       shellTypeExcluded shell p = false →
       provider_provideCompletions p prompt cursor
       = Fulfilled (Some (CompletionList items (Some cfg))) →
       let own := ownItems shell p (CompletionList items (Some cfg)) in
       List.map label own = List.map label (default [] items)
       ∧ (∀ tr, callback prompt cursor shell caps p tr = (Fulfilled (Some own), tr))
       ∧ (∀ ps tr l tr',
            In p ps →
            _collectCompletions prompt cursor shell caps ps tr = (Fulfilled (Some l), tr') →
            ∃ l1 l2, l = l1 ++ own ++ l2)).
Proof.
  assert (Hguard : ∀ cfg prompt cursor pid caps tr,
             cwd cfg = None
             ∨ (default false (foldersRequested cfg) = false
                ∧ default false (filesRequested cfg) = false) →
             resolveResources cfg prompt cursor pid caps tr = (Fulfilled None, tr)).
  { intros cfg prompt cursor pid caps tr Hcfg. apply resolveResources_guard.
    destruct Hcfg as [Hcwd|[Hfolders Hfiles]]; [now left | right].
    unfold resourcesRequested. now rewrite Hfolders, Hfiles. }
  split; [exact Hguard|].
  intros prompt cursor shell caps p items cfg Hcfg Hshell Hans own.
  assert (Hcallback : ∀ tr, callback prompt cursor shell caps p tr
                            = (Fulfilled (Some own), tr)).
  { intros tr. rewrite (callback_resource_request _ _ _ _ _ items cfg) by assumption.
    rewrite Hguard by exact Hcfg. simpl. now rewrite app_nil_r. }
  split; [apply ownItems_labels|]. split; [exact Hcallback|].
  intros ps tr l tr' Hin Hres.
  eapply _collectCompletions_holds; eauto.
  intros tr_p. now rewrite Hcallback.
Qed.

End AggregationProperties.

(** ** Insertion-ordered maps *)

Section OMapProperties.

Context {V : Type}.

Implicit Types (k : string) (v : V) (m : OMap.t V).

Lemma OMap_get_set_eq k v m : OMap.get k (OMap.set k v m) = Some v.
Proof.
  induction m as [|[k' v'] m IH]; simpl.
  - now rewrite String.eqb_refl.
  - destruct (String.eqb_spec k' k) as [->|Hne]; simpl.
    + now rewrite String.eqb_refl.
    + destruct (String.eqb_spec k' k); [contradiction | exact IH].
Qed.

Lemma OMap_get_set_ne k k' v m : k ≠ k' → OMap.get k' (OMap.set k v m) = OMap.get k' m.
Proof.
  intros Hne. induction m as [|[k0 v0] m IH]; simpl.
  - now destruct (String.eqb_spec k k').
  - destruct (String.eqb_spec k0 k) as [->|Hk0]; simpl.
    + now destruct (String.eqb_spec k k').
    + now rewrite IH.
Qed.

Lemma OMap_get_delete_eq k m : OMap.get k (OMap.delete k m) = None.
Proof.
  induction m as [|[k' v'] m IH]; simpl; [reflexivity|].
  destruct (String.eqb_spec k' k) as [->|Hne]; simpl; [exact IH|].
  now destruct (String.eqb_spec k' k).
Qed.

Lemma OMap_get_delete_ne k k' m : k ≠ k' → OMap.get k' (OMap.delete k m) = OMap.get k' m.
Proof.
  intros Hne. induction m as [|[k0 v0] m IH]; simpl; [reflexivity|].
  destruct (String.eqb_spec k0 k) as [->|Hk0]; simpl.
  - now destruct (String.eqb_spec k k').
  - now rewrite IH.
Qed.

Lemma OMap_In_delete k k' v m :
  In (k', v) (OMap.delete k m) ↔ In (k', v) m ∧ k' ≠ k.
Proof.
  induction m as [|[k0 v0] m IH]; simpl; [tauto|].
  destruct (String.eqb_spec k0 k) as [->|Hk0]; simpl; rewrite IH.
  - split; [tauto|]. intros [[[= <- <-]|Hin] Hne]; [contradiction | tauto].
  - split; [|tauto]. intros [[= <- <-]|[Hin Hne]]; tauto.
Qed.

Lemma OMap_In_set k k' v v' m :
  In (k', v') (OMap.set k v m) → (k', v') = (k, v) ∨ In (k', v') m.
Proof.
  induction m as [|[k0 v0] m IH]; simpl.
  - intros [Heq|[]]. now left.
  - destruct (String.eqb_spec k0 k) as [->|Hk0]; simpl.
    + intros [Heq|Hin]; [now left | now right; right].
    + intros [Heq|Hin]; [now right; left|].
      destruct (IH Hin); [now left | now right; right].
Qed.

Lemma OMap_keys_set k k' v m :
  In k' (OMap.keys (OMap.set k v m)) → k' = k ∨ In k' (OMap.keys m).
Proof.
  unfold OMap.keys. intros ((k0 & v0) & <- & Hin)%in_map_iff. simpl.
  destruct (OMap_In_set _ _ _ _ _ Hin) as [[= -> ->]|Hin']; [now left | right].
  apply in_map_iff. now exists (k0, v0).
Qed.

Lemma OMap_keys_delete k k' m :
  In k' (OMap.keys (OMap.delete k m)) → In k' (OMap.keys m) ∧ k' ≠ k.
Proof.
  unfold OMap.keys. intros ((k0 & v0) & <- & Hin)%in_map_iff. simpl.
  apply OMap_In_delete in Hin as [Hin Hne]. split; [|exact Hne].
  apply in_map_iff. now exists (k0, v0).
Qed.

Lemma OMap_NoDup_set k v m :
  List.NoDup (OMap.keys m) → List.NoDup (OMap.keys (OMap.set k v m)).
Proof.
  induction m as [|[k0 v0] m IH]; simpl.
  - intros _. repeat constructor. intros [].
  - intros Hnd. inversion Hnd as [|? ? Hnotin Hnd']; subst.
    destruct (String.eqb_spec k0 k) as [->|Hk0]; simpl.
    + now constructor.
    + constructor; [|now apply IH].
      intros [->|Hin]%OMap_keys_set; [now apply Hk0 | now apply Hnotin].
Qed.

Lemma OMap_NoDup_delete k m :
  List.NoDup (OMap.keys m) → List.NoDup (OMap.keys (OMap.delete k m)).
Proof.
  induction m as [|[k0 v0] m IH]; simpl; [now intros|].
  intros Hnd. inversion Hnd as [|? ? Hnotin Hnd']; subst.
  destruct (String.eqb_spec k0 k) as [->|Hk0]; simpl; [now apply IH|].
  constructor; [|now apply IH].
  intros [Hin _]%OMap_keys_delete. now apply Hnotin.
Qed.

Lemma OMap_get_In k v m : OMap.get k m = Some v → In (k, v) m.
Proof.
  induction m as [|[k0 v0] m IH]; simpl; [discriminate|].
  destruct (String.eqb_spec k0 k) as [->|Hk0].
  - intros [= ->]. now left.
  - intros Hget. right. now apply IH.
Qed.

(** With each key held once, an entry is in the map exactly when [get]
    finds it. *)
Lemma OMap_In_get k v m :
  List.NoDup (OMap.keys m) → (In (k, v) m ↔ OMap.get k m = Some v).
Proof.
  intros Hnd. split; [|apply OMap_get_In].
  induction m as [|[k0 v0] m IH]; simpl; [contradiction|].
  inversion Hnd as [|? ? Hnotin Hnd']; subst.
  intros [[= -> ->]|Hin].
  - now rewrite String.eqb_refl.
  - destruct (String.eqb_spec k0 k) as [->|Hk0]; [|now apply IH].
    exfalso. apply Hnotin. unfold OMap.keys. apply in_map_iff. now exists (k, v).
Qed.

(** [set] on a key that is present replaces the value where it stands. *)
Lemma OMap_set_present k v v0 m :
  OMap.get k m = Some v0 →
  ∃ m1 m2, m = m1 ++ (k, v0) :: m2 ∧ OMap.set k v m = m1 ++ (k, v) :: m2.
Proof.
  induction m as [|[k1 v1] m IH]; simpl; [discriminate|].
  destruct (String.eqb_spec k1 k) as [->|Hk1].
  - intros [= ->]. now exists [], m.
  - intros Hget. destruct (IH Hget) as (m1 & m2 & -> & ->).
    now exists ((k1, v1) :: m1), m2.
Qed.

Lemma OMap_delete_nil k k' m :
  OMap.delete k m = [] → k' ≠ k → OMap.get k' m = None.
Proof.
  intros Hnil Hne. rewrite <- (OMap_get_delete_ne k k' m) by congruence.
  now rewrite Hnil.
Qed.

End OMapProperties.

(** ** The provider registry *)

Section RegistryProperties.

Context `{Platform}.

Implicit Types (this later : TerminalCompletionService) (ext id : string)
  (r : loc) (chars : list string).

Lemma wellFormed_empty heap0 : wellFormed (mkService heap0 OMap.empty).
Proof. split; [constructor | intros ext bucket []]. Qed.

Lemma wellFormed_register this ext id r chars :
  wellFormed this →
  wellFormed (registerTerminalCompletionProvider this ext id r chars).1.
Proof.
  intros [Hkeys Hbuckets]. unfold registerTerminalCompletionProvider. simpl.
  split; [now apply OMap_NoDup_set|].
  intros e bucket [[= -> ->]|Hin]%OMap_In_set; [|now eauto].
  apply OMap_NoDup_set.
  destruct (OMap.get ext (_providers this)) as [extMap|] eqn:Hget; [|constructor].
  apply OMap_get_In in Hget. now eauto.
Qed.

Lemma wellFormed_dispose d later : wellFormed later → wellFormed (dispose d later).
Proof.
  intros [Hkeys Hbuckets]. unfold dispose.
  destruct (OMap.get (disposable_extensionIdentifier d) (_providers later))
    as [extMap|] eqn:Hget; [|now split].
  destruct (OMap.size (OMap.delete (disposable_id d) extMap) =? 0)%nat; simpl.
  - split; [now apply OMap_NoDup_delete|].
    intros e bucket [Hin _]%OMap_In_delete. now eauto.
  - split; [now apply OMap_NoDup_set|].
    intros e bucket [[= -> ->]|Hin]%OMap_In_set; [|now eauto].
    apply OMap_NoDup_delete. apply OMap_get_In in Hget. now eauto.
Qed.

Lemma In_provider_entries this ext id r :
  In (ext, id, r) (provider_entries this)
  ↔ ∃ bucket, In (ext, bucket) (_providers this) ∧ In (id, r) bucket.
Proof.
  unfold provider_entries. rewrite in_flat_map. split.
  - intros ([e bucket] & Hin & ([i r'] & [= <- <- <-] & Hentry)%in_map_iff).
    now exists bucket.
  - intros (bucket & Hin & Hentry). exists (ext, bucket). split; [exact Hin|].
    apply in_map_iff. now exists (id, r).
Qed.

(** In a well-formed registry the entries are what [registered] finds. *)
Lemma In_provider_entries_registered this ext id r :
  wellFormed this →
  (In (ext, id, r) (provider_entries this) ↔ registered this ext id = Some r).
Proof.
  intros [Hkeys Hbuckets]. rewrite In_provider_entries. unfold registered. split.
  - intros (bucket & Hin & Hentry).
    apply (OMap_In_get _ _ _ Hkeys) in Hin as Hget. rewrite Hget. simpl.
    apply OMap_In_get; [now eauto | exact Hentry].
  - destruct (OMap.get ext (_providers this)) as [bucket|] eqn:Hget; [|discriminate].
    simpl. intros Hentry. exists bucket.
    split; [now apply OMap_get_In | now apply OMap_get_In].
Qed.

(** The references of the view are those of the entries. *)
Lemma provider_refs_entries this :
  provider_refs this = List.map snd (provider_entries this).
Proof.
  unfold provider_refs, provider_entries, OMap.values.
  induction (_providers this) as [|[e bucket] m IH]; simpl; [reflexivity|].
  rewrite List.map_app, IH, List.map_map. reflexivity.
Qed.

Lemma registered_register_eq this ext id r chars :
  registered (registerTerminalCompletionProvider this ext id r chars).1 ext id = Some r.
Proof.
  unfold registered, registerTerminalCompletionProvider. simpl.
  rewrite OMap_get_set_eq. simpl. apply OMap_get_set_eq.
Qed.

Lemma registered_register_ne this ext id r chars e i :
  (e, i) ≠ (ext, id) →
  registered (registerTerminalCompletionProvider this ext id r chars).1 e i
  = registered this e i.
Proof.
  intros Hne. unfold registered, registerTerminalCompletionProvider. simpl.
  destruct (String.eqb_spec ext e) as [<-|Hext].
  - rewrite OMap_get_set_eq. simpl.
    rewrite OMap_get_set_ne by congruence.
    now destruct (OMap.get ext (_providers this)).
  - now rewrite OMap_get_set_ne.
Qed.

Lemma registered_dispose_eq later ext id :
  registered (dispose (toDisposable ext id) later) ext id = None.
Proof.
  unfold registered, dispose. simpl.
  destruct (OMap.get ext (_providers later)) as [extMap|] eqn:Hget.
  - destruct (OMap.size (OMap.delete id extMap) =? 0)%nat; simpl.
    + now rewrite OMap_get_delete_eq.
    + rewrite OMap_get_set_eq. simpl. apply OMap_get_delete_eq.
  - now rewrite Hget.
Qed.

Lemma registered_dispose_ne later ext id e i :
  (e, i) ≠ (ext, id) →
  registered (dispose (toDisposable ext id) later) e i = registered later e i.
Proof.
  intros Hne. unfold registered, dispose. simpl.
  destruct (OMap.get ext (_providers later)) as [extMap|] eqn:Hget; [|reflexivity].
  destruct (String.eqb_spec ext e) as [<-|Hext].
  - assert (Hid : id ≠ i) by congruence.
    destruct (Nat.eqb_spec (OMap.size (OMap.delete id extMap)) 0) as [Hempty|_]; simpl.
    + rewrite OMap_get_delete_eq, Hget. simpl. symmetry.
      apply (OMap_delete_nil id); [|congruence].
      now destruct (OMap.delete id extMap).
    + rewrite OMap_get_set_eq, Hget. simpl. now apply OMap_get_delete_ne.
  - destruct (OMap.size (OMap.delete id extMap) =? 0)%nat; simpl.
    + now rewrite OMap_get_delete_ne.
    + now rewrite OMap_get_set_ne.
Qed.

(** Registration on keys that are taken keeps the number of entries. *)
Lemma provider_entries_register_taken this ext id r chars :
  is_Some (registered this ext id) →
  List.length (provider_entries (registerTerminalCompletionProvider this ext id r chars).1)
  = List.length (provider_entries this).
Proof.
  unfold registered, registerTerminalCompletionProvider, provider_entries. simpl.
  destruct (OMap.get ext (_providers this)) as [extMap|] eqn:Hget;
    [|intros [? [=]]].
  simpl. intros [r0 Hr0].
  destruct (OMap_set_present ext (OMap.set id r extMap) extMap _ Hget)
    as (m1 & m2 & Hm & ->).
  destruct (OMap_set_present id r r0 extMap Hr0) as (b1 & b2 & Hb & ->).
  rewrite Hm, Hb, !flat_map_app. simpl.
  rewrite !List.length_app, !List.length_map, !List.length_app. reflexivity.
Qed.

Lemma provider_entries_dispose later ext id e i r :
  wellFormed later →
  (In (e, i, r) (provider_entries (dispose (toDisposable ext id) later))
   ↔ In (e, i, r) (provider_entries later) ∧ (e, i) ≠ (ext, id)).
Proof.
  intros Hwf.
  rewrite !In_provider_entries_registered by auto using wellFormed_dispose.
  destruct (decide ((e, i) = (ext, id))) as [[= -> ->]|Hne].
  - rewrite registered_dispose_eq. split; [discriminate | tauto].
  - rewrite registered_dispose_ne by exact Hne. tauto.
Qed.

(** C8. Registration stores the reference to the provider under the
    namespace and then the id, leaves the other entries as they were, and
    writes the id and the trigger characters to the provider object.
    On keys that are taken it replaces the entry, and the number of entries
    stays. Running the handle it returns, in any later state, removes the
    entry under these two keys and no other, and removes the bucket of the
    namespace when it is left empty; in a well-formed registry the view
    then yields the entries of before less that one, and it does not yield
    a provider that was registered under these keys only. *)
Theorem registration_and_release this ext (providerId : string) r chars :
  let this' := (registerTerminalCompletionProvider this ext providerId r chars).1 in
  let handle := (registerTerminalCompletionProvider this ext providerId r chars).2 in
  (∃ bucket, OMap.get ext (_providers this') = Some bucket
             ∧ OMap.get providerId bucket = Some r)
  ∧ (∀ e i, (e, i) ≠ (ext, providerId) → registered this' e i = registered this e i)
  ∧ heap this' !! r = stamp providerId chars <$> heap this !! r
  ∧ (∀ p, id (stamp providerId chars p) = providerId
          ∧ triggerCharacters (stamp providerId chars p) = Some chars
          ∧ shellTypes (stamp providerId chars p) = shellTypes p
          ∧ provider_provideCompletions (stamp providerId chars p)
            = provider_provideCompletions p
          ∧ isBuiltin (stamp providerId chars p) = isBuiltin p)
  ∧ (∀ r', r' ≠ r → heap this' !! r' = heap this !! r')
  ∧ (is_Some (registered this ext providerId) →
     List.length (provider_entries this') = List.length (provider_entries this))
  ∧ (wellFormed this → wellFormed this')
  ∧ ∀ later,
      let released := dispose handle later in
      registered released ext providerId = None
      ∧ (∀ e i, (e, i) ≠ (ext, providerId) →
                registered released e i = registered later e i)
      ∧ (∀ bucket,
           OMap.get ext (_providers later) = Some bucket →
           OMap.get ext (_providers released)
           = if (OMap.size (OMap.delete providerId bucket) =? 0)%nat then None
             else Some (OMap.delete providerId bucket))
      ∧ heap released = heap later
      ∧ (wellFormed later →
         wellFormed released
         ∧ (∀ e i r',
              In (e, i, r') (provider_entries released)
              ↔ In (e, i, r') (provider_entries later) ∧ (e, i) ≠ (ext, providerId))
         ∧ ((∀ e i, registered later e i = Some r → (e, i) = (ext, providerId)) →
            ¬ In r (provider_refs released))).
Proof.
  intros this' handle.
  split.
  { pose proof (registered_register_eq this ext providerId r chars) as Hreg.
    fold this' in Hreg. unfold registered in Hreg.
    destruct (OMap.get ext (_providers this')) as [bucket|]; [|discriminate].
    now exists bucket. }
  split; [intros e i; apply registered_register_ne|].
  split; [unfold this'; simpl; apply lookup_alter_eq|].
  split; [intros p; repeat split|].
  split; [intros r' Hne; unfold this'; simpl; now apply lookup_alter_ne|].
  split; [apply provider_entries_register_taken|].
  split; [apply wellFormed_register|].
  intros later released. unfold released, handle. simpl.
  split; [apply registered_dispose_eq|].
  split; [intros e i; apply registered_dispose_ne|].
  split.
  { intros bucket Hget. unfold dispose. simpl. rewrite Hget.
    destruct (OMap.size (OMap.delete providerId bucket) =? 0)%nat; simpl.
    - apply OMap_get_delete_eq.
    - apply OMap_get_set_eq. }
  split.
  { unfold dispose. simpl.
    destruct (OMap.get ext (_providers later)); [|reflexivity].
    now destruct (OMap.size _ =? 0)%nat. }
  intros Hwf. split; [now apply wellFormed_dispose|].
  split; [intros e i r'; now apply provider_entries_dispose|].
  intros Honly Hin. rewrite provider_refs_entries in Hin.
  apply in_map_iff in Hin as ([[e i] r'] & Hr' & Hin). simpl in Hr'. subst r'.
  apply provider_entries_dispose in Hin as [Hin Hne]; [|exact Hwf].
  apply In_provider_entries_registered in Hin; [|exact Hwf].
  now apply Hne, Honly.
Qed.

End RegistryProperties.

(** ** More on strings *)

Lemma JS_app_assoc (s t u : string) : (s +:+ t) +:+ u = s +:+ (t +:+ u).
Proof.
  induction s as [|c s IH]; [reflexivity|].
  rewrite !JS_app_cons. now rewrite IH.
Qed.

Lemma JS_app_empty_r (s : string) : s +:+ EmptyString = s.
Proof.
  induction s as [|c s IH]; [reflexivity|].
  rewrite JS_app_cons. now rewrite IH.
Qed.

Lemma JS_length_drop (n : nat) (s : string) :
  String.length (JS.drop n s) = (String.length s - n)%nat.
Proof.
  revert s; induction n as [|n IH]; intros [|c s]; simpl; try reflexivity.
  apply IH.
Qed.

Lemma JS_length_take (n : nat) (s : string) :
  String.length (JS.take n s) = Nat.min n (String.length s).
Proof.
  revert s; induction n as [|n IH]; intros [|c s]; simpl; try reflexivity.
  now rewrite IH.
Qed.

Lemma JS_take_length (s : string) (n : nat) :
  (String.length s ≤ n)%nat → JS.take n s = s.
Proof.
  revert n; induction s as [|c s IH]; intros [|n] Hn; simpl in *;
    try reflexivity; try lia.
  f_equal. apply IH. lia.
Qed.

Lemma JS_take_app (s t : string) : JS.take (String.length s) (s +:+ t) = s.
Proof.
  induction s as [|c s IH]; [reflexivity|].
  rewrite JS_app_cons. simpl. now rewrite IH.
Qed.

(** [substring] between two offsets of the string, in order. *)
Lemma JS_substring_within (s : string) (a b : nat) :
  (a ≤ b)%nat → (b ≤ String.length s)%nat →
  JS.substring s (Z.of_nat a) (Z.of_nat b) = JS.take (b - a) (JS.drop a s).
Proof.
  intros Hab Hb. unfold JS.substring, JS.clamp, JS.length.
  replace (Z.max 0 (Z.min (Z.of_nat a) (Z.of_nat (String.length s))))
    with (Z.of_nat a) by lia.
  replace (Z.max 0 (Z.min (Z.of_nat b) (Z.of_nat (String.length s))))
    with (Z.of_nat b) by lia.
  replace (Z.min (Z.of_nat a) (Z.of_nat b)) with (Z.of_nat a) by lia.
  replace (Z.max (Z.of_nat a) (Z.of_nat b) - Z.of_nat a) with (Z.of_nat (b - a)) by lia.
  now rewrite !Nat2Z.id.
Qed.

(** [slice(0, n)] keeps the first [n] code units and [slice(n)] drops
    them, for an offset of the string. *)
Lemma JS_slice_0 (s : string) (n : nat) :
  (n ≤ String.length s)%nat → JS.slice s 0 (Z.of_nat n) = JS.take n s.
Proof.
  intros Hn. unfold JS.slice, JS.rel, JS.length.
  destruct (Z.ltb_spec 0 0) as [?|_]; [lia|].
  destruct (Z.ltb_spec (Z.of_nat n) 0) as [?|_]; [lia|].
  replace (Z.min 0 (Z.of_nat (String.length s))) with 0 by lia.
  replace (Z.min (Z.of_nat n) (Z.of_nat (String.length s)) - 0) with (Z.of_nat n) by lia.
  now rewrite Nat2Z.id.
Qed.

Lemma JS_slice_from_drop (s : string) (n : nat) :
  (n ≤ String.length s)%nat → JS.slice_from s (Z.of_nat n) = JS.drop n s.
Proof.
  intros Hn. unfold JS.slice_from, JS.slice, JS.rel, JS.length.
  destruct (Z.ltb_spec (Z.of_nat n) 0) as [?|_]; [lia|].
  destruct (Z.ltb_spec (Z.of_nat (String.length s)) 0) as [?|_]; [lia|].
  replace (Z.min (Z.of_nat n) (Z.of_nat (String.length s))) with (Z.of_nat n) by lia.
  rewrite Z.min_id, Nat2Z.id.
  apply JS_take_length. rewrite JS_length_drop. lia.
Qed.

Lemma holds_app_l (c : ascii) (s t : string) : holds c s → holds c (s +:+ t).
Proof.
  intros (before & after & ->). exists before, (after +:+ t).
  now rewrite JS_app_assoc, JS_app_cons.
Qed.

Lemma holds_app_r (c : ascii) (s t : string) : holds c t → holds c (s +:+ t).
Proof.
  intros (before & after & ->). exists (s +:+ before), after.
  now rewrite JS_app_assoc.
Qed.

Lemma holds_take (c : ascii) (n : nat) (s : string) : holds c (JS.take n s) → holds c s.
Proof. intros Hin. rewrite <- (JS_take_drop n s). now apply holds_app_l. Qed.

Lemma JS_length_replaceAll (p : ascii → bool) (r : ascii) (s : string) :
  String.length (JS.replaceAll p r s) = String.length s.
Proof. induction s as [|c s IH]; simpl; [reflexivity | now rewrite IH]. Qed.

(** What is replaced is gone, when the replacement is not replaced itself. *)
Lemma JS_replaceAll_free (p : ascii → bool) (r c : ascii) (s : string) :
  p c = true → p r = true → c ≠ r → ¬ holds c (JS.replaceAll p r s).
Proof.
  intros Hc Hr Hne. induction s as [|a s IH]; simpl; [apply holds_empty|].
  rewrite holds_cons. intros [Heq|Hin]; [|now apply IH].
  destruct (p a) eqn:Ha; [now apply Hne | congruence].
Qed.

Lemma JS_replaceAll_id (c r : ascii) (s : string) :
  ¬ holds c s → JS.replaceAll (Ascii.eqb c) r s = s.
Proof.
  induction s as [|a s IH]; simpl; [reflexivity|].
  rewrite holds_cons. intros Hfree.
  destruct (Ascii.eqb_spec c a) as [->|Hne]; [tauto|].
  f_equal. apply IH. tauto.
Qed.

Lemma JS_replaceAll_idem (p : ascii → bool) (r : ascii) (s : string) :
  JS.replaceAll p r (JS.replaceAll p r s) = JS.replaceAll p r s.
Proof.
  induction s as [|a s IH]; simpl; [reflexivity|]. rewrite IH. f_equal.
  destruct (p a) eqn:Ha; [now destruct (p r) | now rewrite Ha].
Qed.

Lemma JS_startsWith_empty (s : string) : JS.startsWith s EmptyString = true.
Proof. now destruct s. Qed.

(** [lastIndexOf] of one code unit: [-1] when the string does not hold it,
    and otherwise the offset of its last occurrence. *)
Lemma JS_lastIndexOf_from_char (c : ascii) (s : string) (i : Z) :
  (JS.lastIndexOf_from i s (JS.str c) = -1 ∧ ¬ holds c s ∨ i < 0)
  ∨ ∃ before after,
      s = before +:+ String c after ∧ ¬ holds c after
      ∧ JS.lastIndexOf_from i s (JS.str c) = i + Z.of_nat (String.length before).
Proof.
  revert i. induction s as [|a s IH]; intros i; simpl.
  - left. left. split; [reflexivity | apply holds_empty].
  - destruct (Z.lt_ge_cases i 0) as [Hneg|Hpos]; [now left; right|].
    destruct (IH (i + 1)) as [[[Hnone Hfree]|Hneg]|(before & after & -> & Hfree & Hidx)];
      [| lia |].
    + rewrite Hnone. simpl.
      destruct (Ascii.eqb_spec c a) as [<-|Hne].
      * right. exists EmptyString, s.
        split; [reflexivity|]. split; [exact Hfree|].
        rewrite JS_startsWith_empty. simpl. lia.
      * left. left. split; [reflexivity|]. rewrite holds_cons.
        intros [?|?]; [congruence | auto].
    + right. exists (String a before), after. rewrite Hidx.
      destruct (Z.eqb_spec (i + 1 + Z.of_nat (String.length before)) (-1)); [lia|].
      split; [reflexivity|]. split; [exact Hfree|]. simpl String.length. lia.
Qed.

Lemma JS_lastIndexOf_char (c : ascii) (s : string) :
  (JS.lastIndexOf s (JS.str c) = -1 ∧ ¬ holds c s)
  ∨ ∃ before after,
      s = before +:+ String c after ∧ ¬ holds c after
      ∧ JS.lastIndexOf s (JS.str c) = Z.of_nat (String.length before).
Proof.
  unfold JS.lastIndexOf.
  destruct (JS_lastIndexOf_from_char c s 0)
    as [[H|Hneg]|(before & after & Hs & Hfree & Hidx)]; [now left | lia |].
  right. exists before, after. now rewrite Hidx.
Qed.

(** ** Friendly paths *)

Section FriendlyPathProperties.

Context `{Platform}.

Lemma JS_endsWith_app (s t : string) : JS.endsWith (s +:+ t) t = true.
Proof. apply JS_endsWith_iff. now exists s. Qed.

(** The upper case of a letter is one of [A] to [Z]. *)
Lemma JS_toUpperCase_letter (c : ascii) :
  JS.isLetter c = true →
  (65 ≤ nat_of_ascii (JS.toUpperCase c) ≤ 90)%nat.
Proof.
  destruct c as [[] [] [] [] [] [] [] []]; vm_compute; (discriminate || (intros _; lia)).
Qed.

(** X1. The friendly path of a folder ends with the path separator,
    whether the separator had to be appended or not and whether the drive
    letter was rewritten or not. *)
Theorem getFriendlyPath_folder_ends_with_separator (uri : URI) (sep : string) :
  JS.endsWith (getFriendlyPath uri sep Folder) sep = true.
Proof.
  unfold getFriendlyPath. simpl kind_eqb. rewrite andb_true_l.
  set (path := if negb (JS.endsWith (fsPath uri) sep)
               then fsPath uri +:+ sep else fsPath uri).
  assert (Hends : JS.endsWith path sep = true).
  { unfold path. destruct (JS.endsWith (fsPath uri) sep) eqn:He; simpl;
      [exact He | apply JS_endsWith_app]. }
  clearbody path.
  destruct (String.eqb_spec sep (JS.str JS.backslash)) as [->|_]; [|exact Hends].
  simpl andb. destruct (JS.matchDriveBackslash path) eqn:Hdrive; [|exact Hends].
  destruct path as [|c1 [|c2 [|c3 rest]]]; try discriminate Hdrive.
  change 2 with (Z.of_nat 2). rewrite JS_slice_from_drop by (simpl; lia).
  simpl JS.drop.
  apply JS_endsWith_iff in Hends as [pre Hpre].
  destruct pre as [|a [|b pre]].
  - rewrite JS_app_nil in Hpre. discriminate Hpre.
  - rewrite JS_app_cons, JS_app_nil in Hpre. discriminate Hpre.
  - rewrite !JS_app_cons in Hpre. injection Hpre as _ _ Hrest.
    apply JS_endsWith_iff.
    exists (String (JS.toUpperCase c1) (String JS.colon pre)).
    rewrite Hrest. reflexivity.
Qed.

(** X2. On a configuration whose separator is the backslash, a path that
    starts with a drive letter, a colon and a backslash comes back with the
    letter in upper case, one of [A] to [Z], and with what follows the
    letter as it was: unchanged for a file, and with the separator appended
    for a folder that does not end with it. *)
Theorem getFriendlyPath_upper_case_drive (uri : URI) (kind : TerminalCompletionItemKind)
    (c : ascii) (rest : string) :
  fsPath uri = String c rest →
  JS.matchDriveBackslash (fsPath uri) = true →
  ∃ rest',
    getFriendlyPath uri (JS.str JS.backslash) kind = String (JS.toUpperCase c) rest'
    ∧ (65 ≤ nat_of_ascii (JS.toUpperCase c) ≤ 90)%nat
    ∧ (rest' = rest ∨ (kind = Folder ∧ rest' = rest +:+ JS.str JS.backslash))
    ∧ (kind = File → rest' = rest).
Proof.
  intros Hpath Hdrive. unfold getFriendlyPath. rewrite Hpath in *.
  destruct rest as [|c2 [|c3 rest]]; try discriminate Hdrive.
  assert (Hletter : JS.isLetter c = true).
  { simpl in Hdrive. now destruct (JS.isLetter c). }
  assert (Hcolon : c2 = JS.colon).
  { simpl in Hdrive. destruct (JS.isLetter c); [|discriminate].
    destruct (Ascii.eqb_spec c2 JS.colon); [assumption | discriminate]. }
  subst c2.
  set (path0 := String c (String JS.colon (String c3 rest))).
  assert (Hshape : ∀ tail,
             JS.matchDriveBackslash (String c (String JS.colon (String c3 tail))) = true).
  { intros tail. exact Hdrive. }
  destruct (kind_eqb kind Folder && negb (JS.endsWith path0 (JS.str JS.backslash)))
    eqn:Happend.
  - unfold path0. rewrite !JS_app_cons. rewrite String.eqb_refl, Hshape. simpl andb.
    change 2 with (Z.of_nat 2). rewrite JS_slice_from_drop by (simpl; lia).
    simpl JS.drop.
    exists (String JS.colon (String c3 (rest +:+ JS.str JS.backslash))).
    split; [reflexivity|]. split; [now apply JS_toUpperCase_letter|].
    apply andb_true_iff in Happend as [Hkind _].
    assert (kind = Folder) as -> by (now destruct kind).
    split; [right; split; reflexivity | discriminate].
  - unfold path0. rewrite String.eqb_refl, Hshape. simpl andb.
    change 2 with (Z.of_nat 2). rewrite JS_slice_from_drop by (simpl; lia).
    simpl JS.drop.
    exists (String JS.colon (String c3 rest)).
    split; [reflexivity|]. split; [now apply JS_toUpperCase_letter|].
    split; [now left | reflexivity].
Qed.

End FriendlyPathProperties.

(** ** The last word and its folder *)

Section LastWordProperties.

Context `{Platform}.

Implicit Types (cfg : TerminalResourceRequestConfig) (prompt : string) (cursor : Z).

(** The last word ends the text before the cursor. *)
Lemma lastWord_suffix cfg prompt cursor :
  ∃ before, cursorPrefix cfg prompt cursor = before +:+ lastWord cfg prompt cursor.
Proof.
  unfold lastWord.
  destruct (lastWordOf_shape (cursorPrefix cfg prompt cursor)) as [_ [Heq|[before Heq]]].
  - exists EmptyString. exact Heq.
  - exists (before +:+ JS.str JS.space). rewrite JS_app_assoc. exact Heq.
Qed.

Lemma promptValue_length cfg prompt :
  String.length (promptValue cfg prompt) = String.length prompt.
Proof.
  unfold promptValue. destruct (useWindowsStylePath cfg); [|reflexivity].
  apply JS_length_replaceAll.
Qed.

Lemma promptValue_no_slash cfg prompt :
  useWindowsStylePath cfg = true → ¬ holds JS.slash (promptValue cfg prompt).
Proof.
  unfold promptValue. intros ->.
  apply JS_replaceAll_free; [reflexivity | reflexivity | discriminate].
Qed.

Lemma lastWord_no_slash cfg prompt cursor :
  useWindowsStylePath cfg = true → ¬ holds JS.slash (lastWord cfg prompt cursor).
Proof.
  intros Hwin Hin. apply (promptValue_no_slash cfg prompt Hwin).
  destruct (lastWord_suffix cfg prompt cursor) as [before Heq].
  apply (holds_take _ (Z.to_nat cursor)).
  rewrite <- JS_substring_0. fold (cursorPrefix cfg prompt cursor).
  rewrite Heq. now apply holds_app_r.
Qed.

(** X3. Normalizing the separators of the prompt keeps its length, so that
    the cursor position means the same before and after; on a configuration
    whose separator is the backslash no forward slash is left in the prompt
    or in the last word, and normalizing again changes nothing. *)
Theorem promptValue_normalization cfg prompt cursor :
  JS.length (promptValue cfg prompt) = JS.length prompt
  ∧ promptValue cfg (promptValue cfg prompt) = promptValue cfg prompt
  ∧ (useWindowsStylePath cfg = true →
     ¬ holds JS.slash (promptValue cfg prompt)
     ∧ ¬ holds JS.slash (lastWord cfg prompt cursor)).
Proof.
  split; [unfold JS.length; now rewrite promptValue_length|]. split.
  - unfold promptValue. destruct (useWindowsStylePath cfg); [|reflexivity].
    apply JS_replaceAll_idem.
  - intros Hwin. split; [now apply promptValue_no_slash | now apply lastWord_no_slash].
Qed.

(** Where the end of the text before the cursor stands in the text. *)
Lemma JS_substring_tail (P before word : string) (cursor : Z) :
  0 ≤ cursor →
  JS.take (Z.to_nat cursor) P = before +:+ word →
  0 ≤ cursor - JS.length word
  ∧ (cursor ≤ JS.length P →
     JS.substring P (cursor - JS.length word) cursor = word).
Proof.
  intros Hcursor Heq.
  assert (Hlen : (String.length before + String.length word
                  = Nat.min (Z.to_nat cursor) (String.length P))%nat).
  { rewrite <- JS_length_take, Heq. now rewrite JS_length_app. }
  unfold JS.length. split; [lia|].
  intros Hin.
  replace (cursor - Z.of_nat (String.length word))
    with (Z.of_nat (String.length before)) by lia.
  rewrite <- (Z2Nat.id cursor) at 1 by lia.
  rewrite JS_substring_within by lia.
  replace (Z.to_nat cursor - String.length before)%nat with (String.length word) by lia.
  rewrite <- (JS_take_drop (Z.to_nat cursor) P), Heq, JS_app_assoc.
  rewrite JS_drop_app. apply JS_take_app.
Qed.

(** X4. For a cursor that is not negative the replacement index of path
    resolution is not negative either; and for a cursor inside the prompt
    the replacement span, from that index to the cursor, is exactly where
    the last word stands in the normalized prompt. *)
Theorem replacement_span_covers_last_word cfg prompt cursor :
  0 ≤ cursor →
  0 ≤ cursor - JS.length (lastWord cfg prompt cursor)
  ∧ (cursor ≤ JS.length prompt →
     JS.substring (promptValue cfg prompt)
       (cursor - JS.length (lastWord cfg prompt cursor)) cursor
     = lastWord cfg prompt cursor).
Proof.
  intros Hcursor.
  destruct (lastWord_suffix cfg prompt cursor) as [before Heq].
  unfold cursorPrefix in Heq. rewrite JS_substring_0 in Heq.
  set (word := lastWord cfg prompt cursor) in *.
  set (P := promptValue cfg prompt) in *.
  assert (Hlen : (String.length before + String.length word
                  = Nat.min (Z.to_nat cursor) (String.length P))%nat).
  { rewrite <- JS_length_take, Heq. now rewrite JS_length_app. }
  unfold JS.length. split; [lia|].
  intros Hin. fold (JS.length prompt) in Hin. unfold JS.length in Hin.
  assert (HP : String.length P = String.length prompt) by apply promptValue_length.
  replace (cursor - Z.of_nat (String.length word))
    with (Z.of_nat (String.length before)) by lia.
  rewrite <- (Z2Nat.id cursor) at 1 by lia.
  rewrite JS_substring_within by lia.
  replace (Z.to_nat cursor - String.length before)%nat with (String.length word) by lia.
  rewrite <- (JS_take_drop (Z.to_nat cursor) P), Heq, JS_app_assoc.
  rewrite JS_drop_app. apply JS_take_app.
Qed.

(** X5. With a separator of one code unit, the folder of the last word is
    the complete folder: the last word is its folder followed by a rest
    that holds no separator, and the folder is empty or ends with the
    separator. *)
Theorem lastWordFolder_is_complete cfg prompt cursor (c : ascii) :
  pathSeparator cfg = JS.str c →
  ∃ rest,
    lastWord cfg prompt cursor = lastWordFolder cfg prompt cursor +:+ rest
    ∧ ¬ holds c rest
    ∧ (lastWordFolder cfg prompt cursor = EmptyString
       ∨ ∃ before, lastWordFolder cfg prompt cursor = before +:+ JS.str c).
Proof.
  intros Hsep. unfold lastWordFolder, lastWordFolderOf, lastSlashIndexOf.
  rewrite Hsep.
  pose proof (lastWord_no_slash cfg prompt cursor) as Hslash.
  set (word := lastWord cfg prompt cursor) in *.
  assert (Hcut : ∀ before after,
             JS.slice (before +:+ String c after) 0 (Z.of_nat (String.length before) + 1)
             = before +:+ JS.str c).
  { intros before after.
    replace (Z.of_nat (String.length before) + 1)
      with (Z.of_nat (String.length (before +:+ JS.str c)))
      by (rewrite JS_length_app; simpl; lia).
    replace (before +:+ String c after) with ((before +:+ JS.str c) +:+ after)
      by (now rewrite JS_app_assoc).
    rewrite JS_slice_0 by (rewrite !JS_length_app; lia).
    apply JS_take_app. }
  assert (Hposix :
            let folder :=
              if JS.lastIndexOf word (JS.str c) =? -1 then EmptyString
              else JS.slice word 0 (JS.lastIndexOf word (JS.str c) + 1) in
            ∃ rest, word = folder +:+ rest ∧ ¬ holds c rest
                    ∧ (folder = EmptyString ∨ ∃ before, folder = before +:+ JS.str c)).
  { destruct (JS_lastIndexOf_char c word)
      as [[-> Hfree]|(before & after & Hword & Hfree & ->)]; simpl.
    - exists word. split; [reflexivity|]. split; [exact Hfree | now left].
    - destruct (Z.eqb_spec (Z.of_nat (String.length before)) (-1)) as [?|_]; [lia|].
      rewrite Hword, Hcut. exists after.
      split; [now rewrite JS_app_assoc|]. split; [exact Hfree|]. right. now exists before. }
  destruct (useWindowsStylePath cfg) eqn:Hwin.
  - unfold useWindowsStylePath in Hwin. apply String.eqb_eq in Hwin.
    rewrite Hwin in Hsep. injection Hsep as <-.
    specialize (Hslash eq_refl).
    destruct (JS_lastIndexOf_char JS.slash word)
      as [[Hnone _]|(before & after & Hword & _ & _)];
      [|exfalso; apply Hslash; rewrite Hword; now exists before, after].
    rewrite Hnone.
    assert (Hmax : Z.max (JS.lastIndexOf word (JS.str JS.backslash)) (-1)
                   = JS.lastIndexOf word (JS.str JS.backslash)).
    { destruct (JS_lastIndexOf_char JS.backslash word)
        as [[-> _]|(? & ? & _ & _ & ->)]; lia. }
    rewrite Hmax. cbv zeta in Hposix.
    destruct Hposix as (rest & Hword & Hfree & Hshape).
    rewrite JS_replaceAll_id.
    + exists rest. auto.
    + intros Hin. apply Hslash. rewrite Hword. now apply holds_app_l.
  - exact Hposix.
Qed.

End LastWordProperties.

(** ** The replacement span of path resolution *)

Section WordSpanProperties.

Context `{Platform} `{!Services}.

Implicit Types (cfg : TerminalResourceRequestConfig) (prompt pid : string)
  (cursor : Z) (caps : ITerminalCapabilityStore) (tr : list event).

(** C1. Every item that [resolveResources] returns for a request has the
    same replacement span, that of the current word. The current word is
    the end of the text before the cursor that holds no space: that text is
    the word, or ends with a space followed by the word. The index of each
    item is the cursor position less the length of the word, its length is
    the length of the word, and so the span ends at the cursor; for a cursor
    inside the prompt the span is where the word stands in the prompt (after
    its separators are normalized, which keeps its length, and which is done
    on a configuration whose separator is the backslash only). The items are
    the placeholder of the tilde case, or the item of the folder itself, the
    items of the children, the CDPATH items and the item of the parent
    directory. *)
Theorem resolveResources_items_share_word_span cfg prompt cursor pid caps tr items tr' :
  resolveResources cfg prompt cursor pid caps tr = (Fulfilled (Some items), tr') →
  ∃ word,
    ¬ holds JS.space word
    ∧ (JS.substring (promptValue cfg prompt) 0 cursor = word
       ∨ ∃ before,
           JS.substring (promptValue cfg prompt) 0 cursor
           = before +:+ String JS.space word)
    ∧ JS.length (promptValue cfg prompt) = JS.length prompt
    ∧ (useWindowsStylePath cfg = false → promptValue cfg prompt = prompt)
    ∧ Forall (λ it,
                replacementIndex it = cursor - JS.length word
                ∧ replacementLength it = JS.length word
                ∧ replacementIndex it + replacementLength it = cursor
                ∧ (0 ≤ cursor ≤ JS.length prompt →
                   0 ≤ replacementIndex it
                   ∧ JS.substring (promptValue cfg prompt) (replacementIndex it)
                       (replacementIndex it + replacementLength it)
                     = word)) items.
Proof.
  intros Hres. exists (lastWord cfg prompt cursor).
  destruct (lastWordOf_shape (cursorPrefix cfg prompt cursor)) as [Hfree Hshape].
  split; [exact Hfree|]. split; [exact Hshape|].
  split; [unfold JS.length; now rewrite promptValue_length|].
  split; [unfold promptValue; now intros ->|].
  eapply Forall_impl; [exact (resolveResources_spans _ _ _ _ _ _ _ _ Hres)|].
  intros it [Hi Hl]. simpl. rewrite Hi, Hl.
  split; [reflexivity|]. split; [reflexivity|]. split; [lia|].
  intros [Hcursor Hin].
  destruct (lastWord_suffix cfg prompt cursor) as [before Heq].
  unfold cursorPrefix in Heq. rewrite JS_substring_0 in Heq.
  destruct (JS_substring_tail _ _ _ _ Hcursor Heq) as [Hindex Hspan].
  split; [exact Hindex|].
  replace (cursor - JS.length (lastWord cfg prompt cursor)
           + JS.length (lastWord cfg prompt cursor)) with cursor by lia.
  apply Hspan. unfold JS.length in *. now rewrite promptValue_length.
Qed.

End WordSpanProperties.

(** ** The listing of path resolution *)

Section ListingProperties.

Context `{Platform} `{!Services}.

Implicit Types (cfg : TerminalResourceRequestConfig) (prompt pid : string)
  (cursor : Z) (caps : ITerminalCapabilityStore) (tr : list event).

Lemma cdPathCompletions_entries cfg prompt cursor pid caps acc tr :
  cdPathCompletions cfg prompt cursor pid caps (default false (foldersRequested cfg)) acc tr
  = cdPathLoop cfg prompt cursor pid (CdPath _configurationService)
      (cdPathEntriesOf cfg prompt cursor caps) acc tr.
Proof.
  unfold cdPathCompletions, cdPathEntriesOf.
  destruct (PathType_eqb (type cfg prompt cursor) relative
            && default false (foldersRequested cfg)); [|reflexivity].
  destruct (JS.startsWith (promptValue cfg prompt) "cd "); [|reflexivity].
  destruct (String.eqb (CdPath _configurationService) "absolute"
            || String.eqb (CdPath _configurationService) "relative"); [|reflexivity].
  simpl. destruct (capabilities_env caps ≫= _) as [cdPath|]; [|reflexivity].
  now destruct (JS.truthy cdPath).
Qed.

(** Past the guard, with the folder of the last word known and listed,
    [resolveResources] returns the listing and has made its lookups. *)
Lemma resolveResources_listing cfg prompt cursor pid caps tr workingDirectory folder stat cs :
  cwd cfg = Some workingDirectory →
  resourcesRequested cfg = true →
  lastWordFolderResource cfg prompt cursor caps workingDirectory = Some (inl folder) →
  _fileService_resolve folder = Fulfilled stat →
  stat ≫= children = Some cs →
  resolveResources cfg prompt cursor pid caps tr
  = (Fulfilled (Some (listing cfg prompt cursor pid caps workingDirectory folder cs)),
     tr ++ listingLookups cfg prompt cursor caps folder).
Proof.
  intros Hcwd Hreq Hfolder Hstat Hcs.
  unfold resolveResources, resourcesRequested in *. rewrite Hcwd, Hfolder.
  assert (Hguard : negb (default false (foldersRequested cfg))
                   && negb (default false (filesRequested cfg)) = false).
  { apply orb_true_iff in Hreq as [-> | ->]; [reflexivity | apply andb_false_r]. }
  rewrite Hguard. unfold bind at 1, fileService_resolve. rewrite Hstat, Hcs.
  unfold bind. rewrite cdPathCompletions_entries, cdPathLoop_total.
  unfold listing, listingLookups, ret.
  destruct (PathType_eqb (type cfg prompt cursor) relative
            && default false (foldersRequested cfg));
    rewrite <- ?app_assoc; simpl; rewrite ?app_nil_r; reflexivity.
Qed.

(** What a fulfilled [resolveResources] with items has done: it has
    returned the placeholder of the tilde case without a lookup, or a
    listing with its lookups. *)
Lemma resolveResources_inv cfg prompt cursor pid caps tr items tr' :
  resolveResources cfg prompt cursor pid caps tr = (Fulfilled (Some items), tr') →
  ∃ workingDirectory,
    cwd cfg = Some workingDirectory
    ∧ resourcesRequested cfg = true
    ∧ ((∃ text,
          lastWordFolderResource cfg prompt cursor caps workingDirectory = Some (inr text)
          ∧ items = [placeholderCompletion cfg prompt cursor pid text] ∧ tr' = tr)
       ∨ (∃ folder stat cs,
            lastWordFolderResource cfg prompt cursor caps workingDirectory
            = Some (inl folder)
            ∧ _fileService_resolve folder = Fulfilled stat
            ∧ stat ≫= children = Some cs
            ∧ items = listing cfg prompt cursor pid caps workingDirectory folder cs
            ∧ tr' = tr ++ listingLookups cfg prompt cursor caps folder)).
Proof.
  intros Hres.
  destruct (cwd cfg) as [workingDirectory|] eqn:Hcwd;
    [|unfold resolveResources in Hres; rewrite Hcwd in Hres; discriminate].
  exists workingDirectory. split; [reflexivity|].
  destruct (resourcesRequested cfg) eqn:Hreq;
    [|rewrite resolveResources_guard in Hres by (now right); discriminate].
  split; [reflexivity|].
  destruct (lastWordFolderResource cfg prompt cursor caps workingDirectory)
    as [[folder|text]|] eqn:Hfolder.
  - right. destruct (_fileService_resolve folder) as [stat|e] eqn:Hstat.
    + destruct (stat ≫= children) as [cs|] eqn:Hcs.
      * rewrite (resolveResources_listing _ _ _ _ _ _ _ _ _ _ Hcwd Hreq Hfolder Hstat Hcs)
          in Hres.
        injection Hres as <- <-. now exists folder, stat, cs.
      * exfalso. revert Hres. unfold resolveResources, resourcesRequested in *.
        rewrite Hcwd, Hfolder.
        destruct (negb _ && negb _); [discriminate|].
        unfold bind, fileService_resolve. rewrite Hstat, Hcs. discriminate.
    + rewrite (resolveResources_lookup_rejected _ _ _ _ _ _ _ _ _ Hcwd Hreq Hfolder Hstat)
        in Hres. discriminate.
  - left. exists text. split; [reflexivity|].
    revert Hres. unfold resolveResources, resourcesRequested in *.
    rewrite Hcwd, Hfolder.
    destruct (negb _ && negb _); [discriminate|].
    intros [= <- <-]. split; reflexivity.
  - exfalso. revert Hres. unfold resolveResources. rewrite Hcwd, Hfolder.
    destruct (negb _ && negb _); discriminate.
Qed.

Lemma JS_matchDotPrefix_app (s t : string) :
  JS.matchDotPrefix s = true → JS.matchDotPrefix (s +:+ t) = true.
Proof.
  destruct s as [|c1 [|c2 [|c3 rest]]]; try discriminate.
  - rewrite !JS_app_cons, JS_app_nil. simpl.
    destruct (Ascii.eqb c1 JS.dot); [|discriminate]. simpl.
    destruct (JS.isSlash c2); [reflexivity|]. simpl.
    now rewrite andb_false_r.
  - rewrite !JS_app_cons. simpl. tauto.
Qed.

Lemma addPathRelativePrefix_dot (text sep : string) (folderHasDotPrefix : bool) :
  sep = JS.str JS.slash ∨ sep = JS.str JS.backslash →
  (folderHasDotPrefix = true → JS.matchDotPrefix text = true) →
  JS.matchDotPrefix (addPathRelativePrefix text sep folderHasDotPrefix) = true.
Proof.
  intros Hsep Hdot. unfold addPathRelativePrefix.
  destruct folderHasDotPrefix; simpl; [now apply Hdot|].
  now destruct Hsep as [-> | ->].
Qed.

(** X6. With the slash or the backslash as separator and a relative last
    word, the labels of the children and of the parent directory start
    with a dot, an optional second dot and a slash or backslash: the prefix
    the user typed, or the one that is added. The label of the folder
    itself is a lone dot or starts in the same way. *)
Theorem relative_labels_start_with_dot cfg prompt cursor pid :
  type cfg prompt cursor = relative →
  pathSeparator cfg = JS.str JS.slash ∨ pathSeparator cfg = JS.str JS.backslash →
  (∀ folders files child it,
     childCompletion cfg prompt cursor pid folders files child = Some it →
     JS.matchDotPrefix (label it) = true)
  ∧ (∀ workingDirectory,
       JS.matchDotPrefix (label (parentCompletion cfg prompt cursor pid workingDirectory))
       = true)
  ∧ (∀ folder,
       label (currentFolderCompletion cfg prompt cursor pid folder) = JS.str JS.dot
       ∨ JS.matchDotPrefix (label (currentFolderCompletion cfg prompt cursor pid folder))
         = true).
Proof.
  intros Htype Hsep. split; [|split].
  - intros folders files child it. unfold childCompletion. rewrite Htype.
    destruct (if folders && isDirectory child then Some Folder
              else if files && isFile child then Some File else None);
      [|discriminate].
    intros [= <-]. simpl label. simpl PathType_eqb. cbv iota.
    match goal with
    | |- JS.matchDotPrefix (if ?b then ?x +:+ _ else ?x) = true =>
        assert (Hx : JS.matchDotPrefix x = true);
        [|destruct b; [now apply JS_matchDotPrefix_app | exact Hx]]
    end.
    apply addPathRelativePrefix_dot; [exact Hsep|].
    unfold lastWordFolderHasDotPrefix. intros Hdot.
    apply JS_matchDotPrefix_app.
    destruct (_ && _); [now apply JS_matchDotPrefix_app | exact Hdot].
  - intros workingDirectory. unfold parentCompletion. simpl label.
    destruct (0 <? JS.length (lastWordFolder cfg prompt cursor)).
    + apply addPathRelativePrefix_dot; [exact Hsep|].
      unfold lastWordFolderHasDotPrefix. apply JS_matchDotPrefix_app.
    + now destruct Hsep as [-> | ->].
  - intros folder. unfold currentFolderCompletion. rewrite Htype. simpl label.
    destruct (0 <? JS.length (lastWordFolder cfg prompt cursor)); [right | now left].
    apply addPathRelativePrefix_dot; [exact Hsep|].
    unfold lastWordFolderHasDotPrefix. tauto.
Qed.

Lemma lastWordFolderResource_relative cfg prompt cursor caps workingDirectory :
  type cfg prompt cursor = relative →
  lastWordFolderResource cfg prompt cursor caps workingDirectory
  = Some (inl workingDirectory).
Proof. unfold lastWordFolderResource. now intros ->. Qed.

Lemma cdPathEntriesOf_gate cfg prompt cursor caps :
  type cfg prompt cursor ≠ relative
  ∨ default false (foldersRequested cfg) = false
  ∨ JS.startsWith (promptValue cfg prompt) "cd " = false
  ∨ (CdPath _configurationService ≠ "absolute"
     ∧ CdPath _configurationService ≠ "relative") →
  cdPathEntriesOf cfg prompt cursor caps = [].
Proof.
  unfold cdPathEntriesOf. intros [Htype|[Hfolders|[Hcd|[Habs Hrel]]]].
  - now destruct (type cfg prompt cursor).
  - rewrite Hfolders. now rewrite andb_false_r.
  - rewrite Hcd. now rewrite andb_false_r.
  - apply String.eqb_neq in Habs, Hrel. rewrite Habs, Hrel. now rewrite andb_false_r.
Qed.

(** X7. For a relative last word with folders asked for, the folder that
    is listed is the working directory, the first item of the result is the
    item of the folder itself and the last one is the item of the parent
    directory. *)
Theorem relative_listing_layout cfg prompt cursor pid caps tr items tr' :
  resolveResources cfg prompt cursor pid caps tr = (Fulfilled (Some items), tr') →
  type cfg prompt cursor = relative →
  default false (foldersRequested cfg) = true →
  ∃ workingDirectory middle lookups,
    cwd cfg = Some workingDirectory
    ∧ items = currentFolderCompletion cfg prompt cursor pid workingDirectory
              :: middle ++ [parentCompletion cfg prompt cursor pid workingDirectory]
    ∧ tr' = tr ++ Resolve workingDirectory :: lookups.
Proof.
  intros Hres Htype Hfolders.
  apply resolveResources_inv in Hres
    as (workingDirectory & Hcwd & _ & [(text & Hfolder & _)
                                      |(folder & stat & cs & Hfolder & _ & _ & -> & ->)]);
    rewrite lastWordFolderResource_relative in Hfolder by exact Htype;
    [discriminate|].
  injection Hfolder as <-.
  unfold listing, listingLookups. rewrite Htype, Hfolders. simpl.
  eexists workingDirectory, _, _. split; [exact Hcwd|].
  split; [|reflexivity]. now rewrite app_assoc.
Qed.

(** X8. For a last word that is not relative, the result is the tilde
    placeholder, with no lookup, or the item of the folder itself followed
    by the items of its children, with one lookup: of the folder of the last
    word as a path when the last word is absolute, of that folder below the
    home directory when it starts with a tilde. There is no CDPATH item and
    no item of the parent directory, and the working directory is not what
    is listed. *)
Theorem nonrelative_listing cfg prompt cursor pid caps tr items tr' :
  resolveResources cfg prompt cursor pid caps tr = (Fulfilled (Some items), tr') →
  type cfg prompt cursor ≠ relative →
  (∃ text,
     type cfg prompt cursor = tilde
     ∧ homeResource cfg prompt cursor caps = None
     ∧ items = [placeholderCompletion cfg prompt cursor pid text] ∧ tr' = tr)
  ∨ (∃ folder stat cs,
       (type cfg prompt cursor = absolute
        ∧ folder = URI_file (lastWordFolder cfg prompt cursor)
        ∨ type cfg prompt cursor = tilde
          ∧ homeResource cfg prompt cursor caps = Some folder)
       ∧ _fileService_resolve folder = Fulfilled stat
       ∧ stat ≫= children = Some cs
       ∧ items = (if default false (foldersRequested cfg)
                  then [currentFolderCompletion cfg prompt cursor pid folder] else [])
                 ++ omap (childCompletion cfg prompt cursor pid
                            (default false (foldersRequested cfg))
                            (default false (filesRequested cfg))) cs
       ∧ tr' = tr ++ [Resolve folder]).
Proof.
  intros Hres Htype.
  apply resolveResources_inv in Hres
    as (workingDirectory & Hcwd & _ & [(text & Hfolder & -> & ->)
                                      |(folder & stat & cs & Hfolder & Hstat & Hcs & -> & ->)]).
  - left. exists text. unfold lastWordFolderResource in Hfolder.
    destruct (type cfg prompt cursor); [|discriminate..].
    destruct (homeResource cfg prompt cursor caps); [discriminate|]. auto.
  - right. exists folder, stat, cs.
    unfold listing, listingLookups.
    rewrite cdPathEntriesOf_gate by (now left).
    assert (Hnot : PathType_eqb (type cfg prompt cursor) relative = false)
      by (now destruct (type cfg prompt cursor)).
    rewrite Hnot. simpl. rewrite !app_nil_r.
    split; [|auto]. unfold lastWordFolderResource in Hfolder.
    destruct (type cfg prompt cursor); [| |contradiction].
    + right. split; [reflexivity|].
      destruct (homeResource cfg prompt cursor caps); [|discriminate].
      now injection Hfolder as ->.
    + left. split; [reflexivity|]. now injection Hfolder as <-.
Qed.

Lemma childCompletion_kind cfg prompt cursor pid folders files child it :
  childCompletion cfg prompt cursor pid folders files child = Some it →
  (kind it = Some Folder ∧ folders = true ∧ isDirectory child = true)
  ∨ (kind it = Some File ∧ files = true ∧ isFile child = true).
Proof.
  unfold childCompletion.
  destruct (folders && isDirectory child) eqn:Hdir.
  - intros [= <-]. left. apply andb_true_iff in Hdir. tauto.
  - destruct (files && isFile child) eqn:Hfile; [|discriminate].
    intros [= <-]. right. apply andb_true_iff in Hfile. tauto.
Qed.

Lemma cdPathEntryContribution_kind cfg prompt cursor pid config cdPathEntry :
  Forall (λ it, kind it = Some Folder)
    (cdPathEntryContribution cfg prompt cursor pid config cdPathEntry).
Proof.
  unfold cdPathEntryContribution, cdPathEntryCompletions.
  destruct (_fileService_resolve (URI_file cdPathEntry)) as [[st|]|]; try constructor.
  destruct (children st); [|constructor].
  apply Forall_omap_span. intros child it. unfold cdPathChildCompletion.
  destruct (negb (isDirectory child)); [discriminate|]. now intros [= <-].
Qed.

(** X9. Every item of path resolution is a folder or a file. A request
    that does not ask for files gets folders only. A request that does not
    ask for folders gets files only, each one a child that is a file, or
    gets the tilde placeholder, which is a folder. *)
Theorem resolveResources_kinds cfg prompt cursor pid caps tr items tr' :
  resolveResources cfg prompt cursor pid caps tr = (Fulfilled (Some items), tr') →
  Forall (λ it, kind it = Some Folder ∨ kind it = Some File) items
  ∧ (default false (filesRequested cfg) = false →
     Forall (λ it, kind it = Some Folder) items)
  ∧ (default false (foldersRequested cfg) = false →
     Forall (λ it, kind it = Some File) items
     ∨ ∃ text, items = [placeholderCompletion cfg prompt cursor pid text]).
Proof.
  intros Hres.
  apply resolveResources_inv in Hres
    as (workingDirectory & _ & _ & [(text & _ & -> & _)
                                   |(folder & stat & cs & _ & _ & _ & -> & _)]).
  { split; [repeat constructor; now left|].
    split; [intros _; now repeat constructor | intros _; right; now exists text]. }
  assert (Hall : Forall (λ it, kind it = Some Folder
                               ∧ default false (foldersRequested cfg) = true
                               ∨ kind it = Some File
                                 ∧ default false (filesRequested cfg) = true)
                   (listing cfg prompt cursor pid caps workingDirectory folder cs)).
  { unfold listing. repeat (apply Forall_app; split).
    - destruct (default false (foldersRequested cfg)); repeat constructor.
    - apply Forall_omap_span. intros child it Hit.
      apply childCompletion_kind in Hit. tauto.
    - destruct (default false (foldersRequested cfg)) eqn:Hf.
      + apply Forall_flat_map, Forall_forall. intros e _.
        eapply Forall_impl; [apply cdPathEntryContribution_kind|]. simpl. now left.
      + rewrite cdPathEntriesOf_gate by (right; now left). constructor.
    - destruct (default false (foldersRequested cfg));
        rewrite ?andb_false_r, ?andb_true_r.
      + destruct (PathType_eqb _ _); repeat constructor.
      + constructor. }
  split; [|split].
  - eapply Forall_impl; [exact Hall|]. simpl. tauto.
  - intros Hfiles. eapply Forall_impl; [exact Hall|]. simpl.
    intros it [[Hk _]|[_ Hf]]; [exact Hk | congruence].
  - intros Hfolders. left. eapply Forall_impl; [exact Hall|]. simpl.
    intros it [[_ Hf]|[Hk _]]; [congruence | exact Hk].
Qed.

(** Whatever [resolveResources] settles with, it has made no lookup, or
    the lookup of the folder of the last word alone, or that lookup and
    then those of the CDPATH entries, in order. *)
Lemma resolveResources_trace cfg prompt cursor pid caps tr :
  (resolveResources cfg prompt cursor pid caps tr).2 = tr
  ∨ ∃ folder,
      (resolveResources cfg prompt cursor pid caps tr).2 = tr ++ [Resolve folder]
      ∨ (resolveResources cfg prompt cursor pid caps tr).2
        = tr ++ listingLookups cfg prompt cursor caps folder.
Proof.
  destruct (cwd cfg) as [workingDirectory|] eqn:Hcwd;
    [|left; now rewrite resolveResources_guard by (now left)].
  destruct (resourcesRequested cfg) eqn:Hreq;
    [|left; now rewrite resolveResources_guard by (now right)].
  destruct (lastWordFolderResource cfg prompt cursor caps workingDirectory)
    as [[folder|text]|] eqn:Hfolder.
  - right. exists folder.
    destruct (_fileService_resolve folder) as [stat|e] eqn:Hstat.
    + destruct (stat ≫= children) as [cs|] eqn:Hcs.
      * right.
        now rewrite (resolveResources_listing _ _ _ _ _ _ _ _ _ _
                       Hcwd Hreq Hfolder Hstat Hcs).
      * left. unfold resolveResources, resourcesRequested in *.
        rewrite Hcwd, Hfolder.
        apply orb_true_iff in Hreq.
        destruct (default false (foldersRequested cfg)),
          (default false (filesRequested cfg)); simpl;
          try (destruct Hreq; discriminate);
          unfold bind, fileService_resolve; now rewrite Hstat, Hcs.
    + left.
      now rewrite (resolveResources_lookup_rejected _ _ _ _ _ _ _ _ _
                     Hcwd Hreq Hfolder Hstat).
  - left. unfold resolveResources. rewrite Hcwd, Hfolder.
    now destruct (negb _ && negb _).
  - left. unfold resolveResources. rewrite Hcwd, Hfolder.
    now destruct (negb _ && negb _).
Qed.

(** X10. Unless the last word is relative, folders are asked for, the
    normalized prompt starts with [cd ] and the setting is [absolute] or
    [relative], path resolution makes at most one lookup, whatever it
    settles with: no CDPATH entry is looked up. *)
Theorem cdpath_is_for_cd_only cfg prompt cursor pid caps tr :
  type cfg prompt cursor ≠ relative
  ∨ default false (foldersRequested cfg) = false
  ∨ JS.startsWith (promptValue cfg prompt) "cd " = false
  ∨ (CdPath _configurationService ≠ "absolute"
     ∧ CdPath _configurationService ≠ "relative") →
  (resolveResources cfg prompt cursor pid caps tr).2 = tr
  ∨ ∃ folder, (resolveResources cfg prompt cursor pid caps tr).2 = tr ++ [Resolve folder].
Proof.
  intros Hgate.
  destruct (resolveResources_trace cfg prompt cursor pid caps tr)
    as [Hnone|(folder & [Hone|Hall])]; [now left | right; now exists folder |].
  right. exists folder. rewrite Hall. unfold listingLookups.
  now rewrite cdPathEntriesOf_gate.
Qed.

End ListingProperties.

(** ** More on aggregation *)

Section CollectProperties.

Context `{Platform} `{!Services}.

Implicit Types (cfg : TerminalResourceRequestConfig) (prompt pid : string)
  (cursor : Z) (shell : TerminalShellType)
  (caps : ITerminalCapabilityStore) (tr : list event)
  (p : ITerminalCompletionProvider) (ps : list ITerminalCompletionProvider)
  (this : TerminalCompletionService).

(** [resolveResources] settles in the same way from every trace, and adds
    lookups only. *)
Lemma resolveResources_run cfg prompt cursor pid caps :
  ∃ o lookups,
    (∀ tr, resolveResources cfg prompt cursor pid caps tr = (o, tr ++ lookups))
    ∧ Forall isLookup lookups.
Proof.
  assert (Hnone : ∀ o,
             (∀ tr, resolveResources cfg prompt cursor pid caps tr = (o, tr)) →
             ∃ o lookups,
               (∀ tr, resolveResources cfg prompt cursor pid caps tr = (o, tr ++ lookups))
               ∧ Forall isLookup lookups).
  { intros o Ho. exists o, []. split; [|constructor].
    intros tr. now rewrite app_nil_r. }
  destruct (cwd cfg) as [workingDirectory|] eqn:Hcwd;
    [|apply (Hnone (Fulfilled None)); intros tr;
      now rewrite resolveResources_guard by (now left)].
  destruct (resourcesRequested cfg) eqn:Hreq;
    [|apply (Hnone (Fulfilled None)); intros tr;
      now rewrite resolveResources_guard by (now right)].
  assert (Hguard : negb (default false (foldersRequested cfg))
                   && negb (default false (filesRequested cfg)) = false).
  { unfold resourcesRequested in Hreq.
    apply orb_true_iff in Hreq as [-> | ->]; [reflexivity | apply andb_false_r]. }
  destruct (lastWordFolderResource cfg prompt cursor caps workingDirectory)
    as [[folder|text]|] eqn:Hfolder.
  - destruct (_fileService_resolve folder) as [stat|e] eqn:Hstat.
    + destruct (stat ≫= children) as [cs|] eqn:Hcs.
      * eexists _, _. split.
        -- intros tr. apply (resolveResources_listing _ _ _ _ _ _ _ _ _ _
                               Hcwd Hreq Hfolder Hstat Hcs).
        -- unfold listingLookups. constructor; [exact I|].
           apply List.Forall_forall. intros ev (e & <- & _)%in_map_iff. exact I.
      * exists (Fulfilled None), [Resolve folder]. split; [|repeat constructor].
        intros tr. unfold resolveResources. rewrite Hcwd, Hfolder, Hguard.
        unfold bind, fileService_resolve. now rewrite Hstat, Hcs.
    + exists (Rejected e), [Resolve folder]. split; [|repeat constructor].
      intros tr. now apply resolveResources_lookup_rejected with workingDirectory.
  - apply (Hnone (Fulfilled (Some [placeholderCompletion cfg prompt cursor pid text]))).
    intros tr. unfold resolveResources. now rewrite Hcwd, Hfolder, Hguard.
  - apply (Hnone (Fulfilled None)).
    intros tr. unfold resolveResources. now rewrite Hcwd, Hfolder, Hguard.
Qed.

(** So does the callback of a provider. *)
Lemma callback_run prompt cursor shell caps p tr :
  callback prompt cursor shell caps p tr
  = (contribution prompt cursor shell caps p,
     tr ++ lookupsOf prompt cursor shell caps p)
  ∧ Forall isLookup (lookupsOf prompt cursor shell caps p).
Proof.
  assert (Hrun : ∃ o lookups,
             (∀ tr, callback prompt cursor shell caps p tr = (o, tr ++ lookups))
             ∧ Forall isLookup lookups).
  { assert (Hnone : ∀ o,
               (∀ tr, callback prompt cursor shell caps p tr = (o, tr)) →
               ∃ o lookups,
                 (∀ tr, callback prompt cursor shell caps p tr = (o, tr ++ lookups))
                 ∧ Forall isLookup lookups).
    { intros o Ho. exists o, []. split; [|constructor].
      intros tr0. now rewrite app_nil_r. }
    assert (Hstep : ∀ tr0,
               callback prompt cursor shell caps p tr0
               = resume prompt cursor shell caps p (startedOf prompt cursor shell p) tr0)
      by reflexivity.
    unfold startedOf in Hstep.
    destruct (shellTypeExcluded shell p).
    { apply (Hnone (Fulfilled None)). intros tr0. now rewrite Hstep. }
    destruct (provider_provideCompletions p prompt cursor) as [[completions|]|e].
    - destruct completions as [items|items [cfg|]].
      + apply (Hnone (Fulfilled (Some (ownItems shell p (ItemArray items))))).
        intros tr0. now rewrite Hstep.
      + destruct (resolveResources_run cfg prompt cursor (id p) caps)
          as (o & lookups & Hres & Hlookups).
        destruct o as [resourceCompletions|e].
        * eexists _, lookups. split; [|exact Hlookups].
          intros tr0. rewrite Hstep. simpl. unfold bind at 1. simpl.
          unfold bind. now rewrite Hres.
        * exists (Rejected e), lookups. split; [|exact Hlookups].
          intros tr0. rewrite Hstep. simpl. unfold bind at 1. simpl.
          unfold bind. now rewrite Hres.
      + apply (Hnone (Fulfilled None)). intros tr0. now rewrite Hstep.
    - apply (Hnone (Fulfilled None)). intros tr0. now rewrite Hstep.
    - apply (Hnone (Rejected e)). intros tr0. now rewrite Hstep. }
  destruct Hrun as (o & lookups & Hrun & Hlookups).
  unfold contribution, lookupsOf. rewrite (Hrun []), (Hrun tr). simpl. auto.
Qed.

Lemma settleAll_callbacks prompt cursor shell caps ps tr :
  settleAll (List.map (λ p, (settledAt p, callback prompt cursor shell caps p)) ps) tr
  = (List.map (settledCallback prompt cursor shell caps) ps,
     tr ++ flat_map (lookupsOf prompt cursor shell caps) ps).
Proof.
  revert tr. induction ps as [|p ps IH]; intros tr; simpl.
  - now rewrite app_nil_r.
  - rewrite (proj1 (callback_run prompt cursor shell caps p tr)), IH.
    now rewrite <- app_assoc.
Qed.

(** [_collectCompletions] calls the providers the shell type does not
    exclude, lets every callback settle, and gathers what they settle
    with. *)
Lemma _collectCompletions_run prompt cursor shell caps ps tr :
  _collectCompletions prompt cursor shell caps ps tr
  = (gathered (List.map (settledCallback prompt cursor shell caps) ps),
     tr ++ invocations prompt cursor shell ps
        ++ flat_map (lookupsOf prompt cursor shell caps) ps).
Proof.
  rewrite _collectCompletions_unfold, settleAll_callbacks. simpl.
  now rewrite <- app_assoc.
Qed.

(** The items of the settled callbacks of a list of providers. *)
Lemma settledCallbacks_items prompt cursor shell caps ps :
  flat_map (λ s, itemsOf s.2) (List.map (settledCallback prompt cursor shell caps) ps)
  = flat_map (λ p, itemsOf (contribution prompt cursor shell caps p)) ps.
Proof. induction ps as [|p ps IH]; simpl; [reflexivity | now rewrite IH]. Qed.

(** The callback that is rejected first, among those of a list of
    providers. *)
Lemma settledCallbacks_first prompt cursor shell caps ps instant e :
  firstRejection (List.map (settledCallback prompt cursor shell caps) ps)
  = Some (instant, e) →
  ∃ q, In q ps
       ∧ settledAt q = instant
       ∧ contribution prompt cursor shell caps q = Rejected e
       ∧ ∀ q' e', In q' ps →
                  contribution prompt cursor shell caps q' = Rejected e' →
                  (settledAt q ≤ settledAt q')%nat.
Proof.
  intros [Hin Hleast]%firstRejection_least.
  apply in_map_iff in Hin as (q & [= Hinstant Hq] & Hin).
  exists q. split; [exact Hin|]. split; [exact Hinstant|]. split; [exact Hq|].
  intros q' e' Hin' Hq'. rewrite Hinstant. apply (Hleast (settledAt q') e').
  apply in_map_iff. exists q'. split; [|exact Hin'].
  unfold settledCallback. now rewrite Hq'.
Qed.


(** X12. From a cursor position that is not negative, [provideCompletions]
    calls each selected provider that the shell type does not exclude
    exactly once, with the prompt and the cursor position, in the order of
    the selection and before any lookup, whether callbacks are rejected or
    not; it calls no other provider. *)
Theorem provideCompletions_invokes_the_selected prompt cursor shell caps this trigger skip tr :
  0 ≤ cursor →
  ∃ lookups,
    Forall isLookup lookups
    ∧ (provideCompletions prompt cursor shell caps this trigger skip tr).2
      = tr ++ invocations prompt cursor shell
                (selectedProviders prompt cursor this trigger skip)
           ++ lookups.
Proof.
  intros Hcursor.
  destruct (decide (skip = true ∨ selectedProviders prompt cursor this trigger skip ≠ []))
    as [Hsel|Hnone].
  - rewrite provideCompletions_selected by assumption.
    rewrite _collectCompletions_run. simpl. eexists. split; [|reflexivity].
    apply Forall_flat_map, Forall_forall. intros p _.
    apply (callback_run prompt cursor shell caps p []).
  - exists []. split; [constructor|].
    assert (Hskip : skip = false) by (destruct skip; tauto).
    assert (Hnil : selectedProviders prompt cursor this trigger skip = []).
    { destruct (selectedProviders prompt cursor this trigger skip); [reflexivity|].
      exfalso. apply Hnone. now right. }
    rewrite Hnil. simpl. rewrite app_nil_r.
    subst skip. unfold provideCompletions, selectedProviders in *.
    destruct (cursor <? 0); [reflexivity|]. now rewrite Hnil.
Qed.

Lemma gathered_without_none os1 os2 instant :
  gathered (os1 ++ (instant, Fulfilled None) :: os2) = gathered (os1 ++ os2).
Proof.
  rewrite !gathered_items, firstRejection_without, !flat_map_app. reflexivity.
Qed.

Lemma callback_excluded prompt cursor shell caps p tr :
  shellTypeExcluded shell p = true →
  callback prompt cursor shell caps p tr = (Fulfilled None, tr).
Proof. intros Hshell. unfold callback, startedOf. now rewrite Hshell. Qed.

(** X13. A provider that declares shell types without the shell type of
    the request is not called and adds nothing: [_collectCompletions]
    returns the same result and makes the same calls as on the providers
    that are left when these are taken out. *)
Theorem excluded_providers_are_skipped prompt cursor shell caps ps tr :
  _collectCompletions prompt cursor shell caps ps tr
  = _collectCompletions prompt cursor shell caps
      (List.filter (λ p, negb (shellTypeExcluded shell p)) ps) tr.
Proof.
  rewrite !_collectCompletions_run.
  assert (Hsame :
            firstRejection (List.map (settledCallback prompt cursor shell caps) ps)
            = firstRejection
                (List.map (settledCallback prompt cursor shell caps)
                   (List.filter (λ p, negb (shellTypeExcluded shell p)) ps))
            ∧ flat_map (λ p, itemsOf (contribution prompt cursor shell caps p)) ps
              = flat_map (λ p, itemsOf (contribution prompt cursor shell caps p))
                  (List.filter (λ p, negb (shellTypeExcluded shell p)) ps)
            ∧ invocations prompt cursor shell ps
              = invocations prompt cursor shell
                  (List.filter (λ p, negb (shellTypeExcluded shell p)) ps)
            ∧ flat_map (lookupsOf prompt cursor shell caps) ps
              = flat_map (lookupsOf prompt cursor shell caps)
                  (List.filter (λ p, negb (shellTypeExcluded shell p)) ps)).
  { induction ps as [|p ps (IHr & IHg & IHi & IHl)]; [now repeat split|].
    assert (Hp : shellTypeExcluded shell p = true →
                 contribution prompt cursor shell caps p = Fulfilled None
                 ∧ lookupsOf prompt cursor shell caps p = []).
    { intros Hshell. unfold contribution, lookupsOf.
      now rewrite callback_excluded. }
    unfold invocations in *. cbn [List.filter List.map flat_map].
    destruct (shellTypeExcluded shell p) eqn:Hshell; cbn [negb List.map flat_map].
    - destruct (Hp eq_refl) as [Hc Hl]. unfold settledCallback at 1.
      rewrite ?Hshell, Hc, Hl. cbn [firstRejection itemsOf app snd]. now repeat split.
    - rewrite ?Hshell, IHg, IHi, IHl. repeat split. now apply firstRejection_cons. }
  destruct Hsame as (Hr & Hg & -> & ->).
  now rewrite !gathered_items, !settledCallbacks_items, Hr, Hg.
Qed.

(** X14. A provider that is fulfilled with [undefined], or with a list that
    carries no resource request, adds nothing, whatever items the list
    holds: its callback is fulfilled with [undefined], and the result of
    [_collectCompletions] is the result without that provider. *)
Theorem list_without_resource_request_is_dropped prompt cursor shell caps p :
  shellTypeExcluded shell p = false →
  (provider_provideCompletions p prompt cursor = Fulfilled None
   ∨ ∃ completionItems,
       provider_provideCompletions p prompt cursor
       = Fulfilled (Some (CompletionList completionItems None))) →
  (∀ tr, callback prompt cursor shell caps p tr = (Fulfilled None, tr))
  ∧ ∀ ps1 ps2 tr,
      (_collectCompletions prompt cursor shell caps (ps1 ++ p :: ps2) tr).1
      = (_collectCompletions prompt cursor shell caps (ps1 ++ ps2) tr).1.
Proof.
  intros Hshell Hans.
  assert (Hcallback : ∀ tr, callback prompt cursor shell caps p tr = (Fulfilled None, tr)).
  { intros tr. unfold callback, startedOf. rewrite Hshell.
    destruct Hans as [-> | [completionItems ->]]; reflexivity. }
  split; [exact Hcallback|].
  intros ps1 ps2 tr. rewrite !_collectCompletions_run. simpl.
  rewrite !List.map_app. simpl.
  unfold settledCallback at 2, contribution. rewrite Hcallback. simpl.
  apply gathered_without_none.
Qed.

Lemma childCompletion_shape cfg prompt cursor pid folders files child it :
  childCompletion cfg prompt cursor pid folders files child = Some it →
  ∃ label kind detail, it = resourceCompletion cfg prompt cursor pid label kind detail.
Proof.
  unfold childCompletion.
  destruct (if folders && isDirectory child then Some Folder
            else if files && isFile child then Some File else None);
    [|discriminate].
  intros [= <-]. eauto.
Qed.

(** Every item of a listing is built by [resourceCompletion]. *)
Lemma listing_Forall (P : ITerminalCompletion → Prop) cfg prompt cursor pid caps
    (workingDirectory folder : URI) (cs : list IFileStat) :
  (∀ label kind detail, P (resourceCompletion cfg prompt cursor pid label kind detail)) →
  Forall P (listing cfg prompt cursor pid caps workingDirectory folder cs).
Proof.
  intros HP. unfold listing. repeat (apply Forall_app; split).
  - destruct (default false (foldersRequested cfg)); repeat constructor. apply HP.
  - apply Forall_omap_span. intros child it Hit.
    apply childCompletion_shape in Hit as (l & k & d & ->). apply HP.
  - apply Forall_flat_map, List.Forall_forall. intros e _.
    unfold cdPathEntryContribution, cdPathEntryCompletions.
    destruct (_fileService_resolve (URI_file e)) as [[st|]|]; try constructor.
    destruct (children st); [|constructor].
    apply Forall_omap_span. intros child it. unfold cdPathChildCompletion.
    destruct (negb (isDirectory child)); [discriminate|]. intros [= <-]. apply HP.
  - destruct (_ && _); repeat constructor. apply HP.
Qed.

Lemma resolveResources_Forall (P : ITerminalCompletion → Prop)
    cfg prompt cursor pid caps tr items tr' :
  (∀ label kind detail, P (resourceCompletion cfg prompt cursor pid label kind detail)) →
  resolveResources cfg prompt cursor pid caps tr = (Fulfilled (Some items), tr') →
  Forall P items.
Proof.
  intros HP Hres.
  apply resolveResources_inv in Hres
    as (workingDirectory & _ & _ & [(text & _ & -> & _)
                                   |(folder & stat & cs & _ & _ & _ & -> & _)]).
  - repeat constructor. apply HP.
  - now apply listing_Forall.
Qed.

Lemma ownItems_builtin shell p completions :
  isBuiltin p = true →
  Forall (λ it, provider it = id p) (ownItems shell p completions).
Proof.
  intros Hb. unfold ownItems. rewrite Hb.
  apply List.Forall_forall. intros it (it0 & <- & _)%in_map_iff. reflexivity.
Qed.

(** What a callback that is fulfilled with items has done: its provider
    answered, and the items are the provider's own ones followed by those
    of path resolution. *)
Lemma callback_inv prompt cursor shell caps p tr items tr' :
  callback prompt cursor shell caps p tr = (Fulfilled (Some items), tr') →
  ∃ completions resourceCompletions,
    shellTypeExcluded shell p = false
    ∧ provider_provideCompletions p prompt cursor = Fulfilled (Some completions)
    ∧ items = ownItems shell p completions ++ resourceCompletions
    ∧ Forall (λ it, ∃ label kind detail cfg,
                it = resourceCompletion cfg prompt cursor (id p) label kind detail)
        resourceCompletions.
Proof.
  unfold callback, startedOf.
  destruct (shellTypeExcluded shell p); [discriminate|].
  destruct (provider_provideCompletions p prompt cursor) as [[completions|]|e];
    [|discriminate..].
  simpl. unfold bind at 1. simpl.
  destruct completions as [completionItems|completionItems [cfg|]]; [| |discriminate].
  - intros [= <- _]. exists (ItemArray completionItems), [].
    rewrite app_nil_r. repeat split; auto.
  - unfold bind.
    destruct (resolveResources cfg prompt cursor (id p) caps tr)
      as [[resourceCompletions|e] tr''] eqn:Hres; [|discriminate].
    intros [= <- _].
    exists (CompletionList completionItems (Some cfg)), (default [] resourceCompletions).
    repeat split; auto.
    destruct resourceCompletions as [l|]; [|constructor]. simpl.
    eapply (resolveResources_Forall
              (λ it, ∃ label kind detail cfg0,
                 it = resourceCompletion cfg0 prompt cursor (id p) label kind detail));
      [|exact Hres].
    intros label kind detail. now exists label, kind, detail, cfg.
Qed.



(** X16. On PowerShell every own item of a provider carries the file
    override flag after aggregation: the one it had, or, when it had none,
    whether it is a method that replaces from offset 0; its label, kind and
    replacement span are as they were. On another shell type the flags are
    as the provider left them. *)
Theorem powershell_marks_file_overrides shell p completions :
  let completionItems :=
    match completions with
    | ItemArray completionItems => completionItems
    | CompletionList completionItems _ => default [] completionItems
    end in
  (shell = PowerShell →
   Forall2 (λ before after,
              isFileOverride after
              = Some (match isFileOverride before with
                      | Some flag => flag
                      | None =>
                          match kind before with
                          | Some k => kind_eqb k Method
                          | None => false
                          end && (replacementIndex before =? 0)
                      end)
              ∧ label after = label before
              ∧ kind after = kind before
              ∧ replacementIndex after = replacementIndex before
              ∧ replacementLength after = replacementLength before)
     completionItems (ownItems shell p completions))
  ∧ (shell ≠ PowerShell →
     List.map isFileOverride (ownItems shell p completions)
     = List.map isFileOverride completionItems).
Proof.
  intros completionItems. unfold ownItems. fold completionItems. split.
  - intros ->. rewrite bool_decide_eq_true_2 by reflexivity.
    induction completionItems as [|it l IH]; [destruct (isBuiltin p); constructor|].
    destruct (isBuiltin p); simpl in *; constructor; try exact IH;
      unfold markFileOverride; destruct (isFileOverride it) eqn:Hflag; simpl;
      rewrite ?Hflag; repeat split.
  - intros Hshell. rewrite bool_decide_eq_false_2 by exact Hshell.
    destruct (isBuiltin p); [|reflexivity].
    rewrite List.map_map. reflexivity.
Qed.

Lemma gathered_In os completionItems it :
  gathered os = Fulfilled (Some completionItems) →
  In it completionItems →
  ∃ o, In o os ∧ In it (itemsOf o.2).
Proof.
  rewrite gathered_items.
  destruct (firstRejection os) as [[instant e]|]; [discriminate|].
  intros [= <-] (o & Ho & Hit)%in_flat_map. now exists o.
Qed.

(** X17. On a request for builtin providers only, every item of the
    result carries the id of a registered builtin provider: the items of
    the other providers do not appear. *)
Theorem builtin_only_items_are_builtin prompt cursor shell caps this trigger tr items tr' :
  0 ≤ cursor →
  provideCompletions prompt cursor shell caps this trigger true tr
  = (Fulfilled (Some items), tr') →
  Forall (λ it, ∃ p, In p (providers this) ∧ isBuiltin p = true ∧ provider it = id p)
    items.
Proof.
  intros Hcursor. rewrite provideCompletions_selected by auto.
  rewrite _collectCompletions_run. intros [= Hgathered _].
  apply List.Forall_forall. intros it Hit.
  destruct (gathered_In _ _ _ Hgathered Hit) as (o & Ho & Hin).
  apply in_map_iff in Ho as (p & <- & Hp). simpl in Hin.
  unfold selectedProviders in Hp. apply filter_In in Hp as [Hp Hb].
  exists p. split; [|split; [exact Hb|]].
  - unfold requestedProviders in Hp. destruct trigger; [|exact Hp].
    now apply providersToRequest_iff in Hp.
  - unfold contribution in Hin.
    destruct (callback prompt cursor shell caps p []) as [[[l|]|e] tr0] eqn:Hcb;
      simpl in Hin; try contradiction.
    apply callback_inv in Hcb
      as (completions & resourceCompletions & _ & _ & -> & Hresources).
    apply in_app_or in Hin as [Hin|Hin].
    + pose proof (ownItems_builtin shell p completions Hb) as Hown.
      rewrite List.Forall_forall in Hown. now apply Hown.
    + rewrite List.Forall_forall in Hresources.
      now destruct (Hresources it Hin) as (label & kind & detail & cfg & ->).
Qed.

(** A rejected callback rejects the whole, with the error of the callback
    that is rejected first. *)
Lemma _collectCompletions_rejected prompt cursor shell caps ps p e tr :
  In p ps →
  contribution prompt cursor shell caps p = Rejected e →
  ∃ q e',
    (_collectCompletions prompt cursor shell caps ps tr).1 = Rejected e'
    ∧ rejectedFirst prompt cursor shell caps ps q e'.
Proof.
  intros Hin Hrej. rewrite _collectCompletions_run. simpl. rewrite gathered_items.
  destruct (firstRejection_Some
              (List.map (settledCallback prompt cursor shell caps) ps) (settledAt p) e)
    as (instant' & e' & Hfirst & _).
  { apply in_map_iff. exists p. split; [|exact Hin].
    unfold settledCallback. now rewrite Hrej. }
  rewrite Hfirst.
  apply settledCallbacks_first in Hfirst as (q & Hq & _ & Hcontribution & Hleast).
  exists q, e'. split; [reflexivity|]. now repeat split.
Qed.

(** C5, with the error that [Promise.all] reports. A selected provider
    that is asked and rejects, and a rejected lookup of the folder of the
    last word, each reject the callback of the provider with that error and
    [provideCompletions] as a whole: there is no result, partial or not. The
    error of the whole is that of the callback that is rejected first among
    those of the selected providers; it is the error of the provider or of
    the lookup when no callback is rejected with another one. The CDPATH
    loop, in contrast, never rejects: it looks up every entry in order, an
    entry whose lookup is rejected adds nothing, and the others add what
    they hold; and once the lookup of the folder of the last word is
    fulfilled, [resolveResources] is fulfilled. *)
Theorem rejections_propagate_except_for_cdpath_entries :
  (∀ prompt cursor shell caps this trigger skip tr p e,
     0 ≤ cursor →
     In p (selectedProviders prompt cursor this trigger skip) →
     shellTypeExcluded shell p = false →
     provider_provideCompletions p prompt cursor = Rejected e →
     (∀ tr_p, callback prompt cursor shell caps p tr_p = (Rejected e, tr_p))
     ∧ ∃ q e',
         (provideCompletions prompt cursor shell caps this trigger skip tr).1
         = Rejected e'
         ∧ rejectedFirst prompt cursor shell caps
             (selectedProviders prompt cursor this trigger skip) q e'
         ∧ ((∀ q' e'',
               In q' (selectedProviders prompt cursor this trigger skip) →
               contribution prompt cursor shell caps q' = Rejected e'' → e'' = e) →
            e' = e))
  ∧ (∀ prompt cursor shell caps this trigger skip tr p items cfg workingDirectory folder e,
       0 ≤ cursor →
       In p (selectedProviders prompt cursor this trigger skip) →
       shellTypeExcluded shell p = false →
       provider_provideCompletions p prompt cursor
       = Fulfilled (Some (CompletionList items (Some cfg))) →
       cwd cfg = Some workingDirectory →
       resourcesRequested cfg = true →
       lastWordFolderResource cfg prompt cursor caps workingDirectory = Some (inl folder) →
       _fileService_resolve folder = Rejected e →
       (∀ tr_p, resolveResources cfg prompt cursor (id p) caps tr_p
                = (Rejected e, tr_p ++ [Resolve folder]))
       ∧ (∀ tr_p, (callback prompt cursor shell caps p tr_p).1 = Rejected e)
       ∧ ∃ q e',
           (provideCompletions prompt cursor shell caps this trigger skip tr).1
           = Rejected e'
           ∧ rejectedFirst prompt cursor shell caps
               (selectedProviders prompt cursor this trigger skip) q e'
           ∧ ((∀ q' e'',
                 In q' (selectedProviders prompt cursor this trigger skip) →
                 contribution prompt cursor shell caps q' = Rejected e'' → e'' = e) →
              e' = e))
  ∧ (∀ cfg prompt cursor pid config cdPathEntries acc tr,
       cdPathLoop cfg prompt cursor pid config cdPathEntries acc tr
       = (Fulfilled (acc ++ flat_map (cdPathEntryContribution cfg prompt cursor pid config)
                              cdPathEntries),
          tr ++ List.map (λ cdPathEntry, Resolve (URI_file cdPathEntry)) cdPathEntries)
       ∧ ∀ cdPathEntry e,
           _fileService_resolve (URI_file cdPathEntry) = Rejected e →
           cdPathEntryContribution cfg prompt cursor pid config cdPathEntry = [])
  ∧ (∀ cfg prompt cursor pid caps tr workingDirectory folder stat,
       cwd cfg = Some workingDirectory →
       lastWordFolderResource cfg prompt cursor caps workingDirectory = Some (inl folder) →
       _fileService_resolve folder = Fulfilled stat →
       ∃ result tr',
         resolveResources cfg prompt cursor pid caps tr = (Fulfilled result, tr')).
Proof.
  assert (Hwhole : ∀ prompt cursor shell caps this trigger skip tr p e,
             0 ≤ cursor →
             In p (selectedProviders prompt cursor this trigger skip) →
             contribution prompt cursor shell caps p = Rejected e →
             ∃ q e',
               (provideCompletions prompt cursor shell caps this trigger skip tr).1
               = Rejected e'
               ∧ rejectedFirst prompt cursor shell caps
                   (selectedProviders prompt cursor this trigger skip) q e'
               ∧ ((∀ q' e'',
                     In q' (selectedProviders prompt cursor this trigger skip) →
                     contribution prompt cursor shell caps q' = Rejected e'' → e'' = e) →
                  e' = e)).
  { intros prompt cursor shell caps this trigger skip tr p e Hcursor Hin Hrej.
    rewrite provideCompletions_selected; [|exact Hcursor|].
    - destruct (_collectCompletions_rejected prompt cursor shell caps _ p e tr Hin Hrej)
        as (q & e' & Hres & Hfirst).
      exists q, e'. split; [exact Hres|]. split; [exact Hfirst|].
      intros Honly. destruct Hfirst as (Hq & Hcontribution & _).
      now apply (Honly q e').
    - right. intros Hnil. rewrite Hnil in Hin. contradiction. }
  split; [|split; [|split]].
  - intros prompt cursor shell caps this trigger skip tr p e Hcursor Hin Hshell Hrej.
    assert (Hcallback : ∀ tr_p, callback prompt cursor shell caps p tr_p
                                = (Rejected e, tr_p)).
    { intros tr_p. now apply callback_provider_rejected. }
    split; [exact Hcallback|].
    apply (Hwhole prompt cursor shell caps this trigger skip tr p e Hcursor Hin).
    unfold contribution. now rewrite Hcallback.
  - intros prompt cursor shell caps this trigger skip tr p items cfg workingDirectory
      folder e Hcursor Hin Hshell Hans Hcwd Hreq Hfolder Hrej.
    assert (Hresolve : ∀ tr_p, resolveResources cfg prompt cursor (id p) caps tr_p
                               = (Rejected e, tr_p ++ [Resolve folder])).
    { intros tr_p. eapply resolveResources_lookup_rejected; eauto. }
    assert (Hcallback : ∀ tr_p, (callback prompt cursor shell caps p tr_p).1 = Rejected e).
    { intros tr_p. rewrite (callback_resource_request _ _ _ _ _ items cfg) by assumption.
      now rewrite Hresolve. }
    split; [exact Hresolve|]. split; [exact Hcallback|].
    apply (Hwhole prompt cursor shell caps this trigger skip tr p e Hcursor Hin).
    apply Hcallback.
  - intros cfg prompt cursor pid config cdPathEntries acc tr.
    split; [apply cdPathLoop_total|].
    intros cdPathEntry e Hrej. unfold cdPathEntryContribution. now rewrite Hrej.
  - intros cfg prompt cursor pid caps tr workingDirectory folder stat.
    apply resolveResources_lookup_fulfilled.
Qed.

End CollectProperties.

(** ** More on the registry *)

Section OMapMoreProperties.

Context {V : Type}.

Implicit Types (k : string) (v : V) (m : OMap.t V).

Lemma OMap_set_absent k v m : OMap.get k m = None → OMap.set k v m = m ++ [(k, v)].
Proof.
  induction m as [|[k' v'] m IH]; simpl; [reflexivity|].
  destruct (String.eqb k' k); [discriminate|]. intros Hget. now rewrite IH.
Qed.

Lemma OMap_set_same k v m : OMap.get k m = Some v → OMap.set k v m = m.
Proof.
  induction m as [|[k' v'] m IH]; simpl; [discriminate|].
  destruct (String.eqb_spec k' k) as [->|Hne]; [now intros [= ->]|].
  intros Hget. now rewrite IH.
Qed.

Lemma OMap_set_set k v v' m : OMap.set k v (OMap.set k v' m) = OMap.set k v m.
Proof.
  induction m as [|[k0 v0] m IH]; simpl.
  - now rewrite String.eqb_refl.
  - destruct (String.eqb_spec k0 k) as [->|Hne]; simpl.
    + now rewrite String.eqb_refl.
    + destruct (String.eqb_spec k0 k); [contradiction|]. now rewrite IH.
Qed.

Lemma OMap_delete_absent k m : OMap.get k m = None → OMap.delete k m = m.
Proof.
  induction m as [|[k' v'] m IH]; simpl; [reflexivity|].
  destruct (String.eqb k' k); [discriminate|]. intros Hget. now rewrite IH.
Qed.

Lemma OMap_delete_set_absent k v m :
  OMap.get k m = None → OMap.delete k (OMap.set k v m) = m.
Proof.
  intros Hget. rewrite OMap_set_absent by exact Hget.
  induction m as [|[k' v'] m IH]; simpl in *.
  - now rewrite String.eqb_refl.
  - destruct (String.eqb k' k); [discriminate|]. now rewrite IH.
Qed.

End OMapMoreProperties.

Section RegistryMoreProperties.

Context `{Platform}.

Implicit Types (this : TerminalCompletionService) (ext : string) (r : loc)
  (chars : list string).

Lemma noEmptyBucket_register this ext (providerId : string) r chars :
  noEmptyBucket this →
  noEmptyBucket (registerTerminalCompletionProvider this ext providerId r chars).1.
Proof.
  intros Hne e bucket [[= -> ->]|Hin]%OMap_In_set; [|now eauto].
  destruct (match OMap.get ext (_providers this) with
            | Some extMap => extMap
            | None => OMap.empty
            end) as [|[k v] extMap]; simpl; [discriminate|].
  now destruct (String.eqb k providerId).
Qed.

Lemma noEmptyBucket_dispose this d :
  noEmptyBucket this → noEmptyBucket (dispose d this).
Proof.
  intros Hne. unfold dispose.
  destruct (OMap.get (disposable_extensionIdentifier d) (_providers this))
    as [extMap|] eqn:Hget; [|exact Hne].
  destruct (Nat.eqb_spec (OMap.size (OMap.delete (disposable_id d) extMap)) 0)
    as [Hsize|Hsize]; simpl.
  - intros e bucket [Hin _]%OMap_In_delete. now eauto.
  - intros e bucket [[= -> ->]|Hin]%OMap_In_set; [|now eauto].
    intros Hnil. rewrite Hnil in Hsize. now apply Hsize.
Qed.

(** X18. A registry that comes from an empty one by registrations and runs
    of handles holds each namespace once, each id once in its namespace,
    and no empty bucket. *)
Theorem reachable_registry_invariant this :
  reachable this → wellFormed this ∧ noEmptyBucket this.
Proof.
  induction 1 as [objects|this ext providerId r chars _ [Hwf Hne]
                  |this d _ [Hwf Hne]|this objects _ [Hwf Hne]].
  - split; [apply wellFormed_empty | intros ext bucket []].
  - split; [now apply wellFormed_register | now apply noEmptyBucket_register].
  - split; [now apply wellFormed_dispose | now apply noEmptyBucket_dispose].
  - split; [exact Hwf | exact Hne].
Qed.

(** X19. Registering under keys that are free and then running the handle
    gives back the two-level mapping as it was, in a registry without empty
    buckets; the provider object keeps the id and the trigger characters
    that registration wrote to it. *)
Theorem register_then_dispose this ext (providerId : string) r chars :
  registered this ext providerId = None →
  noEmptyBucket this →
  let this' := (registerTerminalCompletionProvider this ext providerId r chars).1 in
  let handle := (registerTerminalCompletionProvider this ext providerId r chars).2 in
  _providers (dispose handle this') = _providers this
  ∧ provider_refs (dispose handle this') = provider_refs this
  ∧ heap (dispose handle this') !! r = stamp providerId chars <$> heap this !! r.
Proof.
  intros Hfree Hne this' handle.
  assert (Hmap : _providers (dispose handle this') = _providers this).
  { unfold dispose, handle, this', registerTerminalCompletionProvider. simpl.
    rewrite OMap_get_set_eq. unfold registered in Hfree.
    destruct (OMap.get ext (_providers this)) as [extMap|] eqn:Hget; simpl in *.
    - rewrite OMap_delete_set_absent by exact Hfree.
      destruct (Nat.eqb_spec (OMap.size extMap) 0) as [Hsize|_]; simpl.
      + exfalso. apply (Hne ext extMap); [now apply OMap_get_In|].
        now destruct extMap.
      + rewrite OMap_set_set. now apply OMap_set_same.
    - rewrite String.eqb_refl. simpl. now apply OMap_delete_set_absent. }
  split; [exact Hmap|]. split.
  - unfold provider_refs. now rewrite Hmap.
  - assert (Hheap : heap (dispose handle this') = heap this').
    { unfold dispose. destruct (OMap.get _ _); [|reflexivity].
      now destruct (OMap.size _ =? 0)%nat. }
    rewrite Hheap. unfold this'. simpl. apply lookup_alter_eq.
Qed.

(** X20. The view enumerates the namespaces in the order of their first
    registration and the ids in that order within a namespace: a
    registration in a new namespace is yielded last, a registration under a
    new id of a namespace is yielded after the other providers of that
    namespace, and a registration under keys that are taken is yielded
    where the provider it replaces was. *)
Theorem registration_order this ext (providerId : string) r chars :
  let this' := (registerTerminalCompletionProvider this ext providerId r chars).1 in
  (OMap.get ext (_providers this) = None →
   provider_refs this' = provider_refs this ++ [r])
  ∧ (∀ bucket,
       OMap.get ext (_providers this) = Some bucket →
       OMap.get providerId bucket = None →
       ∃ front back,
         provider_refs this = front ++ OMap.values bucket ++ back
         ∧ provider_refs this' = front ++ OMap.values bucket ++ r :: back)
  ∧ (∀ r0,
       registered this ext providerId = Some r0 →
       ∃ front back,
         provider_refs this = front ++ r0 :: back
         ∧ provider_refs this' = front ++ r :: back).
Proof.
  intros this'.
  assert (Hflat : ∀ (m1 m2 : OMap.t (OMap.t loc)) (b : OMap.t loc) e,
             flat_map (λ providerMap : OMap.t loc, OMap.values providerMap)
               (OMap.values (m1 ++ (e, b) :: m2))
             = flat_map (λ providerMap : OMap.t loc, OMap.values providerMap)
                 (OMap.values m1)
               ++ OMap.values b
               ++ flat_map (λ providerMap : OMap.t loc, OMap.values providerMap)
                    (OMap.values m2)).
  { intros m1 m2 b e. unfold OMap.values.
    now rewrite List.map_app, flat_map_app. }
  assert (Hvalues : ∀ b1 b2 : OMap.t loc,
             OMap.values (b1 ++ b2) = OMap.values b1 ++ OMap.values b2).
  { intros b1 b2. apply List.map_app. }
  split; [|split].
  - intros Hget. unfold this', registerTerminalCompletionProvider, provider_refs.
    simpl. rewrite Hget, OMap_set_absent by exact Hget.
    rewrite Hflat. reflexivity.
  - intros bucket Hget Hid.
    unfold this', registerTerminalCompletionProvider, provider_refs. simpl.
    rewrite Hget.
    destruct (OMap_set_present ext (OMap.set providerId r bucket) bucket _ Hget)
      as (m1 & m2 & Hm & ->).
    rewrite Hm, !Hflat, OMap_set_absent by exact Hid.
    eexists _, _. split; [reflexivity|].
    rewrite Hvalues. now rewrite <- !app_assoc.
  - intros r0. unfold registered.
    destruct (OMap.get ext (_providers this)) as [bucket|] eqn:Hget; [|discriminate].
    simpl. intros Hid.
    unfold this', registerTerminalCompletionProvider, provider_refs. simpl.
    rewrite Hget.
    destruct (OMap_set_present ext (OMap.set providerId r bucket) bucket _ Hget)
      as (m1 & m2 & Hm & ->).
    destruct (OMap_set_present providerId r r0 bucket Hid) as (b1 & b2 & Hb & ->).
    rewrite Hm, !Hflat, Hb, !Hvalues.
    change (OMap.values ((providerId, r0) :: b2)) with (r0 :: OMap.values b2).
    change (OMap.values ((providerId, r) :: b2)) with (r :: OMap.values b2).
    exists (flat_map (λ providerMap : OMap.t loc, OMap.values providerMap)
              (OMap.values m1) ++ OMap.values b1),
           (OMap.values b2
            ++ flat_map (λ providerMap : OMap.t loc, OMap.values providerMap)
                 (OMap.values m2)).
    rewrite <- !app_assoc. split; reflexivity.
Qed.

End RegistryMoreProperties.

(** ** The properties on the concrete platform *)

Section OnTheExample.

Import Example.

#[local] Existing Instance platform.
#[local] Existing Instance services.

(** C1 at its hypothesis: a listing of [/home/u] for [cd sr], with CDPATH
    set, returns five items; each of them has the span from 3 to 5, where
    the word [sr] stands. *)
Lemma resolveResources_items_share_word_span_example :
  ∃ items tr',
    resolveResources (foldersIn (Some "/home/u")) "cd sr" 5 "p" withCdPath []
    = (Fulfilled (Some items), tr')
    ∧ List.length items = 5%nat
    ∧ Forall (λ it,
                replacementIndex it = 3
                ∧ replacementLength it = 2
                ∧ JS.substring "cd sr" (replacementIndex it)
                    (replacementIndex it + replacementLength it) = "sr") items.
Proof.
  eexists _, _. split; [vm_compute; reflexivity|]. split; [reflexivity|].
  edestruct (@resolveResources_items_share_word_span platform services
               (foldersIn (Some "/home/u")) "cd sr" 5 "p" withCdPath [])
    as (word & Hfree & Hshape & _ & _ & Hitems); [vm_compute; reflexivity|].
  assert (Hsr : ¬ holds JS.space "sr").
  { intros (before & after & Heq).
    destruct before as [|c1 [|c2 [|c3 before]]];
      rewrite ?JS_app_cons, ?JS_app_nil in Heq; discriminate. }
  assert (Hword : word = "sr").
  { apply (space_free_tail_unique _ word "sr" Hfree Hsr Hshape).
    right. exists "cd". reflexivity. }
  subst word. eapply Forall_impl; [exact Hitems|].
  intros it (Hi & Hl & _ & Hspan). simpl.
  split; [exact Hi|]. split; [exact Hl|].
  destruct Hspan as [_ Hsub]; [split; [lia | vm_compute; discriminate] | exact Hsub].
Defined.

(** C2 at its hypothesis: the cursor at [-1]. *)
Lemma negative_cursor_gives_no_result_example :
  provideCompletions "cd " (-1) bash noEnv (registryOf ls failing) true false []
  = (Fulfilled None, []).
Proof. apply (@negative_cursor_gives_no_result platform services). lia. Defined.

(** C3 on the example: after [cd src/], the provider triggered by the
    slash is requested, and the provider without trigger characters is
    not. *)
Lemma trigger_request_selects_by_suffix_example :
  In ls (requestedProviders "cd src/" 7 (registryOf ls failing) true)
  ∧ ¬ In failing (requestedProviders "cd src/" 7 (registryOf ls failing) true).
Proof.
  split.
  - destruct (@trigger_request_selects_by_suffix platform "cd src/" 7 (registryOf ls failing) ls)
      as [Hiff _].
    apply Hiff. split; [vm_compute; left; reflexivity|].
    exists ["/"], "/". split; [reflexivity|]. split; [now left|].
    exists "cd src". reflexivity.
  - destruct (@trigger_request_selects_by_suffix platform "cd src/" 7 (registryOf ls failing) failing)
      as [_ Hnever].
    apply Hnever. right. reflexivity.
Defined.

(** X21 on two registries: one where no provider passes the filter, one
    where provider [a] passes and provider [b] does not. *)
Lemma config_filter_and_no_result_example :
  provideCompletions "cd " 3 bash noEnv (registryOf disabled unlisted) false false []
  = (Fulfilled None, [])
  ∧ provideCompletions "cd " 3 bash noEnv (registryOf ls disabled) false false []
    = _collectCompletions "cd " 3 bash noEnv [ls] [].
Proof.
  split.
  - pose proof (@config_filter_and_no_result platform services "cd " 3 bash noEnv
                  (registryOf disabled unlisted) false []) as Hthm.
    cbv zeta in Hthm. destruct Hthm as (_ & Hnone & _).
    apply Hnone. vm_compute. reflexivity.
  - pose proof (@config_filter_and_no_result platform services "cd " 3 bash noEnv
                  (registryOf ls disabled) false []) as Hthm.
    cbv zeta in Hthm. destruct Hthm as (_ & _ & Hsome & _).
    apply Hsome; [lia | vm_compute; discriminate].
Defined.

(** C4 at an id that the configuration object inherits: [constructor] is
    no key of the provider configuration, and the provider registered under
    it passes the filter, is invoked and has its item returned; the
    provider with the id [d], which is no key either, is not invoked. *)
Lemma inherited_name_passes_the_config_filter :
  Providers _configurationService !! "constructor" = None
  ∧ id <$> providers (registryOf inheritedName unlisted) = ["constructor"; "d"]
  ∧ provideCompletions "cd " 3 bash noEnv (registryOf inheritedName unlisted) false false []
    = (Fulfilled (Some [item "ls"]), [Invoke "constructor" "cd " 3]).
Proof.
  split; [reflexivity|]. split; [reflexivity|]. vm_compute. reflexivity.
Qed.

(** C9 at its hypotheses: a registry without a builtin provider. *)
Lemma builtin_only_without_builtins_is_empty_example :
  provideCompletions "cd " 3 bash noEnv (registryOf disabled failing) false true []
  = (Fulfilled (Some []), []).
Proof.
  destruct (@builtin_only_without_builtins_is_empty platform services "cd " 3 bash noEnv
              (registryOf disabled failing) false []) as [Hempty _];
    [lia | vm_compute; reflexivity | exact Hempty].
Defined.

(** C5 on the example: a provider that rejects, a working directory that
    cannot be read, and a CDPATH whose second entry cannot be read. *)
Lemma rejections_propagate_except_for_cdpath_entries_example :
  (provideCompletions "cd " 3 bash noEnv (registryOf ls failing) false false []).1
  = Rejected "boom"
  ∧ (provideCompletions "cd " 3 bash noEnv
       (registryOf ls (gitIn (Some "/locked"))) false false []).1
    = Rejected "EACCES"
  ∧ (cdPathLoop (foldersIn (Some "/home/u")) "cd " 3 "p" "absolute"
       ["/opt"; "/locked"; "/home/u"] [] []).2
    = [Resolve "/opt"; Resolve "/locked"; Resolve "/home/u"]
  ∧ cdPathEntryContribution (foldersIn (Some "/home/u")) "cd " 3 "p" "absolute" "/locked"
    = [].
Proof.
  destruct (@rejections_propagate_except_for_cdpath_entries platform services)
    as (Hprovider & Hlookup & Hcdpath & _).
  split; [|split; [|split]].
  - destruct (Hprovider "cd " 3 bash noEnv (registryOf ls failing) false false []
                failing "boom") as (_ & q & e' & He' & _);
      [lia | vm_compute; right; left; reflexivity | reflexivity | reflexivity |].
    rewrite He'. vm_compute in He'. now injection He' as <-.
  - destruct (Hlookup "cd " 3 bash noEnv (registryOf ls (gitIn (Some "/locked")))
                false false [] (gitIn (Some "/locked")) (Some [item "git"])
                (foldersIn (Some "/locked")) "/locked" "/locked" "EACCES")
      as (_ & _ & q & e' & He' & _);
      [lia | vm_compute; right; left; reflexivity
       | reflexivity | reflexivity | reflexivity | reflexivity | reflexivity | reflexivity |].
    rewrite He'. vm_compute in He'. now injection He' as <-.
  - destruct (Hcdpath (foldersIn (Some "/home/u")) "cd " 3 "p" "absolute"
                ["/opt"; "/locked"; "/home/u"] [] []) as [Hloop _].
    rewrite Hloop. reflexivity.
  - destruct (Hcdpath (foldersIn (Some "/home/u")) "cd " 3 "p" "absolute"
                ["/opt"; "/locked"; "/home/u"] [] []) as [_ Hswallowed].
    apply (Hswallowed "/locked" "EACCES"). reflexivity.
Defined.

(** C5 does not hold of a provider whose callback is not the first to be
    rejected: [failing] is selected, is asked and rejects with [boom], and
    the call is rejected with the error of [hasty], whose callback settles
    first. *)
Lemma the_first_rejection_is_reported :
  In failing (selectedProviders "cd " 3 (registryOf failing hasty) false false)
  ∧ shellTypeExcluded bash failing = false
  ∧ provider_provideCompletions failing "cd " 3 = Rejected "boom"
  ∧ (provideCompletions "cd " 3 bash noEnv (registryOf failing hasty) false false []).1
    = Rejected "early"
  ∧ @Rejected platform (option (list ITerminalCompletion)) "early" ≠ Rejected "boom".
Proof.
  split; [vm_compute; left; reflexivity|]. split; [reflexivity|].
  split; [reflexivity|]. split; [vm_compute; reflexivity | discriminate].
Qed.

(** C6 does not hold without a working directory: the folder of the
    last word of [cd ~/] is classified as [tilde] and there is no
    environment to read the home directory from, yet [resolveResources]
    returns [undefined], not a placeholder. *)
Lemma tilde_without_home_and_cwd_is_no_result :
  type (foldersIn None) "cd ~/" 5 = tilde
  ∧ homeUnreadable noEnv (useWindowsStylePath (foldersIn None))
  ∧ resolveResources (foldersIn None) "cd ~/" 5 "p" noEnv [] = (Fulfilled None, [])
  ∧ ¬ ∃ placeholder,
        resolveResources (foldersIn None) "cd ~/" 5 "p" noEnv []
        = (Fulfilled (Some [placeholder]), []).
Proof.
  split; [reflexivity|]. split; [exact I|]. split; [reflexivity|].
  intros [placeholder Heq]. discriminate Heq.
Qed.

(** C6 past the guard, on the example: the same request with the working
    directory [/home/u]. *)
Lemma tilde_without_home_is_placeholder_example :
  ∃ placeholder,
    resolveResources (foldersIn (Some "/home/u")) "cd ~/" 5 "p" noEnv []
    = (Fulfilled (Some [placeholder]), [])
    ∧ kind placeholder = Some Folder
    ∧ label placeholder = "~/"
    ∧ detail placeholder = Some "$HOME".
Proof.
  exact (@tilde_without_home_is_placeholder platform services (foldersIn (Some "/home/u")) "cd ~/" 5 "p"
           noEnv [] "/home/u" eq_refl eq_refl eq_refl I).
Defined.

(** C7 does not hold for a tab: with the cursor after the tab of
    [cd<tab>], the last word is the whole text, which is not the word after
    the last whitespace character and is not empty. *)
Lemma tab_does_not_end_the_last_word :
  Ascii.is_space JS.tab = true
  ∧ cursorPrefix (foldersIn (Some "/home/u")) promptWithTab 3 = promptWithTab
  ∧ lastWord (foldersIn (Some "/home/u")) promptWithTab 3 = promptWithTab
  ∧ ¬ isWordAfterLastWhitespace
        (cursorPrefix (foldersIn (Some "/home/u")) promptWithTab 3)
        (lastWord (foldersIn (Some "/home/u")) promptWithTab 3).
Proof.
  split; [reflexivity|]. split; [reflexivity|]. split; [reflexivity|].
  intros (Hfree & _ & _). apply (Hfree JS.tab eq_refl).
  exists "cd", EmptyString. reflexivity.
Qed.

(** C7 for the space character, on the same prompt and on [cd src]. *)
Lemma lastWord_follows_last_space_example :
  lastWord (foldersIn (Some "/home/u")) "cd src" 6 = "src"
  ∧ ¬ holds JS.space (lastWord (foldersIn (Some "/home/u")) promptWithTab 3).
Proof.
  split; [reflexivity|].
  now destruct (@lastWord_follows_last_space platform (foldersIn (Some "/home/u")) promptWithTab 3)
    as (_ & _ & Hfree & _).
Defined.

(** C8 on the registry of two providers: the handle of the second
    registration removes its entry, and the view yields the first provider
    only. *)
Lemma registration_and_release_example :
  registered (registryOf ls failing) "ext" "c" = Some 2%positive
  ∧ id <$> heap (registryOf ls failing) !! 2%positive = Some "c"
  ∧ registered (dispose (toDisposable "ext" "c") (registryOf ls failing)) "ext" "c" = None
  ∧ ¬ In 2%positive (provider_refs (dispose (toDisposable "ext" "c") (registryOf ls failing))).
Proof.
  pose (this := (registerTerminalCompletionProvider (twoObjects ls failing)
                   "ext" "a" 1%positive ["/"]).1).
  pose proof (@registration_and_release platform this "ext" "c" 2%positive []) as Hthm.
  cbv zeta in Hthm.
  destruct Hthm as ((bucket & Hbucket & Hentry) & _ & Hheap & _ & _ & _ & Hwf & Hrelease).
  destruct (Hrelease (registryOf ls failing)) as (Hgone & _ & _ & _ & Hview).
  split; [reflexivity|]. split; [reflexivity|]. split; [exact Hgone|].
  assert (Hlater : wellFormed (registryOf ls failing)).
  { apply Hwf. apply wellFormed_register. apply wellFormed_empty. }
  destruct (Hview Hlater) as (_ & _ & Hnot). apply Hnot.
  intros e i Hreg. apply In_provider_entries_registered in Hreg; [|exact Hlater].
  vm_compute in Hreg. destruct Hreg as [[=]|[[= <- <-]|[]]]. reflexivity.
Defined.

(** C8 does not hold of a provider object that is registered under two
    pairs of keys: after the handle of the first registration has run, its
    entry is removed, and the view still yields the object, by its second
    entry. *)
Lemma registered_twice_is_still_yielded :
  (registerTerminalCompletionProvider (twoObjects ls failing) "ext" "a" 1%positive []).2
  = toDisposable "ext" "a"
  ∧ registered registeredTwice "ext" "a" = Some 1%positive
  ∧ registered registeredTwice "ext" "b" = Some 1%positive
  ∧ registered (dispose (toDisposable "ext" "a") registeredTwice) "ext" "a" = None
  ∧ In 1%positive (provider_refs (dispose (toDisposable "ext" "a") registeredTwice))
  ∧ id <$> providers (dispose (toDisposable "ext" "a") registeredTwice) = ["b"].
Proof.
  split; [reflexivity|]. split; [reflexivity|]. split; [reflexivity|].
  split; [reflexivity|]. split; [now left | reflexivity].
Qed.

(** C10 on the example: a resource request without a working directory
    adds nothing to the one item of its provider, and the aggregation
    returns that item. *)
Lemma unanswerable_resource_request_keeps_own_items_example :
  resolveResources (foldersIn None) "cd " 3 "c" noEnv [] = (Fulfilled None, [])
  ∧ callback "cd " 3 bash noEnv (gitIn None) [] = (Fulfilled (Some [item "git"]), [])
  ∧ ∃ l tr' l1 l2,
      _collectCompletions "cd " 3 bash noEnv [ls; gitIn None] [] = (Fulfilled (Some l), tr')
      ∧ l = l1 ++ [item "git"] ++ l2.
Proof.
  destruct (@unanswerable_resource_request_keeps_own_items platform services) as [Hresolve Hown].
  split; [apply Hresolve; now left|].
  pose proof (Hown "cd " 3 bash noEnv (gitIn None) (Some [item "git"]) (foldersIn None)
                (or_introl eq_refl) eq_refl eq_refl) as Hgit.
  cbv zeta in Hgit. destruct Hgit as (_ & Hcallback & Hholds).
  split; [apply Hcallback|].
  edestruct (Hholds [ls; gitIn None] []) as (l1 & l2 & Hl);
    [right; left; reflexivity | vm_compute; reflexivity |].
  eexists _, _, l1, l2. split; [vm_compute; reflexivity | exact Hl].
Defined.

End OnTheExample.

(** ** The further properties on the concrete platform *)

Section MoreOnTheExample.

Import Example.

#[local] Existing Instance platform.
#[local] Existing Instance services.

(** X2 on the folder [c:\Users]: the drive letter comes back in upper case
    and the separator is appended. *)
Lemma getFriendlyPath_upper_case_drive_example :
  ∃ rest',
    getFriendlyPath "c:\Users" (JS.str JS.backslash) Folder = String "C" rest'
    ∧ rest' = ":\Users" +:+ JS.str JS.backslash.
Proof.
  destruct (@getFriendlyPath_upper_case_drive platform "c:\Users" Folder "c" ":\Users"
              eq_refl eq_refl) as (rest' & Heq & _ & [->|[_ ->]] & _).
  - vm_compute in Heq. discriminate Heq.
  - eexists. split; [exact Heq | reflexivity].
Defined.

(** X3 on a prompt with forward slashes, for the backslash as separator. *)
Lemma promptValue_normalization_example :
  JS.length (promptValue (windowsFoldersIn None) "cd C:/src/") = 10
  ∧ ¬ holds JS.slash (promptValue (windowsFoldersIn None) "cd C:/src/")
  ∧ ¬ holds JS.slash (lastWord (windowsFoldersIn None) "cd C:/src/" 10).
Proof.
  destruct (@promptValue_normalization platform (windowsFoldersIn None) "cd C:/src/" 10)
    as (Hlength & _ & Hwindows).
  split; [exact Hlength | exact (Hwindows eq_refl)].
Defined.

(** X4 on the prompt [cd src/ma] with the cursor at its end. *)
Lemma replacement_span_covers_last_word_example :
  lastWord (foldersIn (Some "/home/u")) "cd src/ma" 9 = "src/ma"
  ∧ JS.substring (promptValue (foldersIn (Some "/home/u")) "cd src/ma") 3 9 = "src/ma".
Proof.
  split; [reflexivity|].
  destruct (@replacement_span_covers_last_word platform (foldersIn (Some "/home/u"))
              "cd src/ma" 9 ltac:(lia)) as [_ Hspan].
  apply Hspan. vm_compute. discriminate.
Defined.

(** X5 on the same prompt: the folder of [src/ma] is [src/]. *)
Lemma lastWordFolder_is_complete_example :
  ∃ rest,
    lastWord (foldersIn (Some "/home/u")) "cd src/ma" 9
    = lastWordFolder (foldersIn (Some "/home/u")) "cd src/ma" 9 +:+ rest
    ∧ ¬ holds JS.slash rest
    ∧ lastWordFolder (foldersIn (Some "/home/u")) "cd src/ma" 9 = "src/".
Proof.
  destruct (@lastWordFolder_is_complete platform (foldersIn (Some "/home/u"))
              "cd src/ma" 9 JS.slash eq_refl) as (rest & Hword & Hfree & _).
  exists rest. split; [exact Hword|]. split; [exact Hfree | reflexivity].
Defined.

(** X6 on the prompt [cd src/]: the label of the parent directory. *)
Lemma relative_labels_start_with_dot_example :
  label (parentCompletion (foldersIn (Some "/home/u")) "cd src/" 7 "p" "/home/u")
  = "./src/../"
  ∧ JS.matchDotPrefix
      (label (parentCompletion (foldersIn (Some "/home/u")) "cd src/" 7 "p" "/home/u"))
    = true.
Proof.
  split; [reflexivity|].
  destruct (@relative_labels_start_with_dot platform (foldersIn (Some "/home/u"))
              "cd src/" 7 "p" eq_refl (or_introl eq_refl)) as (_ & Hparent & _).
  apply Hparent.
Defined.

(** X7 on a listing of [/home/u] for [cd ], with CDPATH set. *)
Lemma relative_listing_layout_example :
  ∃ items tr',
    resolveResources (foldersIn (Some "/home/u")) "cd " 3 "p" withCdPath []
    = (Fulfilled (Some items), tr')
    ∧ ∃ middle lookups,
        items = currentFolderCompletion (foldersIn (Some "/home/u")) "cd " 3 "p" "/home/u"
                :: middle
                   ++ [parentCompletion (foldersIn (Some "/home/u")) "cd " 3 "p" "/home/u"]
        ∧ List.length middle = 3%nat
        ∧ tr' = Resolve "/home/u" :: lookups.
Proof.
  eexists _, _. split; [vm_compute; reflexivity|].
  edestruct (@relative_listing_layout platform services (foldersIn (Some "/home/u"))
               "cd " 3 "p" withCdPath [])
    as (workingDirectory & middle & lookups & [= <-] & Hitems & Htr);
    [vm_compute; reflexivity | reflexivity | reflexivity |].
  exists middle, lookups. split; [exact Hitems|]. split; [|exact Htr].
  apply (f_equal (@List.length _)) in Hitems.
  simpl in Hitems. rewrite List.length_app in Hitems. simpl in Hitems. lia.
Defined.

(** X8 on the absolute folder [/opt/], with a file service that takes the
    slash at its end. *)
Lemma nonrelative_listing_example :
  ∃ items tr',
    @resolveResources platform lenient (foldersIn (Some "/home/u")) "cd /opt/" 8 "p"
      withCdPath []
    = (Fulfilled (Some items), tr')
    ∧ List.length items = 2%nat
    ∧ tr' = [Resolve "/opt/"].
Proof.
  eexists _, _. split; [vm_compute; reflexivity|]. split; [reflexivity|].
  edestruct (@nonrelative_listing platform lenient (foldersIn (Some "/home/u"))
               "cd /opt/" 8 "p" withCdPath [])
    as [(text & Htilde & _)|(folder & stat & cs & [[_ ->]|[Htilde _]] & _ & _ & _ & Htr)];
    [vm_compute; reflexivity | discriminate | discriminate Htilde | | discriminate Htilde].
  exact Htr.
Defined.

(** X9 on the same listing of [/home/u]: folders only. *)
Lemma resolveResources_kinds_example :
  ∃ items tr',
    resolveResources (foldersIn (Some "/home/u")) "cd " 3 "p" withCdPath []
    = (Fulfilled (Some items), tr')
    ∧ List.length items = 5%nat
    ∧ Forall (λ it, kind it = Some Folder) items.
Proof.
  eexists _, _. split; [vm_compute; reflexivity|]. split; [reflexivity|].
  edestruct (@resolveResources_kinds platform services (foldersIn (Some "/home/u"))
               "cd " 3 "p" withCdPath []) as (_ & Hfolders & _);
    [vm_compute; reflexivity|].
  apply Hfolders. reflexivity.
Defined.

(** X10 on a prompt that does not start with [cd ], with CDPATH set. *)
Lemma cdpath_is_for_cd_only_example :
  (resolveResources (foldersIn (Some "/home/u")) "ls " 3 "p" withCdPath []).2 = []
  ∨ ∃ folder,
      (resolveResources (foldersIn (Some "/home/u")) "ls " 3 "p" withCdPath []).2
      = [Resolve folder].
Proof.
  exact (@cdpath_is_for_cd_only platform services (foldersIn (Some "/home/u")) "ls " 3 "p"
           withCdPath [] (or_intror (or_intror (or_introl eq_refl)))).
Defined.


(** X12 on a registry of two providers, the second of which is
    rejected. *)
Lemma provideCompletions_invokes_the_selected_example :
  ∃ lookups,
    Forall isLookup lookups
    ∧ (provideCompletions "cd " 3 bash noEnv (registryOf ls failing) false false []).2
      = [Invoke "a" "cd " 3; Invoke "c" "cd " 3] ++ lookups.
Proof.
  destruct (@provideCompletions_invokes_the_selected platform services "cd " 3 bash noEnv
              (registryOf ls failing) false false [] ltac:(lia))
    as (lookups & Hlookups & Htrace).
  exists lookups. split; [exact Hlookups|]. rewrite Htrace. reflexivity.
Defined.

(** X14 on a provider whose list carries an item and no resource
    request. *)
Lemma list_without_resource_request_is_dropped_example :
  callback "cd " 3 bash noEnv bare [] = (Fulfilled None, [])
  ∧ (_collectCompletions "cd " 3 bash noEnv [ls; bare] []).1
    = (_collectCompletions "cd " 3 bash noEnv [ls] []).1.
Proof.
  destruct (@list_without_resource_request_is_dropped platform services "cd " 3 bash noEnv
              bare eq_refl (or_intror (ex_intro _ (Some [item "git"]) eq_refl)))
    as [Hcallback Hdropped].
  split; [apply Hcallback | apply (Hdropped [ls] [] [])].
Defined.


(** X17 on a registry of a builtin provider and another one. *)
Lemma builtin_only_items_are_builtin_example :
  ∃ items tr',
    provideCompletions "cd " 3 bash noEnv (registryOf ls unlisted) false true []
    = (Fulfilled (Some items), tr')
    ∧ List.length items = 1%nat
    ∧ Forall (λ it, ∃ p, In p (providers (registryOf ls unlisted))
                         ∧ isBuiltin p = true ∧ provider it = id p) items.
Proof.
  eexists _, _. split; [vm_compute; reflexivity|]. split; [reflexivity|].
  eapply (@builtin_only_items_are_builtin platform services "cd " 3 bash noEnv
            (registryOf ls unlisted) false []); [lia | vm_compute; reflexivity].
Defined.

(** X18 on the registry of two providers after the handle of the first
    has run. *)
Lemma reachable_registry_invariant_example :
  wellFormed (dispose (toDisposable "ext" "a") (registryOf ls failing))
  ∧ noEmptyBucket (dispose (toDisposable "ext" "a") (registryOf ls failing)).
Proof.
  apply (@reachable_registry_invariant platform).
  apply reachable_dispose. unfold registryOf. cbv zeta.
  apply reachable_register. apply reachable_register. apply reachable_new.
Defined.

(** X19 on an empty registry. *)
Lemma register_then_dispose_example :
  _providers
    (dispose (registerTerminalCompletionProvider (twoObjects ls failing)
                "ext" "z" 1%positive ["/"]).2
       (registerTerminalCompletionProvider (twoObjects ls failing)
          "ext" "z" 1%positive ["/"]).1)
  = OMap.empty
  ∧ id <$> heap
      (dispose (registerTerminalCompletionProvider (twoObjects ls failing)
                  "ext" "z" 1%positive ["/"]).2
         (registerTerminalCompletionProvider (twoObjects ls failing)
            "ext" "z" 1%positive ["/"]).1) !! 1%positive
    = Some "z".
Proof.
  pose proof (@register_then_dispose platform (twoObjects ls failing) "ext" "z" 1%positive
                ["/"] eq_refl) as Hthm.
  cbv zeta in Hthm. destruct Hthm as (Hmap & _ & Hheap).
  - intros ext bucket [].
  - split; [exact Hmap|]. exact (eq_trans (f_equal (fmap id) Hheap) eq_refl).
Defined.

End MoreOnTheExample.
